(** * Atlas client (nomic): bulk upload pipeline and metadata validator

    A shallow embedding of the parts of [nomic/project.py] and
    [nomic/atlas.py] that split a dataset into shards, drive the shard
    uploads ([AtlasProject.add_text], [AtlasProject.add_embeddings],
    [AtlasClient.add_embeddings]) and validate user metadata
    ([AtlasClass._validate_and_correct_user_supplied_metadata]).

    Python integers are [Z]; a [str] is a [string], one element per
    character; lists are [list]; a [dict] whose iteration order matters is
    an association list in insertion order; exceptions are values of [exn]
    returned through explicit result types.

    The thread pool is replaced by two oracles.  The transport says what
    each submitted request resolves to, as a function of the rank of its
    [executor.submit] call and of its start point.  The scheduler says
    which completed futures [concurrent.futures.wait] hands back at each
    pass of the [while] loop, and in which order the [for] loop meets
    them.  Statements quantify over both.  The [while] loop runs on fuel,
    one unit per pass; a loop that is still running when the fuel is spent
    is reported as such.

    The records handed to the validator are Python objects that it
    updates in place: they live in a store, and [data] lists their
    addresses. *)

From Stdlib Require Import String Ascii DecimalString.
From Stdlib Require Import ZArith QArith Bool Lia List Permutation.
Import ListNotations.

Set Warnings "-register-all".

Open Scope string_scope.
Open Scope list_scope.
Open Scope Z_scope.

(* ================================================================= *)
(** ** Python primitives used by the source                           *)
(* ================================================================= *)

Module Py.

(** Exceptions raised by the modelled code.  The constructor is the Python
    class, the payload (where there is one) tells the raise sites apart. *)
Inductive exn : Type :=
| ValueError (msg : string)
| KeyError (key : string)
| TypeError (msg : string)
| ZeroDivisionError
| RuntimeError (msg : string)
| JSONDecodeError
| PyException (msg : string).

(** [len(range(start, stop, step))] as CPython computes it; [step = 0] is
    rejected by [range] itself and is handled where [range] is called. *)
Definition range_len (start stop step : Z) : Z :=
  if 0 <? step then Z.max 0 ((stop - start + step - 1) / step)
  else if step <? 0 then Z.max 0 ((start - stop - step - 1) / (- step))
  else 0.

(** [list(range(start, stop, step))]: the items [start + k * step]. *)
Definition range (start stop step : Z) : list Z :=
  map (fun k => start + Z.of_nat k * step)
      (seq 0 (Z.to_nat (range_len start stop step))).

(** Slice bounds: a negative index counts from the end, then both bounds
    are clamped to [0, len]. *)
Definition clamp_index (len i : Z) : Z :=
  if i <? 0 then Z.max 0 (i + len) else Z.min i len.

(** [l[i:j]] *)
Definition slice {A : Type} (l : list A) (i j : Z) : list A :=
  let n := Z.of_nat (length l) in
  let lo := clamp_index n i in
  let hi := clamp_index n j in
  firstn (Z.to_nat (hi - lo)) (skipn (Z.to_nat lo) l).

(** [needle in hay] for two [str]: substring search. *)
Fixpoint str_contains (hay needle : string) : bool :=
  String.prefix needle hay
  || match hay with
     | EmptyString => false
     | String _ rest => str_contains rest needle
     end.

(** [s.startswith(p)] *)
Definition startswith (s p : string) : bool := String.prefix p s.

End Py.

(* ================================================================= *)
(** ** Shard planner                                                  *)
(* ================================================================= *)

Module Shard.

(** [shard_size = min(shard_size, 5000)] (project.py l.1048, l.1196;
    atlas.py l.233). *)
Definition effective_shard_size (S : Z) : Z := Z.min S 5000.

(** The start points [range(0, len(data), shard_size)] of the submitted
    shards (project.py l.1103, l.1254). *)
Definition shard_starts (N s : Z) : list Z := Py.range 0 N s.

(** [data_shard = data[i : i + shard_size]] in [send_request]. *)
Definition data_shard {A : Type} (data : list A) (s i : Z) : list A :=
  Py.slice data i (i + s).

(** Number of shards, [ceil(N / s)]. *)
Definition shard_count (N s : Z) : Z := (N + s - 1) / s.

End Shard.

(* ================================================================= *)
(** ** Upload coordinator                                             *)
(* ================================================================= *)

Module Upload.

Import Py.

(** *** Responses *)

(** A parsed JSON value, as [response.json()] returns it: [None], [bool],
    a number ([int] or [float]; the coordinator never looks inside one),
    [str], [list], [dict]. *)
Inductive json : Type :=
| JNull
| JBool (b : bool)
| JNum (n : Z)
| JStr (s : string)
| JList (l : list json)
| JDict (d : list (string * json)).

Definition json_is_str (x : string) (j : json) : bool :=
  match j with
  | JStr s => String.eqb s x
  | _ => false
  end.

(** Python's [x in j] for a [str] [x]: substring of a [str], element of a
    [list], key of a [dict]; on [None], a [bool] or a number it raises
    [TypeError] (result [None] here). *)
Definition py_in (x : string) (j : json) : option bool :=
  match j with
  | JStr s => Some (str_contains s x)
  | JList l => Some (existsb (json_is_str x) l)
  | JDict d => Some (existsb (fun kv => String.eqb (fst kv) x) d)
  | JNull | JBool _ | JNum _ => None
  end.

(** The body of a response: text that is not JSON ([response.json()] raises
    [JSONDecodeError]) or a JSON document. *)
Inductive body : Type :=
| NotJson (text : string)
| Json (j : json).

Record response : Type := mkResponse {
  status_code : Z;
  resp_body : body
}.

(** [future.result()]: the response [send_request] returned, or the
    exception it raised (the 8,000,000-byte size guard, a transport error),
    which [result()] raises again in the coordinator. *)
Inductive future_result : Type :=
| Responded (r : response)
| SendRaised (e : exn).

(** The three phrases the coordinator looks for (project.py l.1114-1120). *)
Definition ORG_LIMIT : string := "more datums exceeds your organization limit".
Definition LOCK_HELD : string := "Project transaction lock is held".
Definition ID_CONFLICT : string := "Insert failed due to ID conflict".

Definition MSG_INDEXING : string :=
  "Project is currently indexing and cannot ingest new datums. Try again later.".
Definition MSG_HIGH_LOAD : string :=
  "Atlas is under high load and cannot ingest datums at this time. Please try again later.".
Definition MSG_NOT_ITERABLE : string := "argument is not iterable".
Definition MSG_LEN_OF_INT : string := "object of type 'int' has no len()".
Definition MSG_RANGE_STEP : string := "range() arg 3 must not be zero".

(** *** Coordinator state *)

(** An entry of the [futures] dict: the future (identified by the rank of
    its [executor.submit] call) and the start point it maps to. *)
Record future : Type := mkFuture {
  fut_id : nat;
  start_point : Z
}.

(** The locals of the upload loop.  [pbar] lists the start points of the
    shards for which [pbar.update(1)] was called, most recent first; the
    bar itself shows its length.  [submitted] counts the calls of
    [executor.submit]. *)
Record state : Type := mkState {
  futures : list future;
  failed : Z;
  succeeded : Z;
  errors_504 : Z;
  pbar : list Z;
  submitted : nat
}.

Definition pbar_n (st : state) : nat := length (pbar st).

Definition future_eqb (f g : future) : bool := Nat.eqb (fut_id f) (fut_id g).

(** [del futures[future]] *)
Definition del_future (f : future) (fs : list future) : list future :=
  filter (fun g => negb (future_eqb f g)) fs.

(** How the body of a loop iteration ends: falls through to the next
    iteration, [return]s from the method, or raises. *)
Inductive control : Type :=
| Next (st : state)
| Return (b : bool) (st : state)
| Raise (e : exn) (st : state).

(** [errors_504 / (failed + succeeded + errors_504)].  Python computes this
    quotient of two [int]s as a float; for tallies below [2^53] the
    comparison of the float with [0.25] agrees with the comparison of the
    exact quotient, which is what is modelled. *)
Definition failure_fraction (e f s : Z) : Q :=
  (inject_Z e / inject_Z (f + s + e))%Q.

(** [failure_fraction > 0.25 and errors_504 > shard_size * 3] *)
Definition overloaded (shard_size e f s : Z) : bool :=
  negb (Qle_bool (failure_fraction e f s) (1 # 4)) && (shard_size * 3 <? e).

Section Coordinator.

(** The effective shard size of the call. *)
Variable shard_size : Z.

(** What the future with a given submission rank and start point resolves
    to: the behaviour of the remote service during the call. *)
Variable transport : nat -> Z -> future_result.

Definition result_of (f : future) : future_result :=
  transport (fut_id f) (start_point f).

(** [new_submission = executor.submit(send_request, start_point);
     futures[new_submission] = start_point] *)
Definition resubmit (start : Z) (st : state) : state :=
  mkState (futures st ++ [mkFuture (submitted st) start])
          (failed st) (succeeded st) (errors_504 st) (pbar st)
          (S (submitted st)).

Definition remove_completed (f : future) (st : state) : state :=
  mkState (del_future f (futures st))
          (failed st) (succeeded st) (errors_504 st) (pbar st) (submitted st).

Definition count_failed (f : future) (st : state) : state :=
  mkState (futures st) (failed st + shard_size) (succeeded st)
          (errors_504 st) (start_point f :: pbar st) (submitted st).

Definition count_succeeded (f : future) (st : state) : state :=
  mkState (futures st) (failed st) (succeeded st + shard_size)
          (errors_504 st) (start_point f :: pbar st) (submitted st).

Definition count_504 (st : state) : state :=
  mkState (futures st) (failed st) (succeeded st)
          (errors_504 st + shard_size) (pbar st) (submitted st).

(** The [try] block (project.py l.1113-1121, l.1264-1272) once
    [response.json()] has returned [j]. *)
Definition inspect_json (j : json) (f : future) (st : state) : control :=
  match py_in ORG_LIMIT j with
  | None => Raise (TypeError MSG_NOT_ITERABLE) st
  | Some true => Return false st
  | Some false =>
    match py_in LOCK_HELD j with
    | None => Raise (TypeError MSG_NOT_ITERABLE) st
    | Some true => Raise (PyException MSG_INDEXING) st
    | Some false =>
      match py_in ID_CONFLICT j with
      | None => Raise (TypeError MSG_NOT_ITERABLE) st
      | Some true => Next st                     (* [continue]: no [del] *)
      | Some false => Next (remove_completed f st)
      end
    end
  end.

(** The [except JSONDecodeError] block (l.1122-1147, l.1273-1298). *)
Definition inspect_status (status : Z) (f : future) (st : state) : control :=
  if status =? 413 then
    Next (remove_completed f (count_failed f st))
  else if status =? 504 then
    let st1 := count_504 st in
    if failed st1 + succeeded st1 + errors_504 st1 =? 0 then
      Raise ZeroDivisionError st1
    else if overloaded shard_size (errors_504 st1) (failed st1) (succeeded st1)
    then Raise (RuntimeError MSG_HIGH_LOAD) st1
    else Next (remove_completed f (resubmit (start_point f) st1))
  else
    Next (remove_completed f (count_failed f st)).

(** The body of [for future in done] (l.1109-1155, l.1260-1306). *)
Definition process_future (st : state) (f : future) : control :=
  match result_of f with
  | SendRaised e => Raise e st
  | Responded r =>
    if negb (status_code r =? 200) then
      match resp_body r with
      | Json j => inspect_json j f st
      | NotJson _ => inspect_status (status_code r) f st
      end
    else
      Next (remove_completed f (count_succeeded f st))
  end.

(** [for future in done: ...] *)
Fixpoint process_done (done : list future) (st : state) : control :=
  match done with
  | [] => Next st
  | f :: rest =>
    match process_future st f with
    | Next st' => process_done rest st'
    | stop => stop
    end
  end.

(** What [concurrent.futures.wait(futures, FIRST_COMPLETED)] hands back at
    the [k]-th pass of the [while] loop: the completed futures, in the
    order in which the [for] loop will meet them. *)
Definition scheduler : Type := nat -> list future -> list future.

Variable sched : scheduler.

(** How a call ends.  [Diverged] is the loop still running when the fuel
    is spent. *)
Inductive outcome : Type :=
| Returned (b : bool) (st : state)
| Raised (e : exn) (st : state)
| LoopDone (st : state)
| Diverged (st : state).

(** [while futures: done, _ = wait(futures, ...); for future in done: ...]
    starting at pass [k]. *)
Fixpoint upload_loop (fuel : nat) (k : nat) (st : state) : outcome :=
  match futures st with
  | [] => LoopDone st
  | _ :: _ =>
    match fuel with
    | O => Diverged st
    | S fuel' =>
      match process_done (sched k (futures st)) st with
      | Next st' => upload_loop fuel' (S k) st'
      | Return b st' => Returned b st'
      | Raise e st' => Raised e st'
      end
    end
  end.

End Coordinator.

(** [wait] returns at least one future, each once, all of them from
    [futures]. *)
Definition valid_scheduler (sched : scheduler) : Prop :=
  forall k fs, fs <> [] -> NoDup fs ->
    sched k fs <> [] /\ NoDup (sched k fs) /\ incl (sched k fs) fs.

(** Two schedules: every future in the dict has completed at each [wait];
    one future, the oldest, completes at a time. *)
Definition wait_all : scheduler := fun _ fs => fs.
Definition wait_first : scheduler := fun _ fs => firstn 1 fs.

(** [{executor.submit(send_request, i): i for i in range(0, len(data),
    shard_size)}] with the tallies at zero. *)
Fixpoint submit_all (rank : nat) (starts : list Z) : list future :=
  match starts with
  | [] => []
  | i :: rest => mkFuture rank i :: submit_all (S rank) rest
  end.

Definition initial_state (N s : Z) : state :=
  let starts := Shard.shard_starts N s in
  mkState (submit_all 0 starts) 0 0 0 [] (length starts).

(** The two methods of [AtlasProject] share the loop and differ in the
    warning after it. *)
Inductive method : Type := AddText | AddEmbeddings.

(** The code after the [with] block (l.1157-1169, l.1308-1320).
    [add_text] formats its warning with [len(failed)], [failed] being an
    [int]; [add_embeddings] formats [failed] itself. *)
Definition finish (m : method) (st : state) : outcome :=
  if negb (failed st =? 0) then
    match m with
    | AddText => Raised (TypeError MSG_LEN_OF_INT) st
    | AddEmbeddings => Returned true st
    end
  else Returned true st.

(** The upload part of [AtlasProject.add_text] / [add_embeddings]: from
    [shard_size = min(shard_size, 5000)] on, for [N = len(data)] validated
    records.  [own_pbar] says that the caller passed [pbar=None], in which
    case [tqdm(total=N // shard_size)] is evaluated first. *)
Definition upload (m : method) (N S : Z) (own_pbar : bool)
    (transport : nat -> Z -> future_result) (sched : scheduler)
    (fuel : nat) : outcome :=
  let shard_size := Shard.effective_shard_size S in
  let st0 := initial_state N shard_size in
  if shard_size =? 0 then
    if own_pbar then Raised ZeroDivisionError (mkState [] 0 0 0 [] 0)
    else Raised (ValueError MSG_RANGE_STEP) (mkState [] 0 0 0 [] 0)
  else
    match upload_loop shard_size transport sched fuel 0 st0 with
    | LoopDone st => finish m st
    | other => other
    end.

(** *** Vocabulary of the statements *)

(** Entries of the [futures] dict are distinct futures, all of them
    submitted earlier. *)
Definition wf (st : state) : Prop :=
  NoDup (map fut_id (futures st))
  /\ Forall (fun f => (fut_id f < submitted st)%nat) (futures st).

(** The state a pass ends in, however it ends. *)
Definition state_of (c : control) : state :=
  match c with
  | Next st | Return _ st | Raise _ st => st
  end.

(** A response the coordinator takes as an ID conflict: not a 200, a JSON
    body on which the first two tests are negative and the third is
    positive. *)
Definition reports_conflict (r : future_result) : Prop :=
  exists c j,
    r = Responded (mkResponse c (Json j))
    /\ c <> 200
    /\ py_in ORG_LIMIT j = Some false
    /\ py_in LOCK_HELD j = Some false
    /\ py_in ID_CONFLICT j = Some true.

(** A response the coordinator takes as the organization limit: not a
    200, a JSON body on which the first membership test is positive. *)
Definition reports_limit (r : future_result) : Prop :=
  exists c j,
    r = Responded (mkResponse c (Json j))
    /\ c <> 200
    /\ py_in ORG_LIMIT j = Some true.

(** A response that ends its shard with a tally: a 200, or a status other
    than 200 and 504 with a body that is not JSON. *)
Definition settles (r : future_result) : Prop :=
  (exists b, r = Responded (mkResponse 200 b))
  \/ (exists c t, r = Responded (mkResponse c (NotJson t))
                  /\ c <> 200 /\ c <> 504).

(** A response that ends its shard as a permanent failure. *)
Definition permanent_failure (r : future_result) : Prop :=
  exists c t, r = Responded (mkResponse c (NotJson t)) /\ c <> 200 /\ c <> 504.

(** No response that is not a 200 has a JSON body. *)
Definition no_json_failures (tr : nat -> Z -> future_result) : Prop :=
  forall id p c j, tr id p = Responded (mkResponse c (Json j)) -> c = 200.

(** The progress bar and the dict together account for every planned
    shard once. *)
Definition progress_inv (starts : list Z) (st : state) : Prop :=
  forall p,
    (count_occ Z.eq_dec (pbar st) p
     + count_occ Z.eq_dec (map start_point (futures st)) p)%nat
    = count_occ Z.eq_dec starts p.





(** *** Transports used in the examples *)

Definition always_conflict : nat -> Z -> future_result :=
  fun _ _ => Responded (mkResponse 409 (Json (JStr ID_CONFLICT))).

Definition timeout_plain : nat -> Z -> future_result :=
  fun _ _ => Responded (mkResponse 504 (NotJson "<html>504 Gateway Time-out</html>")).

Definition timeout_json : nat -> Z -> future_result :=
  fun _ _ => Responded
    (mkResponse 504 (Json (JDict [("detail", JStr "Gateway Timeout")]))).

Definition server_error_json : nat -> Z -> future_result :=
  fun _ _ => Responded
    (mkResponse 500 (Json (JDict [("detail", JStr "Internal Server Error")]))).

(** The shard at start point 1000 is answered 500 with a JSON body, the
    others 200. *)
Definition json_error_at_1000 : nat -> Z -> future_result :=
  fun _ p =>
    if p =? 1000 then
      Responded
        (mkResponse 500 (Json (JDict [("detail", JStr "Internal Server Error")])))
    else Responded (mkResponse 200 (NotJson "")).

Definition two_timeouts_then_ok : nat -> Z -> future_result :=
  fun id _ =>
    if (id <? 2)%nat then Responded (mkResponse 504 (NotJson "Gateway Time-out"))
    else Responded (mkResponse 200 (NotJson "")).

Definition limit_reached : nat -> Z -> future_result :=
  fun _ _ => Responded
    (mkResponse 403 (Json (JStr "Adding 5 more datums exceeds your organization limit"))).

Definition limit_plain_text : nat -> Z -> future_result :=
  fun _ _ => Responded
    (mkResponse 403 (NotJson "Adding 5 more datums exceeds your organization limit")).

Definition payload_too_large : nat -> Z -> future_result :=
  fun _ _ => Responded (mkResponse 413 (NotJson "Request Entity Too Large")).

End Upload.

(* ================================================================= *)
(** ** The older client: [AtlasClient.add_embeddings] (atlas.py)      *)
(* ================================================================= *)

Module Legacy.

Import Py Upload.

(** The locals of the loop of atlas.py l.246-265: [failed] is the list of
    the start points of the failed shards, most recent first. *)
Record state : Type := mkState {
  failed : list Z;
  pbar : list Z
}.

Inductive control : Type :=
| Next (st : state)
| Return (b : bool) (st : state)
| Raise (e : exn) (st : state).

Section Client.

Variable transport : nat -> Z -> future_result.

(** The body of [for future in as_completed(futures)] (l.258-265);
    [response.json()] is not guarded here. *)
Definition process_future (st : state) (f : future) : control :=
  match result_of transport f with
  | SendRaised e => Raise e st
  | Responded r =>
    let st1 := mkState (failed st) (start_point f :: pbar st) in
    if negb (status_code r =? 200) then
      match resp_body r with
      | NotJson _ => Raise JSONDecodeError st1
      | Json j =>
        match py_in ORG_LIMIT j with
        | None => Raise (TypeError MSG_NOT_ITERABLE) st1
        | Some true => Return false st1
        | Some false => Next (mkState (start_point f :: failed st1) (pbar st1))
        end
      end
    else Next st1
  end.

Fixpoint process_all (completed : list future) (st : state) : control :=
  match completed with
  | [] => Next st
  | f :: rest =>
    match process_future st f with
    | Next st' => process_all rest st'
    | stop => stop
    end
  end.

End Client.

(** [AtlasClient.add_embeddings] for [N = len(data)]; [completion] is the
    order in which [as_completed] yields the submitted futures. *)
Definition add_embeddings (N S : Z) (own_pbar : bool)
    (transport : nat -> Z -> future_result)
    (completion : list future -> list future) : control :=
  let shard_size := Shard.effective_shard_size S in
  if shard_size =? 0 then
    if own_pbar then Raise ZeroDivisionError (mkState [] [])
    else Raise (ValueError MSG_RANGE_STEP) (mkState [] [])
  else
    let futures := submit_all 0 (Shard.shard_starts N shard_size) in
    match process_all transport (completion futures) (mkState [] []) with
    | Next st => Return true st
    | stop => stop
    end.

End Legacy.

(* ================================================================= *)
(** ** Metadata validator                                             *)
(* ================================================================= *)

Module Validator.

Import Py.

(** A metadata value.  A [float] is kept as the text [str()] prints for
    it, the only way the validator looks at one; [VOther] is any value of
    another type ([None], a nested [list] or [dict], ...), again with its
    [str()]. *)
Inductive value : Type :=
| VStr (s : string)
| VInt (z : Z)
| VBool (b : bool)
| VFloat (repr : string)
| VOther (repr : string).

(** [str(v)] *)
Definition py_str (v : value) : string :=
  match v with
  | VStr s => s
  | VInt z => NilZero.string_of_int (Z.to_int z)
  | VBool true => "True"
  | VBool false => "False"
  | VFloat r => r
  | VOther r => r
  end.

(** [isinstance(v, (str, float, int))]; [bool] is a subclass of [int]. *)
Definition is_scalar (v : value) : bool :=
  match v with
  | VOther _ => false
  | _ => true
  end.

(** [isinstance(v, str) and len(v) == 0] *)
Definition is_empty_str (v : value) : bool :=
  match v with
  | VStr s => Nat.eqb (String.length s) 0
  | _ => false
  end.

(** A datum: a [dict] with [str] keys, in insertion order. *)
Definition datum : Type := list (string * value).

Definition keys (d : datum) : list string := map fst d.

(** [k in d] *)
Definition dict_mem (k : string) (d : datum) : bool :=
  existsb (String.eqb k) (keys d).

(** [d[k]]; [None] stands for [KeyError]. *)
Fixpoint dict_get (k : string) (d : datum) : option value :=
  match d with
  | [] => None
  | (k', v) :: rest => if String.eqb k k' then Some v else dict_get k rest
  end.

(** [d[k] = v]: overwrite in place, or append a new key. *)
Fixpoint dict_set (k : string) (v : value) (d : datum) : datum :=
  match d with
  | [] => [(k, v)]
  | (k', v') :: rest =>
    if String.eqb k k' then (k', v) :: rest else (k', v') :: dict_set k v rest
  end.

(** [sorted(list(d.keys()))] *)
Fixpoint insert_sorted (k : string) (l : list string) : list string :=
  match l with
  | [] => [k]
  | x :: rest => if String.leb k x then k :: l else x :: insert_sorted k rest
  end.

Fixpoint sorted (l : list string) : list string :=
  match l with
  | [] => []
  | x :: rest => insert_sorted x (sorted rest)
  end.

Definition list_string_eqb (a b : list string) : bool :=
  if list_eq_dec String.string_dec a b then true else false.

(** *** [str(uuid.uuid4())] *)

Definition hex_digit (d : Z) : ascii :=
  if d <? 10 then ascii_of_nat (48 + Z.to_nat d)
  else ascii_of_nat (87 + Z.to_nat d).

(** ['%0nx' % z] for [0 <= z < 16^n]: [n] hexadecimal digits, most
    significant first. *)
Fixpoint hex (n : nat) (z : Z) : string :=
  match n with
  | O => EmptyString
  | S n' => String (hex_digit ((z / 16 ^ Z.of_nat n') mod 16)) (hex n' z)
  end.

(** [UUID(bytes=os.urandom(16), version=4)]: the variant bits are set to
    RFC 4122 and the version nibble to 4. *)
Definition uuid4_int (random : Z) : Z :=
  let i0 := random mod 2 ^ 128 in
  let i1 := Z.land i0 (Z.lnot (Z.shiftl 49152 48)) in
  let i2 := Z.lor i1 (Z.shiftl 32768 48) in
  let i3 := Z.land i2 (Z.lnot (Z.shiftl 61440 64)) in
  Z.lor i3 (Z.shiftl 4 76).

(** [str(UUID)]: the 32 hex digits in groups 8-4-4-4-12. *)
Definition uuid_str (i : Z) : string :=
  let h := hex 32 i in
  (substring 0 8 h ++ "-" ++ substring 8 4 h ++ "-" ++ substring 12 4 h
   ++ "-" ++ substring 16 4 h ++ "-" ++ substring 20 12 h)%string.

Definition uuid4 (random : Z) : string := uuid_str (uuid4_int random).

(** The bits of the 16 random bytes that [uuid4] keeps: all 128 but the
    two variant bits (62, 63) and the four version bits (76 to 79). *)
Definition random_bit (n : Z) : bool :=
  (0 <=? n) && (n <? 128)
  && negb ((62 <=? n) && (n <=? 63))
  && negb ((76 <=? n) && (n <=? 79)).

(** Two draws that differ in a bit that [uuid4] keeps. *)
Definition draws_differ (r1 r2 : Z) : Prop :=
  exists n, random_bit n = true /\ Z.testbit r1 n <> Z.testbit r2 n.

(** *** The validator *)

(** What the validator reads of the project: [project.id_field] and
    [project.modality]. *)
Record project : Type := mkProject {
  id_field : string;
  modality : string
}.

Definition MSG_ID_TOO_LONG : string := "id_field is greater than 36 characters".
Definition MSG_MISSING_ID : string := "does not contain your specified id_field".
Definition MSG_KEY_SETS : string := "All metadata must have the same keys".
Definition MSG_UNDERSCORE : string := "Metadata fields cannot start with _".
Definition MSG_TIMESTAMP : string := "timestamp key cannot be parsed as a ISO8601 string".
Definition MSG_EMPTY : string := "Datum had an empty string for key".
Definition MSG_FLAT : string := "Metadata sent to Atlas must be a flat dictionary".

(** The caller's records live in a store of [dict] objects; [data] is the
    list of their addresses, so that a [dict] listed twice is one object. *)
Definition store : Type := nat -> datum.

Definition store_set (h : store) (a : nat) (d : datum) : store :=
  fun b => if Nat.eqb b a then d else h b.

(** The locals of the loop over [data], with the store and the number of
    identifiers drawn so far. *)
Record vstate : Type := mkVState {
  heap : store;
  metadata_keys : option (list string);
  metadata_date_keys : list string;
  drawn : nat
}.

Section Validate.

(** [ATLAS_DEFAULT_ID_FIELD], imported from [nomic/settings.py]. *)
Variable ATLAS_DEFAULT_ID_FIELD : string.

(** Whether [date.fromisoformat(s)] accepts [s] (it raises [ValueError]
    otherwise). *)
Variable fromisoformat : string -> bool.

(** The 16 random bytes [uuid.uuid4()] draws at its [n]-th call, as an
    integer. *)
Variable urandom : nat -> Z.

Variable proj : project.
Variable replace_empty_string_values_with_string_null : bool.

(** l.190-199: the id check.  In the last branch the message of the
    [ValueError] is an f-string that evaluates [datum[project.id_field]]
    first: the [KeyError] of that look-up, if any, is what is raised. *)
Definition check_id (d : datum) (n : nat) : datum * nat * option exn :=
  if dict_mem (id_field proj) d then
    match dict_get (id_field proj) d with
    | None => (d, n, Some (KeyError (id_field proj)))
    | Some v =>
      if (36 <? String.length (py_str v))%nat
      then (d, n, Some (ValueError MSG_ID_TOO_LONG))
      else (d, n, None)
    end
  else if String.eqb (id_field proj) ATLAS_DEFAULT_ID_FIELD then
    (dict_set (id_field proj) (VStr (uuid4 (urandom n))) d, S n, None)
  else
    match dict_get (id_field proj) d with
    | None => (d, n, Some (KeyError (id_field proj)))
    | Some _ => (d, n, Some (ValueError MSG_MISSING_ID))
    end.

(** l.210-215: the keys of the first datum whose value reads as a date. *)
Definition date_keys_of (d : datum) (ks : list string) : list string :=
  filter (fun k => match dict_get k d with
                   | Some v => fromisoformat (py_str v)
                   | None => false
                   end) ks.

(** l.225-247: the checks on one key; the datum may be updated. *)
Definition check_key (date_keys : list string) (key : string) (d : datum)
  : datum * option exn :=
  if startswith key "_" then (d, Some (ValueError MSG_UNDERSCORE)) else
  match dict_get key d with
  | None => (d, Some (KeyError key))
  | Some v =>
    if existsb (String.eqb key) date_keys && negb (fromisoformat (py_str v))
    then (d, Some (ValueError MSG_TIMESTAMP))
    else
      let replaced :=
        if String.eqb (modality proj) "text" && is_empty_str v then
          if replace_empty_string_values_with_string_null
          then inl (dict_set key (VStr "null") d)
          else inr (ValueError MSG_EMPTY)
        else inl d in
      match replaced with
      | inr e => (d, Some e)
      | inl d' =>
        match dict_get key d' with
        | None => (d', Some (KeyError key))
        | Some v' =>
          if negb (is_scalar v') then (d', Some (PyException MSG_FLAT))
          else (d', None)
        end
      end
  end.

(** [for key in datum: ...] over the keys the datum has when the loop
    starts. *)
Fixpoint check_keys (date_keys : list string) (ks : list string) (d : datum)
  : datum * option exn :=
  match ks with
  | [] => (d, None)
  | k :: rest =>
    match check_key date_keys k d with
    | (d', None) => check_keys date_keys rest d'
    | stop => stop
    end
  end.

(** One pass of [for datum in data] on the object at address [a]. *)
Definition validate_datum (a : nat) (vs : vstate) : vstate * option exn :=
  let d0 := heap vs a in
  match check_id d0 (drawn vs) with
  | (d1, n1, Some e) =>
    (mkVState (store_set (heap vs) a d1) (metadata_keys vs)
              (metadata_date_keys vs) n1, Some e)
  | (d1, n1, None) =>
    let mk := match metadata_keys vs with
              | None => sorted (keys d1)
              | Some ks => ks
              end in
    let dk := match metadata_keys vs with
              | None => metadata_date_keys vs ++ date_keys_of d1 mk
              | Some _ => metadata_date_keys vs
              end in
    if negb (list_string_eqb (sorted (keys d1)) mk) then
      (mkVState (store_set (heap vs) a d1) (Some mk) dk n1,
       Some (ValueError MSG_KEY_SETS))
    else
      let '(d2, r) := check_keys dk (keys d1) d1 in
      (mkVState (store_set (heap vs) a d2) (Some mk) dk n1, r)
  end.

(** [for datum in data: ...]; on an exception, the position of the datum
    at which it was raised is reported with it. *)
Fixpoint validate_from (pos : nat) (data : list nat) (vs : vstate)
  : vstate * option (nat * exn) :=
  match data with
  | [] => (vs, None)
  | a :: rest =>
    match validate_datum a vs with
    | (vs', None) => validate_from (S pos) rest vs'
    | (vs', Some e) => (vs', Some (pos, e))
    end
  end.

(** [_validate_and_correct_user_supplied_metadata(data, project, flag)]
    on the store [h]. *)
Definition validate_and_correct (h : store) (data : list nat)
  : vstate * option (nat * exn) :=
  validate_from 0 data (mkVState h None [] 0).

End Validate.

(** *** Vocabulary of the statements *)

Section Changes.

Variable DEFAULT_ID : string.
Variable urandom : nat -> Z.
Variable proj : project.
Variable replace : bool.

(** The only ways the validator changes what a key maps to: an empty
    string becomes ["null"] (text projects, flag set); the absent default
    id field receives a generated identifier. *)
Definition changed_to (key : string) (o n : option value) : Prop :=
  n = o
  \/ (o = Some (VStr "") /\ n = Some (VStr "null")
      /\ modality proj = "text" /\ replace = true)
  \/ (o = None /\ key = id_field proj /\ id_field proj = DEFAULT_ID
      /\ exists i, n = Some (VStr (uuid4 (urandom i)))).

Definition evolves (d d' : datum) : Prop :=
  forall key, changed_to key (dict_get key d) (dict_get key d').

Definition heap_evolves (h h' : store) : Prop :=
  forall b, evolves (h b) (h' b).

(** A datum that has passed validation: it has the id field and, in a
    text project, no empty string. *)
Definition settled (d : datum) : Prop :=
  dict_mem (id_field proj) d = true
  /\ (modality proj = "text" ->
      forall key v, dict_get key d = Some v -> is_empty_str v = false).

Definition nonempty_at (d : datum) (key : string) : Prop :=
  forall v, dict_get key d = Some v -> is_empty_str v = false.

(** Every record that lacked the id field in [h] and has it in [vs] holds
    the identifier of a draw of its own: [who i] is the address of the
    record that received the [i]-th draw. *)
Definition drawn_for (h : store) (vs : vstate) (who : nat -> nat) : Prop :=
  forall a, dict_mem (id_field proj) (h a) = false ->
            dict_mem (id_field proj) (heap vs a) = true ->
    exists i, (i < drawn vs)%nat /\ who i = a
              /\ dict_get (id_field proj) (heap vs a)
                 = Some (VStr (uuid4 (urandom i))).

End Changes.

(** *** A worked batch *)

(** Three records of a text project whose id field is the default one:
    none has an id, the second has an empty string, the third lacks a key
    of the first. *)
Definition example_store : store :=
  fun a =>
    match a with
    | 0%nat => [("text", VStr "hello"); ("date", VStr "2020-01-01")]
    | 1%nat => [("text", VStr ""); ("date", VStr "2020-01-02")]
    | _ => [("text", VStr "x")]
    end.

Definition example_project : project := mkProject "id_" "text".

(** A random source: the [n]-th draw. *)
Definition example_urandom (n : nat) : Z :=
  1512366075204170929049582354406559215 + 4294967296 * Z.of_nat n.

(** Stands for [date.fromisoformat]: accepts the ten-character strings. *)
Definition example_fromisoformat (s : string) : bool :=
  Nat.eqb (String.length s) 10.

Definition example_validation : vstate * option (nat * exn) :=
  validate_and_correct "id_" example_fromisoformat Z.of_nat example_project
    true example_store [0%nat; 1%nat; 2%nat].

End Validator.

(* ================================================================= *)
(** ** Project facade: the two public methods                         *)
(* ================================================================= *)

Module Facade.

Import Py.

Definition MSG_MODALITY : string := "Cannot add data to project with this modality".

Definition modality_of (m : Upload.method) : string :=
  match m with
  | Upload.AddText => "text"
  | Upload.AddEmbeddings => "embedding"
  end.

Definition nothing_sent : Upload.state := Upload.mkState [] 0 0 0 [] 0.

(** [AtlasProject.add_text] (l.1025-1169) and [AtlasProject.add_embeddings]
    (l.1171-1320): the modality and lock checks on the project state
    fetched for the call, the validation of [data], then the upload.  The
    store is returned as the caller finds it afterwards. *)
Definition add (m : Upload.method)
    (ATLAS_DEFAULT_ID_FIELD : string) (fromisoformat : string -> bool)
    (urandom : nat -> Z)
    (proj : Validator.project) (insert_update_delete_lock : bool)
    (h : Validator.store) (data : list nat) (S : Z)
    (replace_empty_string_values_with_string_null : bool) (own_pbar : bool)
    (transport : nat -> Z -> Upload.future_result)
    (sched : Upload.scheduler) (fuel : nat)
  : Validator.store * Upload.outcome :=
  if negb (String.eqb (Validator.modality proj) (modality_of m)) then
    (h, Upload.Raised (ValueError MSG_MODALITY) nothing_sent)
  else if insert_update_delete_lock then
    (h, Upload.Raised (PyException Upload.MSG_INDEXING) nothing_sent)
  else
    match Validator.validate_and_correct ATLAS_DEFAULT_ID_FIELD fromisoformat
            urandom proj replace_empty_string_values_with_string_null h data
    with
    | (vs, Some (_, e)) => (Validator.heap vs, Upload.Raised e nothing_sent)
    | (vs, None) =>
      (Validator.heap vs,
       Upload.upload m (Z.of_nat (length data)) S own_pbar transport sched fuel)
    end.

End Facade.

(* ================================================================= *)
(** ** What a call leaves behind                                      *)
(* ================================================================= *)

Module Outcome.

Import Py Upload.

(** The locals of the loop when the call ends, however it ends. *)
Definition final_state (o : outcome) : state :=
  match o with
  | Returned _ st | Raised _ st | LoopDone st | Diverged st => st
  end.

(** [tqdm(total=int(len(data)) // shard_size)] (project.py l.1098,
    l.1249): the total the progress bar of the call is created with. *)
Definition pbar_total (N S : Z) : Z := N / Shard.effective_shard_size S.

(** A response the coordinator takes as a held transaction lock: not a
    200, a JSON body on which the first membership test is negative and
    the second positive. *)
Definition reports_lock (r : future_result) : Prop :=
  exists c j,
    r = Responded (mkResponse c (Json j))
    /\ c <> 200
    /\ py_in ORG_LIMIT j = Some false
    /\ py_in LOCK_HELD j = Some true.

Definition lock_held : nat -> Z -> future_result :=
  fun _ _ => Responded
    (mkResponse 400 (Json (JStr "Project transaction lock is held by an index build"))).

(** Answers 200 to the shards that start before record 2000 and 413 to
    the others. *)
Definition fails_from_2000 : nat -> Z -> future_result :=
  fun _ p =>
    if p <? 2000 then Responded (mkResponse 200 (Json JNull))
    else Responded (mkResponse 413 (NotJson "Request Entity Too Large")).

End Outcome.

(* ================================================================= *)
(** ** Vocabulary for the older client                                *)
(* ================================================================= *)

Module LegacyTerms.

Import Py Upload.

(** Whether the future resolved to a response with status 200. *)
Definition answered_ok (tr : nat -> Z -> future_result) (f : future) : bool :=
  match result_of tr f with
  | Responded r => status_code r =? 200
  | SendRaised _ => false
  end.

(** A response the loop of [AtlasClient.add_embeddings] gets past: a 200,
    or a non-200 whose JSON body does not pass the organization-limit
    test. *)
Definition gets_past (r : future_result) : Prop :=
  exists c b,
    r = Responded (mkResponse c b)
    /\ (c = 200 \/ exists j, b = Json j /\ py_in ORG_LIMIT j = Some false).

(** Answers 200 to the shards that start before record 2000 and a 500
    with a JSON body to the others. *)
Definition errors_from_2000 : nat -> Z -> future_result :=
  fun _ p =>
    if p <? 2000 then Responded (mkResponse 200 (Json JNull))
    else Responded (mkResponse 500 (Json (JDict [("detail", JStr "boom")]))).

End LegacyTerms.

(* ================================================================= *)
(** ** Vocabulary for the validator's guarantees                      *)
(* ================================================================= *)

Module ValidatorTerms.

Import Py Validator.

Section Terms.

Variable DEFAULT_ID : string.
Variable proj : project.

(** What every record of an accepted batch looks like: its sorted key
    list is the one of the batch; it has the id field, printed in at most
    36 characters; no key starts with an underscore; every value is a
    [str], [int] or [float]; in a text project no value is the empty
    string. *)
Definition accepted (batch_keys : list string) (d : datum) : Prop :=
  sorted (keys d) = batch_keys
  /\ (exists v, dict_get (id_field proj) d = Some v
                /\ (String.length (py_str v) <= 36)%nat)
  /\ (forall key, In key (keys d) -> startswith key "_" = false)
  /\ (forall key v, dict_get key d = Some v -> is_scalar v = true)
  /\ (modality proj = "text" ->
      forall key v, dict_get key d = Some v -> is_empty_str v = false).

(** How the key list of a record may differ after validation: not at
    all, or by the default id field appended to a record that lacked it. *)
Definition keys_kept (d d' : datum) : Prop :=
  keys d' = keys d
  \/ (dict_mem (id_field proj) d = false
      /\ id_field proj = DEFAULT_ID
      /\ keys d' = keys d ++ [id_field proj]).

End Terms.

(** Two records of an embedding project with their own id field. *)
Definition embedding_store : store :=
  fun a =>
    match a with
    | 0%nat => [("doc_id", VInt 1); ("title", VStr "")]
    | _ => [("title", VStr "b"); ("doc_id", VInt 2)]
    end.

End ValidatorTerms.

(* ================================================================= *)
(** ** Nearest-neighbour queries: the retry loop                      *)
(* ================================================================= *)

Module Neighbors.

(** How [AtlasProjection.get_nearest_neighbors] (project.py l.478-515)
    ends: with [response.json()] of one of its requests (numbered from 0),
    with the [ValueError] of a locked project or of a query array that is
    not 2-dimensional, or with the [AssertionError] after the loop. *)
Inductive result : Type :=
| Answer (request : nat)
| LockedError
| ShapeError
| NoResponse.

(** [while status != 200 and retries < 10: response = requests.post(...);
    status = response.status_code; retries += 1], where [respond n] is the
    status of request number [n].  The loop makes at most ten passes, for
    which the fuel provides. *)
Fixpoint retry_loop (fuel : nat) (respond : nat -> Z) (status : Z)
    (retries : nat) : Z * nat :=
  match fuel with
  | O => (status, retries)
  | S fuel' =>
    if negb (status =? 200) && (retries <? 10)%nat
    then retry_loop fuel' respond (respond retries) (S retries)
    else (status, retries)
  end.

(** The method, with the number of requests it has sent. *)
Definition get_nearest_neighbors (is_locked : bool) (ndim : Z)
    (respond : nat -> Z) : result * nat :=
  if is_locked then (LockedError, 0%nat)
  else if negb (ndim =? 2) then (ShapeError, 0%nat)
  else
    let '(status, retries) := retry_loop 10 respond 0 0 in
    if (retries =? 10)%nat then (NoResponse, retries)
    else (Answer (retries - 1), retries).

(** The service answers 503 to the first [k] requests and 200 from then
    on. *)
Definition ready_after (k : nat) : nat -> Z :=
  fun n => if (n <? k)%nat then 503 else 200.

End Neighbors.

(* ================================================================= *)
(** ** Tags: grouping datum ids by label                              *)
(* ================================================================= *)

Module Tags.

(** An entry of the [results] of [/v1/project/tag/read/all_by_datum]. *)
Record item : Type := mkItem {
  datum_id : string;
  labels : list string
}.

(** [label_to_datums]: a [dict] from label to list of datum ids, in
    insertion order. *)
Definition table : Type := list (string * list string).

Fixpoint lookup (label : string) (t : table) : option (list string) :=
  match t with
  | [] => None
  | (l, ids) :: rest => if String.eqb label l then Some ids else lookup label rest
  end.

(** [if label not in t: t[label] = []] followed by
    [t[label].append(id)] *)
Fixpoint append_to (label : string) (id : string) (t : table) : table :=
  match t with
  | [] => [(label, [id])]
  | (l, ids) :: rest =>
    if String.eqb label l then (l, ids ++ [id]) :: rest
    else (l, ids) :: append_to label id rest
  end.

(** [for label in item['labels']: ...] *)
Definition add_item (t : table) (it : item) : table :=
  fold_left (fun acc label => append_to label (datum_id it) acc) (labels it) t.

(** [AtlasProject.get_tags] (project.py l.1394-1416) on the [results] of
    the response. *)
Definition get_tags (results : list item) : table :=
  fold_left add_item results [].

(** The datum ids of the items that carry [label], in order, one for each
    time the label is listed. *)
Definition tagged_with (label : string) (results : list item) : list string :=
  flat_map (fun it =>
              map (fun _ => datum_id it)
                  (filter (String.eqb label) (labels it)))
           results.

(** A table entry after more ids have been appended under its label. *)
Definition extend (o : option (list string)) (l : list string)
  : option (list string) :=
  match o, l with
  | None, [] => None
  | None, _ => Some l
  | Some ids, _ => Some (ids ++ l)
  end.

End Tags.

(* ================================================================= *)
(** ** Maps of a project: [indices] and [get_map]                     *)
(* ================================================================= *)

Module Maps.

(** An entry of [meta['atlas_indices']]: the id and name of the index and
    the ids of its projections. *)
Record raw_index : Type := mkRawIndex {
  raw_id : string;
  raw_name : string;
  raw_projections : list string
}.

(** [AtlasProjection]: its id, the id of its index, its name. *)
Record projection : Type := mkProjection {
  projection_id : string;
  atlas_index_id : string;
  projection_name : string
}.

(** [AtlasIndex] *)
Record index : Type := mkIndex {
  index_id : string;
  index_name : string;
  projections : list projection
}.

(** The [indices] property (project.py l.683-697). *)
Definition indices (meta : list raw_index) : list index :=
  map (fun r =>
         mkIndex (raw_id r) (raw_name r)
                 (map (fun p => mkProjection p (raw_id r) (raw_name r))
                      (raw_projections r)))
      meta.

Inductive error : Type :=
| NoMapUnderIndex
| NoIndexWithId
| NoProjectionWithId
| NoMaps
| NameNeeded
| NoMapNamed
| IndexError.

(** [for index in indices: if index.id == atlas_index_id: ...] *)
Fixpoint by_index_id (id : string) (l : list index) : projection + error :=
  match l with
  | [] => inr NoIndexWithId
  | i :: rest =>
    if String.eqb (index_id i) id then
      match projections i with
      | [] => inr NoMapUnderIndex
      | p :: _ => inl p
      end
    else by_index_id id rest
  end.

(** [for index in indices: for projection in index.projections:
     if projection.id == projection_id: return projection] *)
Definition by_projection_id (id : string) (l : list index) : projection + error :=
  match find (fun p => String.eqb (projection_id p) id)
             (flat_map projections l) with
  | Some p => inl p
  | None => inr NoProjectionWithId
  end.

(** [for index in indices: if index.name == name: return
    index.projections[0]]; a [name] of [None] equals no index name. *)
Fixpoint by_name (name : option string) (l : list index) : projection + error :=
  match l with
  | [] => inr NoMapNamed
  | i :: rest =>
    if match name with
       | Some n => String.eqb (index_name i) n
       | None => false
       end
    then match projections i with
         | [] => inr IndexError
         | p :: _ => inl p
         end
    else by_name name rest
  end.

(** [AtlasProject.get_map] (project.py l.769-812) on the indices of the
    project. *)
Definition get_map (l : list index)
    (name atlas_index_id projection_id : option string) : projection + error :=
  match atlas_index_id with
  | Some id => by_index_id id l
  | None =>
    match projection_id with
    | Some id => by_projection_id id l
    | None =>
      match l with
      | [] => inr NoMaps
      | _ :: _ =>
        if (1 <? length l)%nat && match name with None => true | Some _ => false end
        then inr NameNeeded
        else
          match l with
          | [i] =>
            match projections i with
            | [p] => inl p
            | _ => by_name name l
            end
          | _ => by_name name l
          end
      end
    end
  end.

Definition example_meta : list raw_index :=
  [mkRawIndex "idx-1" "first" ["p-1"]; mkRawIndex "idx-2" "second" ["p-2"; "p-3"]].

End Maps.

(* ================================================================= *)
(** ** [AtlasClient.map_embeddings]: the upload in memory chunks      *)
(* ================================================================= *)

Module MapEmbeddings.

Import Py Upload.

(** [MAX_MEMORY_CHUNK = 150000] (atlas.py l.427). *)
Definition MAX_MEMORY_CHUNK : Z := 150000.

(** [shard_size = 1000; if embeddings.shape[0] > 10000: shard_size = 2500]
    (atlas.py l.422-424), for an array with one row per record. *)
Definition shard_size_for (rows : Z) : Z :=
  if 10000 <? rows then 2500 else 1000.

(** The [data_shard]s that one call of [AtlasClient.add_embeddings] on
    [chunk] submits, in the order of submission (atlas.py l.233-256). *)
Definition payloads_of {A : Type} (chunk : list A) (shard_size : Z)
  : list (list A) :=
  let s := Shard.effective_shard_size shard_size in
  map (Shard.data_shard chunk s)
      (Shard.shard_starts (Z.of_nat (length chunk)) s).

Section Chunks.

Variable A : Type.

(** What the requests of the chunk that starts at a given record resolve
    to, and the order in which they complete. *)
Variable transport : Z -> nat -> Z -> future_result.
Variable completion : Z -> list future -> list future.

(** [for i in range(0, len(data), MAX_MEMORY_CHUNK):
       self.add_embeddings(..., data=data[i : i + MAX_MEMORY_CHUNK],
                           shard_size=shard_size, pbar=pbar)]
    (atlas.py l.433-441).  The value a call returns is dropped; an
    exception leaves the loop.  The result lists the payloads of all the
    requests submitted. *)
Fixpoint upload_chunks (data : list A) (shard_size : Z) (chunk_starts : list Z)
    (sent : list (list A)) : list (list A) * option exn :=
  match chunk_starts with
  | [] => (sent, None)
  | i :: rest =>
    let chunk := slice data i (i + MAX_MEMORY_CHUNK) in
    let sent' := sent ++ payloads_of chunk shard_size in
    match Legacy.add_embeddings (Z.of_nat (length chunk)) shard_size false
            (transport i) (completion i) with
    | Legacy.Raise e _ => (sent', Some e)
    | _ => upload_chunks data shard_size rest sent'
    end
  end.

(** The upload part of [map_embeddings]. *)
Definition upload_all (data : list A) : list (list A) * option exn :=
  let N := Z.of_nat (length data) in
  upload_chunks data (shard_size_for N) (range 0 N MAX_MEMORY_CHUNK) [].

End Chunks.

(** Consecutive pieces of width [w] of a list. *)
Definition pieces {A : Type} (w : nat) (l : list A) : list (list A) :=
  map (fun k => firstn w (skipn (k * w) l))
      (seq 0 ((length l + w - 1) / w)).

End MapEmbeddings.

(* ================================================================= *)
(** ** [AtlasProject.create_index]: fetching the map that was built    *)
(* ================================================================= *)

Module CreateIndex.

Import Maps.

(** The state of the project as the client holds it in [self.meta]: the
    JSON value of the last answer to [GET /v1/project/<id>].  Of an
    object, the keys that the end of [create_index] reads ([None]: the
    key is absent, as in an error body); the values of the keys that are
    present are taken to have the documented shape. *)
Inductive meta : Type :=
| Object (id project_name : option string)
         (atlas_indices : option (list raw_index))
| NotObject.

(** The body of an answer: text that is not JSON, or a JSON value. *)
Inductive body : Type :=
| NotJson
| Json (m : meta).

(** The exceptions of the end of [create_index]. *)
Inductive exception : Type :=
| GetMapError (e : error)
| JSONDecodeError
| KeyError (key : string)
| TypeError
| AttributeError.

(** What [except ValueError] catches: the [ValueError]s of [get_map]
    (all its exceptions but the [IndexError] of [index.projections[0]])
    and the [JSONDecodeError] of [response.json()], a subclass of
    [ValueError]. *)
Definition is_value_error (e : exception) : bool :=
  match e with
  | GetMapError IndexError => false
  | GetMapError _ => true
  | JSONDecodeError => true
  | KeyError _ | TypeError | AttributeError => false
  end.

(** [self.meta['id']], [self.meta['project_name']],
    [self.meta['atlas_indices']] *)
Definition get_id (m : meta) : exception + string :=
  match m with
  | Object (Some i) _ _ => inr i
  | Object None _ _ => inl (KeyError "id")
  | NotObject => inl TypeError
  end.

Definition get_project_name (m : meta) : exception + string :=
  match m with
  | Object _ (Some n) _ => inr n
  | Object _ None _ => inl (KeyError "project_name")
  | NotObject => inl TypeError
  end.

Definition get_atlas_indices (m : meta) : exception + list raw_index :=
  match m with
  | Object _ _ (Some l) => inr l
  | Object _ _ None => inl (KeyError "atlas_indices")
  | NotObject => inl TypeError
  end.

(** [self.get_map(atlas_index_id=index_id)] (l.769-812) on the state [m],
    where [answer] is what the server answers to the request for the
    state of a project id: the [indices] property first refreshes the
    state (l.672-681: the request is for [self.id]; [self.meta] becomes
    [response.json()], with no look at the status), then reads
    [self.meta['atlas_indices']] (l.687).  The result comes with the
    state that the call leaves in [self.meta]. *)
Definition get_map_call (m : meta) (answer : string -> body)
    (index_id : option string) : meta * (exception + projection) :=
  match get_id m with
  | inl e => (m, inl e)
  | inr i =>
    match answer i with
    | NotJson => (m, inl JSONDecodeError)
    | Json m' =>
      match get_atlas_indices m' with
      | inl e => (m', inl e)
      | inr l =>
        match get_map (indices l) None index_id None with
        | inl p => (m', inr p)
        | inr e => (m', inl (GetMapError e))
        end
      end
    end
  end.

(** How the end of [create_index] leaves. *)
Inductive outcome : Type :=
| Returned (p : projection)
| Raised (e : exception).

(** [logger.info(f"Created map `{projection.name}` in project
    `{self.name}`: {projection.map_link}"); return projection] (l.963-965):
    the message reads [self.meta['project_name']], then
    [self.meta['id']] for the link. *)
Definition report (m : meta) (p : projection) : outcome :=
  match get_project_name m with
  | inl e => Raised e
  | inr _ =>
    match get_id m with
    | inl e => Raised e
    | inr _ => Returned p
    end
  end.

(** [try: projection = self.get_map(atlas_index_id=index_id)
     except ValueError:
         time.sleep(5)
         try: projection = self.get_map(atlas_index_id=index_id)
         except ValueError: projection = None
     ...
     logger.info(f"Created map `{projection.name}` ...")
     return projection]  (l.949-965)
    [index_id] is [job['index_id']] ([None] for a JSON [null]); [m0] is
    the state held when the first look-up starts; [answer1] and [answer2]
    are what the server answers to the state requests of the first and of
    the second look-up.  With [projection = None] the message raises
    [AttributeError] at [projection.name]. *)
Definition fetch_projection (m0 : meta) (answer1 answer2 : string -> body)
    (index_id : option string) : outcome :=
  match get_map_call m0 answer1 index_id with
  | (m1, inr p) => report m1 p
  | (m1, inl e1) =>
    if is_value_error e1 then
      match get_map_call m1 answer2 index_id with
      | (m2, inr p) => report m2 p
      | (m2, inl e2) =>
        if is_value_error e2 then Raised AttributeError else Raised e2
      end
    else Raised e1
  end.

(** An answer with no map under the index [id]: not JSON, or a state with
    its keys whose indices with that id have no projection. *)
Definition no_map_under (id : string) (b : body) : Prop :=
  b = NotJson
  \/ exists i n l,
       b = Json (Object (Some i) n (Some l))
       /\ forall rw, In rw l -> raw_id rw = id -> raw_projections rw = [].

End CreateIndex.

(* ================================================================= *)
(** ** [AtlasProject.__init__]: creating or loading a project          *)
(* ================================================================= *)

Module ProjectInit.

Import Py.

(** The requests of the constructor, in the order in which it makes
    them. *)
Inductive call : Type :=
| GetOrganization (organization_name : option string)
| SearchProject (organization_name project_name : string)
| DeleteProject (project_id : string)
| CreateProject (organization_id project_name : string)
                (description : option string)
                (unique_id_field modality : string) (is_public : bool)
| GetProject (project_id : string).

Definition is_create (c : call) : bool :=
  match c with
  | CreateProject _ _ _ _ _ _ => true
  | _ => false
  end.

(** The [assert] of l.552 raises an [AssertionError]; the rest are the
    exceptions of [Py]. *)
Inductive error : Type :=
| AssertionError
| Raised (e : exn).

(** The answer to [/v1/project/search/name]: the status, the ids of the
    [results], and what [response.json()] prints as in an error message
    ([None] when the body is not JSON and [response.json()] raises). *)
Record search_response : Type := mkSearch {
  search_status : Z;
  search_results : list string;
  search_text : option string
}.

(** The answer to [/v1/project/create]. *)
Record create_response : Type := mkCreate {
  create_status : Z;
  created_id : string;
  create_text : option string
}.

(** [raise Exception(f"<prefix>{response.json()}")]: the f-string is
    evaluated first. *)
Definition failure (prefix : string) (text : option string) : exn :=
  match text with
  | Some t => PyException (prefix ++ t)
  | None => JSONDecodeError
  end.

Definition MSG_UNIQUE : string :=
  "You must specify a unique_id_field when creating a new project.".
Definition MSG_MODALITY : string :=
  "You must specify a modality when creating a new project.".
Definition MSG_UNIQUE_ID : string := "You must specify a unique id field".
Definition MSG_EXISTS (name organization_name : string) : string :=
  "Project already exists with the name `" ++ name ++ "` in organization `"
  ++ organization_name
  ++ "`. You can add datums to it by settings `add_datums_if_exists = True` or reset it by specifying `reset_project_if_exist=True` on a new upload.".
Definition MSG_UNSUPPORTED (modality : string) : string :=
  "Tried to create project with modality: " ++ modality
  ++ ", but Atlas only supports: ['text', 'embedding']".

Definition supported_modalities : list string := ["text"; "embedding"].

Section Constructor.

(** The state of the project, as [_get_project_by_id] returns it. *)
Variable meta : Type.

(** What the server answers.  [_get_organization] (l.249-282) and
    [_get_project_by_id] (l.120-140) return or raise; a search answered
    200 and a creation answered 201 are taken to have the fields that the
    code reads. *)
Variable get_organization : option string -> exn + (string * string).
Variable search : string -> string -> search_response.
Variable create : string -> string -> create_response.
Variable get_project_by_id : string -> exn + meta.

(** [_get_existing_project_by_name] (l.287-321): the id of the first
    project found, if any, with the id and the name of the
    organization. *)
Definition get_existing_project_by_name (project_name : string)
    (organization_name : option string)
  : list call * (exn + (option string * string * string)) :=
  match get_organization organization_name with
  | inl e => ([GetOrganization organization_name], inl e)
  | inr (oname, oid) =>
    let t := [GetOrganization organization_name; SearchProject oname project_name] in
    let r := search oname project_name in
    if negb (search_status r =? 200) then
      (t, inl (failure "Failed to find project: " (search_text r)))
    else
      match search_results r with
      | existing_project_id :: _ => (t, inr (Some existing_project_id, oid, oname))
      | [] => (t, inr (None, oid, oname))
      end
  end.

(** [_create_project] (l.616-670). *)
Definition create_project (project_name : string) (description : option string)
    (unique_id_field : option string) (modality : string)
    (organization_name : option string) (is_public : bool)
  : list call * (exn + string) :=
  match get_organization organization_name with
  | inl e => ([GetOrganization organization_name], inl e)
  | inr (_, oid) =>
    let t := [GetOrganization organization_name] in
    if negb (existsb (String.eqb modality) supported_modalities) then
      (t, inl (ValueError (MSG_UNSUPPORTED modality)))
    else
      match unique_id_field with
      | None => (t, inl (ValueError MSG_UNIQUE_ID))
      | Some u =>
        let t' := t ++ [CreateProject oid project_name description u modality
                                      is_public] in
        let r := create oid project_name in
        if negb (create_status r =? 201) then
          (t', inl (failure "Failed to create project: " (create_text r)))
        else (t', inr (created_id r))
      end
  end.

(** [self.meta = self._get_project_by_id(project_id)] *)
Definition load (t : list call) (project_id : string)
  : list call * (error + meta) :=
  (t ++ [GetProject project_id],
   match get_project_by_id project_id with
   | inl e => inl (Raised e)
   | inr m => inr m
   end).

(** [AtlasProject.__init__] (l.519-601): the requests made and the state
    loaded, or the exception.  The set-up of the client by
    [super().__init__()] is taken to succeed. *)
Definition init (name description unique_id_field modality
                 organization_name : option string) (is_public : bool)
    (project_id : option string)
    (reset_project_if_exists add_datums_if_exists : bool)
  : list call * (error + meta) :=
  match name, project_id with
  | None, None => ([], inl AssertionError)
  | _, Some pid => load [] pid
  | Some n, None =>
    match get_existing_project_by_name n organization_name with
    | (t, inl e) => (t, inl (Raised e))
    | (t, inr (existing, _, oname)) =>
      let found :=
        match existing with
        | Some pid =>
          if reset_project_if_exists then (t ++ [DeleteProject pid], inr None)
          else if negb add_datums_if_exists then
            (t, inl (ValueError (MSG_EXISTS n oname)))
          else (t, inr (Some pid))
        | None => (t, inr None)
        end in
      match found with
      | (t1, inl e) => (t1, inl (Raised e))
      | (t1, inr (Some pid)) => load t1 pid
      | (t1, inr None) =>
        match unique_id_field, modality with
        | None, _ => (t1, inl (Raised (ValueError MSG_UNIQUE)))
        | Some _, None => (t1, inl (Raised (ValueError MSG_MODALITY)))
        | Some _, Some m =>
          match create_project n description unique_id_field m (Some oname)
                               is_public with
          | (t2, inl e) => (t1 ++ t2, inl (Raised e))
          | (t2, inr pid) => load (t1 ++ t2) pid
          end
        end
      end
    end
  end.

End Constructor.

(** A server with one organization and one project, [p-1], under every
    name. *)
Definition one_project_org : option string -> exn + (string * string) :=
  fun _ => inr ("org", "o-1").
Definition one_project_search : string -> string -> search_response :=
  fun _ _ => mkSearch 200 ["p-1"] (Some "{'results': [{'id': 'p-1'}]}").
Definition one_project_create : string -> string -> create_response :=
  fun _ _ => mkCreate 201 "p-2" (Some "{'project_id': 'p-2'}").
Definition one_project_state : string -> exn + string :=
  fun id => inr id.

End ProjectInit.

(* ================================================================= *)
(** ** Facts about the primitives and the planner                     *)
(* ================================================================= *)

Lemma range_len_pos (N s : Z) :
  0 <= N -> 1 <= s -> Py.range_len 0 N s = Shard.shard_count N s.
Proof.
  intros HN Hs. unfold Py.range_len, Shard.shard_count.
  destruct (Z.ltb_spec 0 s) as [_|]; [|lia].
  rewrite Z.sub_0_r. apply Z.max_r.
  apply Z.div_pos; lia.
Qed.

Lemma shard_count_bounds (N s : Z) :
  0 <= N -> 1 <= s ->
  N <= Shard.shard_count N s * s < N + s.
Proof.
  intros HN Hs. unfold Shard.shard_count.
  pose proof (Z.div_mod (N + s - 1) s ltac:(lia)) as E.
  pose proof (Z.mod_pos_bound (N + s - 1) s ltac:(lia)) as B.
  nia.
Qed.

Lemma firstn_add_skipn {A : Type} (x y : nat) (l : list A) :
  firstn (x + y) l = firstn x l ++ firstn y (skipn x l).
Proof.
  revert l; induction x as [|x IH]; intros l; simpl; [reflexivity|].
  destruct l as [|a l]; simpl.
  - now rewrite firstn_nil.
  - now rewrite IH.
Qed.

Lemma skipn_skipn_add {A : Type} (x y : nat) (l : list A) :
  skipn x (skipn y l) = skipn (y + x) l.
Proof.
  revert l; induction y as [|y IH]; intros l; simpl; [reflexivity|].
  destruct l as [|a l]; simpl; [now rewrite skipn_nil|apply IH].
Qed.

(** Consecutive chunks of width [w] starting at chunk [a] glue back to the
    corresponding prefix. *)
Lemma concat_chunks {A : Type} (w : nat) (l : list A) (m a : nat) :
  concat (map (fun k => firstn w (skipn (k * w) l)) (seq a m))
  = firstn (m * w) (skipn (a * w) l).
Proof.
  revert a; induction m as [|m IH]; intros a; [reflexivity|].
  cbn [seq map concat]. rewrite IH.
  replace (S m * w)%nat with (w + m * w)%nat by lia.
  rewrite firstn_add_skipn, skipn_skipn_add.
  replace (a * w + w)%nat with (S a * w)%nat by lia.
  reflexivity.
Qed.

Lemma slice_nat {A : Type} (l : list A) (i s : Z) :
  0 <= i -> 0 <= s ->
  Py.slice l i (i + s)
  = firstn (Z.to_nat s) (skipn (Z.to_nat i) l).
Proof.
  intros Hi Hs. unfold Py.slice, Py.clamp_index.
  set (n := Z.of_nat (length l)).
  destruct (Z.ltb_spec i 0); [lia|].
  destruct (Z.ltb_spec (i + s) 0); [lia|].
  destruct (Z_le_gt_dec n i) as [Hle|Hgt].
  - rewrite (Z.min_r i n), (Z.min_r (i + s) n) by lia.
    rewrite Z.sub_diag. simpl.
    rewrite (skipn_all2 l) by (subst n; lia).
    now rewrite firstn_nil.
  - rewrite (Z.min_l i n) by lia.
    destruct (Z_le_gt_dec (i + s) n).
    + rewrite (Z.min_l (i + s) n) by lia. do 2 f_equal. lia.
    + rewrite (Z.min_r (i + s) n) by lia.
      rewrite !firstn_all2; try reflexivity;
        rewrite length_skipn; subst n; lia.
Qed.

Lemma data_shard_length {A : Type} (data : list A) (s i : Z) :
  0 <= i -> 0 <= s ->
  Z.of_nat (length (Shard.data_shard data s i))
  = Z.max 0 (Z.min (i + s) (Z.of_nat (length data)) - i).
Proof.
  intros Hi Hs. unfold Shard.data_shard. rewrite slice_nat by lia.
  rewrite length_firstn, length_skipn. lia.
Qed.

Lemma shard_starts_eq (N s : Z) :
  0 <= N -> 1 <= s ->
  Shard.shard_starts N s
  = map (fun k => Z.of_nat k * s)
        (seq 0 (Z.to_nat (Shard.shard_count N s))).
Proof.
  intros HN Hs. unfold Shard.shard_starts, Py.range.
  rewrite range_len_pos by lia. reflexivity.
Qed.

Lemma in_shard_starts (N s i : Z) :
  0 <= N -> 1 <= s ->
  (In i (Shard.shard_starts N s) <-> exists k, i = k * s /\ 0 <= k /\ k * s < N).
Proof.
  intros HN Hs. rewrite shard_starts_eq by lia.
  pose proof (shard_count_bounds N s HN Hs) as B.
  assert (0 <= Shard.shard_count N s) by nia.
  rewrite in_map_iff. split.
  - intros (k & <- & Hk). apply in_seq in Hk.
    exists (Z.of_nat k). split; [reflexivity|]. split; [lia|].
    assert (Z.of_nat k + 1 <= Shard.shard_count N s) by lia. nia.
  - intros (k & -> & Hk0 & Hk). exists (Z.to_nat k).
    split; [now rewrite Z2Nat.id|].
    apply in_seq. split; [lia|].
    assert (k < Shard.shard_count N s) by nia. lia.
Qed.

Lemma concat_data_shards {A : Type} (data : list A) (s : Z) :
  1 <= s ->
  concat (map (Shard.data_shard data s)
              (Shard.shard_starts (Z.of_nat (length data)) s)) = data.
Proof.
  intros Hs. set (N := Z.of_nat (length data)).
  assert (HN : 0 <= N) by (subst N; lia).
  rewrite shard_starts_eq, map_map by lia.
  erewrite map_ext.
  2:{ intros k. unfold Shard.data_shard. rewrite slice_nat by lia.
      replace (Z.to_nat (Z.of_nat k * s)) with (k * Z.to_nat s)%nat by nia.
      reflexivity. }
  rewrite concat_chunks. simpl. apply firstn_all2.
  pose proof (shard_count_bounds N s HN Hs). subst N. nia.
Qed.

(** [C6] For a dataset of [N >= 0] records and a requested shard size
    [S >= 1], with [s = min(S, 5000)]: the start points of the shards are
    [0, s, 2s, ...] in increasing order, one for each of the [ceil(N/s)]
    shards; the shards [data[i : i+s]] taken in that order glue back to
    exactly [data] (so the ranges are disjoint and their union is [0, N));
    every index of [data] lies in the range of exactly one shard; every
    shard holds between 1 and [s] records, namely [min(i+s, N) - i]; and a
    shard that is not the final one holds exactly [s]. *)
Theorem shard_plan_partition {A : Type} (data : list A) (S : Z) :
  1 <= S ->
  let N := Z.of_nat (length data) in
  let s := Shard.effective_shard_size S in
  let starts := Shard.shard_starts N s in
  s = Z.min S 5000
  /\ starts = map (fun k => Z.of_nat k * s)
                  (seq 0 (Z.to_nat (Shard.shard_count N s)))
  /\ concat (map (Shard.data_shard data s) starts) = data
  /\ (forall j, 0 <= j < N ->
        exists i, (In i starts /\ i <= j < i + s)
                  /\ forall i', In i' starts /\ i' <= j < i' + s -> i' = i)
  /\ (forall i, In i starts ->
        0 <= i < N
        /\ Z.of_nat (length (Shard.data_shard data s i)) = Z.min (i + s) N - i
        /\ 1 <= Z.of_nat (length (Shard.data_shard data s i)) <= s)
  /\ (forall i, In i starts -> i + s < N ->
        Z.of_nat (length (Shard.data_shard data s i)) = s).
Proof.
  intros HS N s starts.
  assert (Hs : 1 <= s) by (subst s; unfold Shard.effective_shard_size; lia).
  assert (HN : 0 <= N) by (subst N; lia).
  split; [reflexivity|].
  split; [subst starts; apply shard_starts_eq; lia|].
  split; [subst starts N; apply concat_data_shards; lia|].
  split; [|split].
  - intros j Hj. exists (j / s * s).
    pose proof (Z.div_mod j s ltac:(lia)) as E.
    pose proof (Z.mod_pos_bound j s ltac:(lia)) as B.
    assert (0 <= j / s) by (apply Z.div_pos; lia).
    split.
    + split; [|nia]. apply in_shard_starts; try lia.
      exists (j / s). split; [reflexivity|]. nia.
    + intros i' (Hin & Hi'). apply in_shard_starts in Hin; try lia.
      destruct Hin as (k & -> & Hk0 & Hk).
      f_equal. apply Z.div_unique with (r := j - k * s); lia.
  - intros i Hin. apply in_shard_starts in Hin; try lia.
    destruct Hin as (k & -> & Hk0 & Hk).
    rewrite data_shard_length by nia. fold N. nia.
  - intros i Hin Hlt. apply in_shard_starts in Hin; try lia.
    destruct Hin as (k & -> & Hk0 & Hk).
    rewrite data_shard_length by nia. fold N. lia.
Qed.

Lemma shard_plan_partition_witness :
  1 <= 5 /\
  concat (map (Shard.data_shard (seq 0 12) (Shard.effective_shard_size 5))
              (Shard.shard_starts 12 (Shard.effective_shard_size 5)))
  = seq 0 12.
Proof.
  split; [lia|].
  exact (proj1 (proj2 (proj2 (shard_plan_partition (seq 0 12) 5 ltac:(lia))))).
Defined.

(* ================================================================= *)
(** ** Facts about the coordinator                                    *)
(* ================================================================= *)

Import Py Upload.

(** The overload test, on integers: the fraction exceeds a quarter when
    the 504 count exceeds a quarter of the total. *)
Lemma overloaded_spec (shard_size e f s : Z) :
  0 < f + s + e ->
  overloaded shard_size e f s = (f + s + e <? 4 * e) && (shard_size * 3 <? e).
Proof.
  intros Hpos. unfold overloaded, failure_fraction. f_equal.
  destruct (f + s + e) as [|p|p] eqn:E; try lia.
  unfold Qle_bool, Qdiv, Qmult, Qinv, inject_Z. simpl Qnum. simpl Qden.
  destruct (Z.leb_spec (e * 1 * 4) (1 * Z.pos (1 * p)));
  destruct (Z.ltb_spec (Z.pos p) (4 * e)); simpl; try reflexivity; lia.
Qed.

Lemma failure_fraction_gt (e f s : Z) :
  0 < f + s + e ->
  ((1 # 4) < failure_fraction e f s)%Q <-> f + s + e < 4 * e.
Proof.
  intros Hpos. unfold failure_fraction.
  destruct (f + s + e) as [|p|p] eqn:E; try lia.
  unfold Qlt, Qdiv, Qmult, Qinv, inject_Z. simpl Qnum. simpl Qden. lia.
Qed.

Lemma future_eqb_refl f : future_eqb f f = true.
Proof. unfold future_eqb. apply Nat.eqb_refl. Qed.

Lemma in_del_future (f g : future) (fs : list future) :
  In g (del_future f fs) <-> In g fs /\ fut_id g <> fut_id f.
Proof.
  unfold del_future. rewrite filter_In. unfold future_eqb.
  destruct (Nat.eqb_spec (fut_id f) (fut_id g)); simpl; intuition congruence.
Qed.

Lemma del_future_length_le (f : future) (fs : list future) :
  (length (del_future f fs) <= length fs)%nat.
Proof. apply filter_length_le. Qed.

Lemma del_future_length_lt (f : future) (fs : list future) :
  In f fs -> (length (del_future f fs) < length fs)%nat.
Proof.
  induction fs as [|g fs IH]; simpl; [tauto|].
  intros [->|Hin].
  - rewrite future_eqb_refl. simpl.
    pose proof (del_future_length_le f fs). fold (del_future f fs). lia.
  - specialize (IH Hin). fold (del_future f fs).
    destruct (negb (future_eqb f g)); cbn [length]; lia.
Qed.

Lemma del_future_absent (f : future) (fs : list future) :
  ~ In (fut_id f) (map fut_id fs) -> del_future f fs = fs.
Proof.
  induction fs as [|g fs IH]; simpl; [reflexivity|].
  intros Hn. unfold future_eqb.
  destruct (Nat.eqb_spec (fut_id f) (fut_id g)) as [E|E]; simpl.
  - exfalso. apply Hn. now left.
  - f_equal. apply IH. tauto.
Qed.

Lemma del_future_length_exact (f : future) (fs : list future) :
  NoDup (map fut_id fs) -> In f fs ->
  S (length (del_future f fs)) = length fs.
Proof.
  induction fs as [|g fs IH]; simpl; [tauto|].
  intros Hnd Hin. inversion Hnd as [|x l Hx Hnd']; subst.
  unfold future_eqb.
  destruct (Nat.eqb_spec (fut_id f) (fut_id g)) as [E|E]; simpl.
  - f_equal. apply (f_equal (@length _)).
    apply del_future_absent. now rewrite E.
  - f_equal. apply IH; [assumption|].
    destruct Hin as [->|Hin]; [congruence|assumption].
Qed.

Lemma del_future_nodup (f : future) (fs : list future) :
  NoDup (map fut_id fs) -> NoDup (map fut_id (del_future f fs)).
Proof.
  induction fs as [|g fs IH]; simpl; [constructor|].
  intros Hnd. inversion Hnd as [|x l Hx Hnd']; subst.
  destruct (negb (future_eqb f g)); simpl; [|now apply IH].
  constructor; [|now apply IH].
  intros Hin. apply Hx. apply in_map_iff in Hin.
  destruct Hin as (h & Eh & Hh). apply in_del_future in Hh.
  apply in_map_iff. exists h. tauto.
Qed.

Lemma same_id_same_future (fs : list future) (f g : future) :
  NoDup (map fut_id fs) -> In f fs -> In g fs ->
  fut_id f = fut_id g -> f = g.
Proof.
  induction fs as [|h fs IH]; simpl; [tauto|].
  intros Hnd Hf Hg E. inversion Hnd as [|x l Hx Hnd']; subst.
  destruct Hf as [->|Hf], Hg as [->|Hg]; try reflexivity.
  - exfalso. apply Hx. rewrite E. now apply in_map.
  - exfalso. apply Hx. rewrite <- E. now apply in_map.
  - now apply IH.
Qed.

Lemma submit_all_ids (starts : list Z) (rank : nat) :
  map fut_id (submit_all rank starts) = seq rank (length starts).
Proof.
  revert rank; induction starts as [|i l IH]; intros rank; simpl;
    [reflexivity|now rewrite IH].
Qed.

Lemma submit_all_starts (starts : list Z) (rank : nat) :
  map start_point (submit_all rank starts) = starts.
Proof.
  revert rank; induction starts as [|i l IH]; intros rank; simpl;
    [reflexivity|now rewrite IH].
Qed.

Lemma submit_all_length (starts : list Z) (rank : nat) :
  length (submit_all rank starts) = length starts.
Proof.
  rewrite <- (length_map fut_id), submit_all_ids. apply length_seq.
Qed.

Lemma initial_state_wf (N s : Z) : wf (initial_state N s).
Proof.
  unfold wf, initial_state. cbn [futures submitted]. split.
  - rewrite submit_all_ids. apply seq_NoDup.
  - apply Forall_forall. intros f Hf.
    apply (in_map fut_id) in Hf. rewrite submit_all_ids in Hf.
    apply in_seq in Hf. lia.
Qed.

Section StepShape.

Variable shard_size : Z.
Variable transport : nat -> Z -> future_result.

(** A pass of the [for] loop that falls through leaves the dict as it is
    ([continue]), deletes the future, or deletes it after a resubmission
    of its start point. *)
Lemma process_future_next (st st' : state) (f : future) :
  process_future shard_size transport st f = Next st' ->
  (futures st' = futures st /\ submitted st' = submitted st)
  \/ (futures st' = del_future f (futures st)
      /\ submitted st' = submitted st)
  \/ (futures st'
      = del_future f (futures st ++ [mkFuture (submitted st) (start_point f)])
      /\ submitted st' = S (submitted st)).
Proof.
  unfold process_future, inspect_json, inspect_status.
  destruct (result_of transport f) as [r|e]; [|discriminate].
  destruct (negb (status_code r =? 200)).
  - destruct (resp_body r) as [t|j].
    + destruct (status_code r =? 413);
        [intros [= <-]; right; left; split; reflexivity|].
      destruct (status_code r =? 504).
      * cbn [count_504 failed succeeded errors_504].
        destruct (_ =? 0); [discriminate|].
        destruct (overloaded _ _ _ _); [discriminate|].
        intros [= <-]. right; right. split; reflexivity.
      * intros [= <-]; right; left; split; reflexivity.
    + destruct (py_in ORG_LIMIT j) as [[|]|]; try discriminate.
      destruct (py_in LOCK_HELD j) as [[|]|]; try discriminate.
      destruct (py_in ID_CONFLICT j) as [[|]|]; try discriminate.
      * intros [= <-]. left. split; reflexivity.
      * intros [= <-]. right; left. split; reflexivity.
  - intros [= <-]. right; left. split; reflexivity.
Qed.

Lemma process_future_wf (st st' : state) (f : future) :
  wf st -> In f (futures st) ->
  process_future shard_size transport st f = Next st' ->
  wf st'
  /\ (forall g, In g (futures st) -> fut_id g <> fut_id f ->
                In g (futures st'))
  /\ (length (futures st') <= length (futures st))%nat.
Proof.
  intros [Hnd Hlt] Hin Hp. apply process_future_next in Hp.
  destruct Hp as [(Ef & Es)|[(Ef & Es)|(Ef & Es)]]; unfold wf;
    rewrite Ef, Es.
  - repeat split; auto.
  - repeat split.
    + now apply del_future_nodup.
    + apply Forall_forall. intros g Hg. apply in_del_future in Hg.
      rewrite Forall_forall in Hlt. now apply Hlt.
    + intros g Hg Hne. apply in_del_future. tauto.
    + apply del_future_length_le.
  - assert (Hnd' : NoDup (map fut_id
               (futures st ++ [mkFuture (submitted st) (start_point f)]))).
    { rewrite map_app. simpl.
      apply NoDup_app; [assumption|repeat constructor; simpl; tauto|].
      intros x Hx [<-|[]]. apply in_map_iff in Hx.
      destruct Hx as (g & Eg & Hg). rewrite Forall_forall in Hlt.
      specialize (Hlt g Hg). simpl in Eg. lia. }
    repeat split.
    + now apply del_future_nodup.
    + apply Forall_forall. intros g Hg. apply in_del_future in Hg.
      destruct Hg as [Hg _]. apply in_app_iff in Hg.
      rewrite Forall_forall in Hlt.
      destruct Hg as [Hg|[<-|[]]]; [specialize (Hlt g Hg)|simpl]; lia.
    + intros g Hg Hne. apply in_del_future. split; [|assumption].
      apply in_app_iff. now left.
    + assert (Hlen : (length (del_future f (futures st ++
                   [mkFuture (submitted st) (start_point f)]))
                 < length (futures st ++
                   [mkFuture (submitted st) (start_point f)]))%nat).
      { apply del_future_length_lt. apply in_app_iff. now left. }
      rewrite length_app in Hlen. simpl in Hlen. lia.
Qed.

End StepShape.

(** *** Reasoning about the [while] loop with an invariant *)

Section LoopReasoning.

Variable shard_size : Z.
Variable transport : nat -> Z -> future_result.
Variable sched : scheduler.
Hypothesis Hsched : valid_scheduler sched.

(** [Inv] holds between passes; [Stop] is what is known of a pass that
    returns or raises. *)
Variable Inv : state -> Prop.
Variable Stop : control -> Prop.

Hypothesis Hstep : forall st f,
  wf st -> Inv st -> In f (futures st) ->
  match process_future shard_size transport st f with
  | Next st' => Inv st'
  | c => Stop c
  end.

Lemma process_done_safe (done : list future) (st : state) :
  wf st -> Inv st -> NoDup done -> incl done (futures st) ->
  match process_done shard_size transport done st with
  | Next st' =>
      wf st' /\ Inv st' /\ (length (futures st') <= length (futures st))%nat
  | c => Stop c
  end.
Proof.
  revert st; induction done as [|f rest IH]; intros st Hwf HI Hnd Hincl; simpl.
  - split; [assumption|split; [assumption|lia]].
  - assert (Hf : In f (futures st)) by (apply Hincl; now left).
    pose proof (Hstep st f Hwf HI Hf) as Hs.
    destruct (process_future shard_size transport st f) as [st1| |] eqn:E;
      try exact Hs.
    destruct (process_future_wf _ _ _ _ _ Hwf Hf E) as (Hwf1 & Hkeep & Hlen).
    inversion Hnd as [|x l Hx Hnd']; subst.
    assert (Hincl1 : incl rest (futures st1)).
    { intros g Hg. apply Hkeep; [apply Hincl; now right|].
      intros Eid. apply Hx.
      assert (g = f); [|now subst].
      destruct Hwf as [Hids _].
      apply (same_id_same_future (futures st)); auto.
      apply Hincl; now right. }
    specialize (IH st1 Hwf1 Hs Hnd' Hincl1).
    destruct (process_done shard_size transport rest st1); try exact IH.
    destruct IH as (? & ? & ?). split; [assumption|split; [assumption|lia]].
Qed.

Lemma upload_loop_safe (fuel k : nat) (st : state) :
  wf st -> Inv st ->
  match upload_loop shard_size transport sched fuel k st with
  | LoopDone st' => Inv st' /\ futures st' = []
  | Returned b st' => Stop (Return b st')
  | Raised e st' => Stop (Raise e st')
  | Diverged st' => Inv st'
  end.
Proof.
  revert k st; induction fuel as [|fuel IH]; intros k st Hwf HI; simpl.
  - destruct (futures st) eqn:E; simpl; rewrite ?E; auto.
  - destruct (futures st) as [|f0 fs] eqn:E; simpl; rewrite ?E; auto.
    assert (Hnd0 : NoDup (f0 :: fs))
      by (rewrite <- E; apply (NoDup_map_inv fut_id); apply Hwf).
    destruct (Hsched k (f0 :: fs) ltac:(discriminate) Hnd0)
      as (Hne & Hnd & Hincl0).
    assert (Hincl : incl (sched k (f0 :: fs)) (futures st))
      by (rewrite E; exact Hincl0).
    pose proof (process_done_safe (sched k (f0 :: fs)) st Hwf HI Hnd Hincl) as Hd.
    destruct (process_done shard_size transport (sched k (f0 :: fs)) st);
      simpl; try exact Hd.
    destruct Hd as (? & ? & ?). now apply IH.
Qed.

(** When every pass that falls through deletes its future, each pass of
    the [while] loop shortens the dict, and the loop ends. *)
Hypothesis Hsettle : forall st st' f,
  wf st -> Inv st -> In f (futures st) ->
  process_future shard_size transport st f = Next st' ->
  futures st' = del_future f (futures st).

Lemma process_done_settles (done : list future) (st st' : state) :
  wf st -> Inv st -> NoDup done -> incl done (futures st) -> done <> [] ->
  process_done shard_size transport done st = Next st' ->
  (length (futures st') < length (futures st))%nat.
Proof.
  destruct done as [|f rest]; [congruence|].
  intros Hwf HI Hnd Hincl _. simpl.
  assert (Hf : In f (futures st)) by (apply Hincl; now left).
  pose proof (Hstep st f Hwf HI Hf) as Hs.
  destruct (process_future shard_size transport st f) as [st1| |] eqn:E;
    try discriminate.
  pose proof (Hsettle st st1 f Hwf HI Hf E) as Ef.
  destruct (process_future_wf _ _ _ _ _ Hwf Hf E) as (Hwf1 & Hkeep & Hlen).
  inversion Hnd as [|x l Hx Hnd']; subst.
  assert (Hincl1 : incl rest (futures st1)).
  { intros g Hg. apply Hkeep; [apply Hincl; now right|].
    intros Eid. apply Hx.
    assert (g = f); [|now subst].
    destruct Hwf as [Hids _].
    apply (same_id_same_future (futures st)); auto.
    apply Hincl; now right. }
  pose proof (process_done_safe rest st1 Hwf1 Hs Hnd' Hincl1) as Hd.
  intros Ed. rewrite Ed in Hd. destruct Hd as (_ & _ & Hle).
  pose proof (del_future_length_lt f (futures st) Hf).
  rewrite <- Ef in *. lia.
Qed.

Lemma upload_loop_total (fuel k : nat) (st : state) :
  wf st -> Inv st -> (length (futures st) <= fuel)%nat ->
  forall st', upload_loop shard_size transport sched fuel k st <> Diverged st'.
Proof.
  revert k st; induction fuel as [|fuel IH]; intros k st Hwf HI Hlen st'; simpl.
  - destruct (futures st); [discriminate|simpl in Hlen; lia].
  - destruct (futures st) as [|f0 fs] eqn:E; [discriminate|].
    assert (Hnd0 : NoDup (f0 :: fs))
      by (rewrite <- E; apply (NoDup_map_inv fut_id); apply Hwf).
    destruct (Hsched k (f0 :: fs) ltac:(discriminate) Hnd0)
      as (Hne & Hnd & Hincl0).
    assert (Hincl : incl (sched k (f0 :: fs)) (futures st))
      by (rewrite E; exact Hincl0).
    pose proof (process_done_safe (sched k (f0 :: fs)) st Hwf HI Hnd Hincl) as Hd.
    pose proof (process_done_settles (sched k (f0 :: fs)) st) as Hs.
    destruct (process_done shard_size transport (sched k (f0 :: fs)) st)
      as [st1| |]; try discriminate.
    destruct Hd as (Hwf1 & HI1 & _).
    specialize (Hs st1 Hwf HI Hnd Hincl Hne eq_refl).
    apply IH; auto. rewrite E in Hs. simpl in Hs, Hlen. lia.
Qed.

End LoopReasoning.

Lemma wait_all_valid : valid_scheduler wait_all.
Proof.
  intros k fs Hne Hnd. unfold wait_all. repeat split; auto using incl_refl.
Qed.

Lemma wait_first_valid : valid_scheduler wait_first.
Proof.
  intros k [|f fs] Hne Hnd; [congruence|]. unfold wait_first. simpl.
  repeat split; [discriminate|repeat constructor; simpl; tauto|].
  intros g [<-|[]]. now left.
Qed.

Lemma initial_state_length (N s : Z) :
  0 <= N -> 1 <= s ->
  Z.of_nat (length (futures (initial_state N s))) = Shard.shard_count N s.
Proof.
  intros HN Hs. unfold initial_state. cbn [futures].
  rewrite submit_all_length, shard_starts_eq, length_map, length_seq by lia.
  pose proof (shard_count_bounds N s HN Hs). nia.
Qed.

Lemma effective_shard_size_pos (S : Z) :
  1 <= S -> 1 <= Shard.effective_shard_size S <= 5000.
Proof. unfold Shard.effective_shard_size. lia. Qed.

(** [C9] The tallies move by the effective shard size [s = min(S, 5000)]
    at each shard outcome, whatever the number of records in the shard: a
    200 adds [s] to [succeeded], a 413 or another status with a body that
    is not JSON adds [s] to [failed].  Consequently, when every shard
    answers 200, a call on [N] records returns [True] (for every schedule
    of completions, given fuel for one pass per shard) with
    [succeeded = ceil(N/s) * s] and [failed = 0], and [succeeded > N] as
    soon as [N] is not a multiple of [s]. *)
Theorem tallies_count_shard_size (m : method) (N S : Z) (own_pbar : bool)
    (transport : nat -> Z -> future_result) (sched : scheduler) (fuel : nat) :
  0 <= N -> 1 <= S -> valid_scheduler sched ->
  (forall id p, exists b, transport id p = Responded (mkResponse 200 b)) ->
  let s := Shard.effective_shard_size S in
  (Z.to_nat (Shard.shard_count N s) <= fuel)%nat ->
  (forall tr st f b,
      tr (fut_id f) (start_point f) = Responded (mkResponse 200 b) ->
      exists st', process_future s tr st f = Next st'
                  /\ succeeded st' = succeeded st + s
                  /\ failed st' = failed st)
  /\ (forall tr st f c t,
      tr (fut_id f) (start_point f) = Responded (mkResponse c (NotJson t)) ->
      c <> 200 -> c <> 504 ->
      exists st', process_future s tr st f = Next st'
                  /\ failed st' = failed st + s
                  /\ succeeded st' = succeeded st)
  /\ exists st,
      upload m N S own_pbar transport sched fuel = Returned true st
      /\ succeeded st = Shard.shard_count N s * s
      /\ failed st = 0
      /\ (N mod s <> 0 -> N < succeeded st).
Proof.
  intros HN HS Hsched Hok s Hfuel.
  pose proof (effective_shard_size_pos S HS) as Hs. fold s in Hs.
  split; [|split].
  - intros tr st f b E. unfold process_future, result_of. rewrite E. simpl.
    eexists. split; [reflexivity|]. simpl. split; reflexivity.
  - intros tr st f c t E Hc Hc'. unfold process_future, result_of.
    rewrite E. cbn [status_code resp_body].
    destruct (Z.eqb_spec c 200); [contradiction|]. cbn [negb].
    unfold inspect_status.
    destruct (c =? 413); [eexists; split; [reflexivity|simpl; auto]|].
    destruct (Z.eqb_spec c 504); [contradiction|].
    eexists; split; [reflexivity|simpl; auto].
  - set (T := Shard.shard_count N s * s).
    set (Inv := fun st : state =>
           succeeded st + Z.of_nat (length (futures st)) * s = T
           /\ failed st = 0).
    assert (Hstep : forall st f, wf st -> Inv st -> In f (futures st) ->
              match process_future s transport st f with
              | Next st' => Inv st'
              | _ => False
              end).
    { intros st f Hwf [HT HF] Hin. unfold process_future, result_of.
      destruct (Hok (fut_id f) (start_point f)) as [b ->]. simpl.
      unfold Inv. simpl. split; [|assumption].
      pose proof (del_future_length_exact f (futures st) (proj1 Hwf) Hin).
      nia. }
    assert (Hsettle : forall st st' f, wf st -> Inv st -> In f (futures st) ->
              process_future s transport st f = Next st' ->
              futures st' = del_future f (futures st)).
    { intros st st' f _ _ _. unfold process_future, result_of.
      destruct (Hok (fut_id f) (start_point f)) as [b ->]. simpl.
      now intros [= <-]. }
    assert (HI0 : Inv (initial_state N s)).
    { unfold Inv. rewrite initial_state_length by lia. split; reflexivity. }
    pose proof (upload_loop_safe s transport sched Hsched Inv
                  (fun _ => False) Hstep fuel 0%nat (initial_state N s)
                  (initial_state_wf N s) HI0) as Hsafe.
    pose proof (upload_loop_total s transport sched Hsched Inv
                  (fun _ => False) Hstep Hsettle fuel 0%nat (initial_state N s)
                  (initial_state_wf N s) HI0) as Htot.
    assert (Hlen : (length (futures (initial_state N s)) <= fuel)%nat).
    { pose proof (initial_state_length N s HN ltac:(lia)). lia. }
    specialize (Htot Hlen).
    unfold upload. fold s.
    destruct (Z.eqb_spec s 0); [lia|].
    destruct (upload_loop s transport sched fuel 0 (initial_state N s))
      as [b st|e st|st|st]; simpl in Hsafe; try contradiction.
    + destruct Hsafe as [[HT HF] Hnil]. exists st.
      unfold finish. rewrite HF. simpl. split; [reflexivity|].
      rewrite Hnil in HT. simpl in HT.
      split; [lia|]. split; [reflexivity|].
      intros Hmod. replace (succeeded st) with T by lia. unfold T.
      pose proof (shard_count_bounds N s HN ltac:(lia)) as B.
      destruct (Z.eq_dec (Shard.shard_count N s * s) N) as [E|]; [|lia].
      exfalso. apply Hmod. rewrite <- E. apply Z.mod_mul. lia.
    + exfalso. now apply (Htot st).
Qed.

Lemma tallies_count_shard_size_witness :
  exists st,
    upload AddText 12 5 true
           (fun _ _ => Responded (mkResponse 200 (Json JNull))) wait_all 3
    = Returned true st
    /\ succeeded st = Shard.shard_count 12 (Shard.effective_shard_size 5)
                      * Shard.effective_shard_size 5
    /\ failed st = 0
    /\ (12 mod Shard.effective_shard_size 5 <> 0 -> 12 < succeeded st).
Proof.
  exact (proj2 (proj2
    (tallies_count_shard_size AddText 12 5 true
       (fun _ _ => Responded (mkResponse 200 (Json JNull))) wait_all 3
       ltac:(lia) ltac:(lia) wait_all_valid
       (fun _ _ => ex_intro _ (Json JNull) eq_refl)
       ltac:(vm_compute; lia)))).
Defined.

(** The end-to-end example of the specification: 12 records in shards of
    5 are planned as the start points 0, 5, 10; when all three succeed the
    call returns [True] with [succeeded = 15]. *)
Example twelve_records_shards_of_five :
  Shard.shard_starts 12 (Shard.effective_shard_size 5) = [0; 5; 10]
  /\ map (fun i => length (Shard.data_shard (seq 0 12) 5 i)) [0; 5; 10]
     = [5%nat; 5%nat; 2%nat]
  /\ upload AddEmbeddings 12 5 true
            (fun _ _ => Responded (mkResponse 200 (Json JNull))) wait_all 3
     = Returned true (mkState [] 0 15 0 [10; 5; 0] 3).
Proof. repeat split; vm_compute; reflexivity. Qed.

(** *** ID conflicts *)

Lemma conflict_step (s : Z) (tr : nat -> Z -> future_result)
    (st : state) (f : future) :
  reports_conflict (result_of tr f) -> process_future s tr st f = Next st.
Proof.
  intros (c & j & E & Hc & H1 & H2 & H3). unfold process_future.
  rewrite E. cbn [status_code resp_body].
  destruct (Z.eqb_spec c 200); [contradiction|]. cbn [negb].
  unfold inspect_json. now rewrite H1, H2, H3.
Qed.

Lemma conflict_pass (s : Z) (tr : nat -> Z -> future_result)
    (done : list future) (st : state) :
  (forall id p, reports_conflict (tr id p)) ->
  process_done s tr done st = Next st.
Proof.
  intros Hall. induction done as [|f rest IH]; simpl; [reflexivity|].
  rewrite conflict_step by apply Hall. exact IH.
Qed.

Lemma conflict_loop (s : Z) (tr : nat -> Z -> future_result)
    (sched : scheduler) (st : state) :
  (forall id p, reports_conflict (tr id p)) ->
  futures st <> [] ->
  forall fuel k, upload_loop s tr sched fuel k st = Diverged st.
Proof.
  intros Hall Hne fuel. induction fuel as [|fuel IH]; intros k; simpl;
    destruct (futures st) eqn:E; try congruence.
  rewrite conflict_pass by assumption. apply IH.
Qed.

(** [C1] (what the code does) When every shard of a non-empty dataset is
    answered by a non-200 that reports an ID conflict, the coordinator
    [continue]s past the deletion of the future: the dict never shrinks,
    no tally moves, and for every schedule and every amount of fuel the
    loop is still running in its initial state, with [succeeded = 0]. *)
Theorem id_conflict_never_finishes (m : method) (N S : Z) (own_pbar : bool)
    (transport : nat -> Z -> future_result) (sched : scheduler) (fuel : nat) :
  1 <= N -> 1 <= S ->
  (forall id p, reports_conflict (transport id p)) ->
  let st0 := initial_state N (Shard.effective_shard_size S) in
  upload m N S own_pbar transport sched fuel = Diverged st0
  /\ succeeded st0 = 0 /\ pbar st0 = [].
Proof.
  intros HN HS Hall st0.
  pose proof (effective_shard_size_pos S HS) as Hs.
  split; [|split; reflexivity].
  unfold upload. destruct (Z.eqb_spec (Shard.effective_shard_size S) 0); [lia|].
  fold st0.
  assert (Hne : futures st0 <> []).
  { intros E. pose proof (initial_state_length N _ ltac:(lia) (proj1 Hs)) as L.
    fold st0 in L. rewrite E in L. simpl in L.
    pose proof (shard_count_bounds N _ ltac:(lia) (proj1 Hs)). lia. }
  now rewrite conflict_loop.
Qed.

Lemma id_conflict_never_finishes_witness :
  upload AddText 3 1 true always_conflict wait_all 50
  = Diverged (initial_state 3 (Shard.effective_shard_size 1)).
Proof.
  refine (proj1 (id_conflict_never_finishes AddText 3 1 true always_conflict
                   wait_all 50 ltac:(lia) ltac:(lia) _)).
  intros id p. exists 409, (JStr ID_CONFLICT).
  repeat split; try reflexivity. lia.
Defined.

(** *** Gateway timeouts *)

Lemma timeout_step (s : Z) (tr : nat -> Z -> future_result)
    (st : state) (f : future) (t : string) :
  result_of tr f = Responded (mkResponse 504 (NotJson t)) ->
  failed st + succeeded st + (errors_504 st + s) <> 0 ->
  process_future s tr st f
  = if overloaded s (errors_504 st + s) (failed st) (succeeded st)
    then Raise (RuntimeError MSG_HIGH_LOAD)
           (mkState (futures st) (failed st) (succeeded st)
                    (errors_504 st + s) (pbar st) (submitted st))
    else Next
           (mkState (del_future f
                       (futures st ++ [mkFuture (submitted st) (start_point f)]))
                    (failed st) (succeeded st) (errors_504 st + s)
                    (pbar st) (S (submitted st))).
Proof.
  intros E Hne. unfold process_future. rewrite E. cbn [status_code resp_body].
  change (negb (504 =? 200)) with true. cbv iota.
  unfold inspect_status. change (504 =? 413) with false.
  change (504 =? 504) with true. cbv iota.
  cbn [count_504 failed succeeded errors_504].
  destruct (Z.eqb_spec (failed st + succeeded st + (errors_504 st + s)) 0);
    [contradiction|].
  reflexivity.
Qed.


(** [C2, amended] When the response of an in-flight shard has status 504
    and a body that is not JSON, the coordinator adds the shard size to the
    504 count and computes
    [transient_fraction = transient_count / (succeeded + failed +
    transient_count)].  If the fraction exceeds 0.25 and the count exceeds
    three shard sizes it raises the high-load [RuntimeError] with the dict
    and the submission count untouched, which ends the loop; otherwise it
    submits the same start point again as a new future and deletes the old
    one, leaving [succeeded], [failed] and the progress bar alone.  Nothing
    else is consulted: there is no per-shard retry count. *)
Theorem gateway_timeout_retry (s : Z) (tr : nat -> Z -> future_result)
    (st : state) (f : future) (t : string) :
  1 <= s -> 0 <= failed st -> 0 <= succeeded st -> 0 <= errors_504 st ->
  result_of tr f = Responded (mkResponse 504 (NotJson t)) ->
  let transient_count := errors_504 st + s in
  let transient_fraction :=
    failure_fraction transient_count (failed st) (succeeded st) in
  let escalate :=
    ((1 # 4) < transient_fraction)%Q /\ 3 * s < transient_count in
  let counted :=
    mkState (futures st) (failed st) (succeeded st) transient_count
            (pbar st) (submitted st) in
  let retried :=
    mkState (del_future f
               (futures st ++ [mkFuture (submitted st) (start_point f)]))
            (failed st) (succeeded st) transient_count
            (pbar st) (S (submitted st)) in
  (escalate ->
     process_future s tr st f = Raise (RuntimeError MSG_HIGH_LOAD) counted
     /\ forall sched fuel k rest,
          sched k (futures st) = f :: rest -> futures st <> [] ->
          upload_loop s tr sched (S fuel) k st
          = Raised (RuntimeError MSG_HIGH_LOAD) counted)
  /\ (~ escalate -> process_future s tr st f = Next retried).
Proof.
  intros Hs Hf Hsu He E transient_count transient_fraction escalate
         counted retried.
  assert (Hpos : 0 < failed st + succeeded st + transient_count)
    by (subst transient_count; lia).
  assert (Hp : process_future s tr st f
               = if overloaded s transient_count (failed st) (succeeded st)
                 then Raise (RuntimeError MSG_HIGH_LOAD) counted
                 else Next retried)
    by (apply (timeout_step s tr st f t); auto; lia).
  assert (Hov : overloaded s transient_count (failed st) (succeeded st) = true
                <-> escalate).
  { rewrite overloaded_spec by assumption. unfold escalate, transient_fraction.
    rewrite failure_fraction_gt by assumption.
    rewrite andb_true_iff, !Z.ltb_lt. lia. }
  split.
  - intros Hesc. apply Hov in Hesc. rewrite Hesc in Hp. split; [exact Hp|].
    intros sched fuel k rest Hd Hne. simpl.
    destruct (futures st) eqn:Ef; [congruence|].
    rewrite Hd. simpl. rewrite Hp. reflexivity.
  - intros Hno.
    destruct (overloaded s transient_count (failed st) (succeeded st));
      [exfalso; apply Hno, Hov; reflexivity|exact Hp].
Qed.

Lemma gateway_timeout_retry_witness :
  process_future 1000 timeout_plain (initial_state 2500 1000) (mkFuture 0 0)
  = Next (mkState [mkFuture 1 1000; mkFuture 2 2000; mkFuture 3 0]
                  0 0 1000 [] 4).
Proof.
  refine (proj2 (gateway_timeout_retry 1000 timeout_plain
                   (initial_state 2500 1000) (mkFuture 0 0) _
                   ltac:(lia) ltac:(simpl; lia) ltac:(simpl; lia)
                   ltac:(simpl; lia) eq_refl) _).
  intros [_ H]. simpl in H. lia.
Defined.

(** A 504 whose body is a JSON document is not resubmitted: the future is
    deleted, the 504 count stays at zero and the call returns [True] after
    the single initial submission. *)
Lemma gateway_timeout_json_not_retried :
  result_of timeout_json (mkFuture 0 0)
  = Responded (mkResponse 504 (Json (JDict [("detail", JStr "Gateway Timeout")])))
  /\ process_future 1 timeout_json (initial_state 1 1) (mkFuture 0 0)
     = Next (mkState [] 0 0 0 [] 1)
  /\ upload AddEmbeddings 1 1 true timeout_json wait_all 2
     = Returned true (mkState [] 0 0 0 [] 1).
Proof. repeat split; vm_compute; reflexivity. Qed.

(** One shard can be resubmitted many times: with 30 shards of one record
    answered 200, the shard at start point 0 is answered 504 ten times and
    then 200; the call returns [True] after 41 submissions. *)
Example ten_retries_of_one_shard :
  let tr := fun (id : nat) (p : Z) =>
    if (p =? 0) && (id <? 40)%nat
    then Responded (mkResponse 504 (NotJson ""))
    else Responded (mkResponse 200 (NotJson "")) in
  upload AddEmbeddings 31 1 true tr wait_first 100
  = Returned true
      (mkState [] 0 31 10
         (0 :: rev (map Z.of_nat (seq 1 30))) 41).
Proof. vm_compute. reflexivity. Qed.

(** *** Non-200 responses with a JSON body *)

(** [C8] For a shard whose response is not a 200 and has a body that
    parses as JSON: if the three membership tests (organization limit,
    transaction lock, ID conflict) are all negative, the future is deleted
    and nothing else changes: [succeeded], [failed], the 504 count, the
    progress bar and the number of submissions stay as they were (no
    tally, no retry, no progress).  Whatever the JSON body is, the pass
    never changes a tally, the 504 count, the progress bar or the number
    of submissions, so the 413 and 504 branches are not taken; these
    branches are taken when the body is not JSON. *)
Theorem unmatched_json_is_dropped (s : Z) (tr : nat -> Z -> future_result)
    (st : state) (f : future) (c : Z) (j : json) :
  result_of tr f = Responded (mkResponse c (Json j)) ->
  c <> 200 ->
  (py_in ORG_LIMIT j = Some false ->
   py_in LOCK_HELD j = Some false ->
   py_in ID_CONFLICT j = Some false ->
   process_future s tr st f
   = Next (mkState (del_future f (futures st)) (failed st) (succeeded st)
                   (errors_504 st) (pbar st) (submitted st)))
  /\ (let st' := state_of (process_future s tr st f) in
      failed st' = failed st /\ succeeded st' = succeeded st
      /\ errors_504 st' = errors_504 st /\ pbar st' = pbar st
      /\ submitted st' = submitted st
      /\ incl (futures st') (futures st))
  /\ (forall tr' t,
        result_of tr' f = Responded (mkResponse 413 (NotJson t)) ->
        failed (state_of (process_future s tr' st f)) = failed st + s)
  /\ (forall tr' t,
        result_of tr' f = Responded (mkResponse 504 (NotJson t)) ->
        errors_504 (state_of (process_future s tr' st f)) = errors_504 st + s).
Proof.
  intros E Hc.
  assert (Hp : process_future s tr st f = inspect_json j f st).
  { unfold process_future. rewrite E. cbn [status_code resp_body].
    destruct (Z.eqb_spec c 200); [contradiction|reflexivity]. }
  split; [|split; [|split]].
  - intros H1 H2 H3. rewrite Hp. unfold inspect_json.
    now rewrite H1, H2, H3.
  - rewrite Hp. unfold inspect_json.
    destruct (py_in ORG_LIMIT j) as [[|]|];
      [| destruct (py_in LOCK_HELD j) as [[|]|];
         [| destruct (py_in ID_CONFLICT j) as [[|]|] | ] | ];
      cbn; repeat split; try apply incl_refl.
    intros g Hg. apply in_del_future in Hg. tauto.
  - intros tr' t E'. unfold process_future. rewrite E'. reflexivity.
  - intros tr' t E'. unfold process_future. rewrite E'.
    cbn [status_code resp_body]. change (negb (504 =? 200)) with true.
    cbv iota. unfold inspect_status. change (504 =? 413) with false.
    change (504 =? 504) with true. cbv iota.
    destruct (_ =? 0); [reflexivity|].
    destruct (overloaded _ _ _ _); reflexivity.
Qed.

Lemma unmatched_json_is_dropped_witness :
  process_future 1000 server_error_json (initial_state 2500 1000)
                 (mkFuture 1 1000)
  = Next (mkState [mkFuture 0 0; mkFuture 2 2000] 0 0 0 [] 3).
Proof.
  exact (proj1 (unmatched_json_is_dropped 1000 server_error_json
                  (initial_state 2500 1000) (mkFuture 1 1000) 500
                  (JDict [("detail", JStr "Internal Server Error")])
                  eq_refl ltac:(lia))
               eq_refl eq_refl eq_refl).
Defined.

(** On a JSON body that is [null], a boolean or a number the membership
    test itself raises [TypeError], which leaves the method. *)
Lemma scalar_json_body_raises (s : Z) (tr : nat -> Z -> future_result)
    (st : state) (f : future) (c : Z) (j : json) :
  result_of tr f = Responded (mkResponse c (Json j)) ->
  c <> 200 ->
  py_in ORG_LIMIT j = None ->
  process_future s tr st f = Raise (TypeError MSG_NOT_ITERABLE) st.
Proof.
  intros E Hc H1. unfold process_future. rewrite E.
  cbn [status_code resp_body].
  destruct (Z.eqb_spec c 200); [contradiction|]. cbn [negb].
  unfold inspect_json. now rewrite H1.
Qed.

(** *** Progress *)

Lemma count_occ_del_future (f : future) (fs : list future) (p : Z) :
  NoDup (map fut_id fs) -> In f fs ->
  count_occ Z.eq_dec (map start_point fs) p
  = (count_occ Z.eq_dec (map start_point (del_future f fs)) p
     + if Z.eq_dec (start_point f) p then 1 else 0)%nat.
Proof.
  induction fs as [|g fs IH]; [simpl; tauto|].
  intros Hnd Hin. inversion Hnd as [|x l Hx Hnd']; subst.
  unfold del_future. cbn [filter map].
  change (filter (fun g0 => negb (future_eqb f g0)) fs) with (del_future f fs).
  destruct (future_eqb f g) eqn:E; unfold future_eqb in E; cbn [negb].
  - apply Nat.eqb_eq in E.
    assert (f = g) by (apply (same_id_same_future (g :: fs)); simpl; auto).
    subst g. rewrite del_future_absent by assumption.
    cbn [count_occ]. destruct (Z.eq_dec (start_point f) p); lia.
  - apply Nat.eqb_neq in E.
    destruct Hin as [->|Hin]; [congruence|].
    cbn [map count_occ]. rewrite (IH Hnd' Hin).
    destruct (Z.eq_dec (start_point g) p); lia.
Qed.




Lemma progress_step (s : Z) (tr : nat -> Z -> future_result)
    (starts : list Z) (st : state) (f : future) :
  no_json_failures tr ->
  wf st -> progress_inv starts st -> In f (futures st) ->
  match process_future s tr st f with
  | Next st' => progress_inv starts st'
  | Return _ _ => False
  | Raise _ _ => True
  end.
Proof.
  intros Hnj [Hnd Hlt] HI Hin.
  assert (Hsettled : forall v,
    progress_inv starts
      (remove_completed f
         (mkState (futures st) (failed st + fst v) (succeeded st + snd v)
                  (errors_504 st) (start_point f :: pbar st) (submitted st)))).
  { intros v p. specialize (HI p). cbn [remove_completed futures pbar].
    rewrite (count_occ_del_future f (futures st) p Hnd Hin) in HI.
    cbn [count_occ]. destruct (Z.eq_dec (start_point f) p); lia. }
  unfold process_future.
  destruct (result_of tr f) as [[c b]|e] eqn:E; [|exact I].
  cbn [status_code resp_body].
  destruct (Z.eqb_spec c 200) as [->|Hc]; cbn [negb].
  - pose proof (Hsettled (0, s)) as H. simpl in H.
    unfold count_succeeded. now rewrite Z.add_0_r in H.
  - destruct b as [t|j]; [|exfalso; apply Hc; eapply Hnj; exact E].
    unfold inspect_status.
    pose proof (Hsettled (s, 0)) as H. simpl in H. rewrite Z.add_0_r in H.
    destruct (c =? 413); [exact H|].
    destruct (c =? 504); [|exact H].
    destruct (_ =? 0); [exact I|].
    destruct (overloaded _ _ _ _); [exact I|].
    intros p. specialize (HI p).
    cbn [remove_completed resubmit count_504 futures pbar submitted].
    assert (Hin' : In f (futures st ++ [mkFuture (submitted st) (start_point f)]))
      by (apply in_app_iff; now left).
    assert (Hnd' : NoDup (map fut_id
               (futures st ++ [mkFuture (submitted st) (start_point f)]))).
    { rewrite map_app. simpl.
      apply NoDup_app; [assumption|repeat constructor; simpl; tauto|].
      intros x Hx [<-|[]]. apply in_map_iff in Hx.
      destruct Hx as (g & Eg & Hg). rewrite Forall_forall in Hlt.
      specialize (Hlt g Hg). simpl in Eg. lia. }
    pose proof (count_occ_del_future f _ p Hnd' Hin') as Hc'.
    rewrite map_app, count_occ_app in Hc'. cbn [map count_occ] in Hc'.
    cbn [start_point] in Hc'.
    destruct (Z.eq_dec (start_point f) p); lia.
Qed.

Lemma initial_progress_inv (N s : Z) :
  progress_inv (Shard.shard_starts N s) (initial_state N s).
Proof.
  intros p. unfold initial_state. cbn [pbar futures].
  now rewrite submit_all_starts.
Qed.






Lemma two_timeouts_then_ok_plain : no_json_failures two_timeouts_then_ok.
Proof.
  intros id p c j. unfold two_timeouts_then_ok.
  destruct (id <? 2)%nat; discriminate.
Qed.


(** One shard of three is answered 500 with a JSON body: the call returns
    [True], the bar has advanced for the other two shards and not for
    this one, and no tally counts it. *)
Example one_json_failure_among_successes :
  upload AddEmbeddings 2500 1000 true json_error_at_1000 wait_all 3
  = Returned true (mkState [] 0 2000 0 [2000; 0] 3).
Proof. vm_compute. reflexivity. Qed.


(** *** The organization limit *)

Lemma limit_step (s : Z) (tr : nat -> Z -> future_result)
    (st : state) (f : future) :
  reports_limit (result_of tr f) -> process_future s tr st f = Return false st.
Proof.
  intros (c & j & E & Hc & H1). unfold process_future. rewrite E.
  cbn [status_code resp_body].
  destruct (Z.eqb_spec c 200); [contradiction|]. cbn [negb].
  unfold inspect_json. now rewrite H1.
Qed.

Lemma settles_step (s : Z) (tr : nat -> Z -> future_result)
    (st : state) (f : future) :
  settles (result_of tr f) ->
  exists st', process_future s tr st f = Next st'
              /\ futures st' = del_future f (futures st)
              /\ submitted st' = submitted st
              /\ errors_504 st' = errors_504 st.
Proof.
  intros [(b & E)|(c & t & E & Hc & Hc')]; unfold process_future; rewrite E;
    cbn [status_code resp_body].
  - eexists. split; [reflexivity|]. repeat split.
  - destruct (Z.eqb_spec c 200); [contradiction|]. cbn [negb].
    unfold inspect_status.
    destruct (c =? 413); [eexists; split; [reflexivity|repeat split]|].
    destruct (Z.eqb_spec c 504); [contradiction|].
    eexists; split; [reflexivity|repeat split].
Qed.

Lemma limit_not_settles (r : future_result) :
  reports_limit r -> settles r -> False.
Proof.
  intros (c & j & E & Hc & _) [(b & E')|(c' & t & E' & _)];
    rewrite E in E'; inversion E'; subst; contradiction.
Qed.

(** [C4, amended] When the coordinator of [add_text] / [add_embeddings]
    meets a response that is not a 200, whose body parses as JSON and on
    which the test ["more datums exceeds your organization limit" in
    response.json()] is positive, the method returns [False] at once,
    with the tallies, the dict and the number of submissions as they were
    (the futures still in the dict are left to the shutdown of the pool).
    Consequently a call in which every other response ends its shard with
    a tally, and at least one planned shard gets such a response, returns
    [False] for every schedule, without any submission beyond the initial
    ones.  The loop of [AtlasClient.add_embeddings] returns [False] on
    such a response as well, after advancing its progress bar. *)
Theorem organization_limit_returns_false (m : method) (N S : Z)
    (own_pbar : bool) (transport : nat -> Z -> future_result)
    (sched : scheduler) (fuel : nat) :
  0 <= N -> 1 <= S -> valid_scheduler sched ->
  let s := Shard.effective_shard_size S in
  (forall tr st f, reports_limit (result_of tr f) ->
      process_future s tr st f = Return false st)
  /\ ((forall id p, reports_limit (transport id p) \/ settles (transport id p)) ->
      (exists f0, In f0 (futures (initial_state N s))
                  /\ reports_limit (result_of transport f0)) ->
      (Z.to_nat (Shard.shard_count N s) <= fuel)%nat ->
      exists st,
        upload m N S own_pbar transport sched fuel = Returned false st
        /\ submitted st = length (Shard.shard_starts N s)
        /\ errors_504 st = 0)
  /\ (forall tr st f, reports_limit (result_of tr f) ->
      Legacy.process_future tr st f
      = Legacy.Return false
          (Legacy.mkState (Legacy.failed st) (start_point f :: Legacy.pbar st))).
Proof.
  intros HN HS Hsched s.
  pose proof (effective_shard_size_pos S HS) as Hs. fold s in Hs.
  split; [intros; now apply limit_step|]. split.
  - intros Hall (f0 & Hf0 & Hlim) Hfuel.
    set (n0 := length (Shard.shard_starts N s)).
    set (Inv := fun st : state =>
           In f0 (futures st) /\ submitted st = n0 /\ errors_504 st = 0).
    set (Stop := fun c : control =>
           exists st, c = Return false st /\ submitted st = n0
                      /\ errors_504 st = 0).
    assert (Hstep : forall st f, wf st -> Inv st -> In f (futures st) ->
              match process_future s transport st f with
              | Next st' => Inv st'
              | c => Stop c
              end).
    { intros st f Hwf (Hin0 & Hsub & Herr) Hin.
      destruct (Hall (fut_id f) (start_point f)) as [Hl|Hse].
      - rewrite limit_step by exact Hl. exists st. auto.
      - destruct (settles_step s transport st f Hse)
          as (st' & -> & Ef & Es & Ee).
        unfold Inv. rewrite Ef, Es, Ee. repeat split; auto.
        apply in_del_future. split; [assumption|].
        intros Eid.
        assert (f0 = f)
          by (apply (same_id_same_future (futures st)); auto; apply Hwf).
        subst f0. exact (limit_not_settles _ Hlim Hse). }
    assert (Hsettle : forall st st' f, wf st -> Inv st -> In f (futures st) ->
              process_future s transport st f = Next st' ->
              futures st' = del_future f (futures st)).
    { intros st st' f _ _ _ Hp.
      destruct (Hall (fut_id f) (start_point f)) as [Hl|Hse].
      - rewrite limit_step in Hp by exact Hl. discriminate.
      - destruct (settles_step s transport st f Hse) as (st1 & Hp1 & Ef & _).
        congruence. }
    assert (HI0 : Inv (initial_state N s)) by (repeat split; auto).
    pose proof (upload_loop_safe s transport sched Hsched Inv Stop Hstep
                  fuel 0%nat (initial_state N s)
                  (initial_state_wf N s) HI0) as Hsafe.
    pose proof (upload_loop_total s transport sched Hsched Inv Stop Hstep
                  Hsettle fuel 0%nat (initial_state N s)
                  (initial_state_wf N s) HI0) as Htot.
    assert (Hlen : (length (futures (initial_state N s)) <= fuel)%nat).
    { pose proof (initial_state_length N s HN ltac:(lia)). lia. }
    specialize (Htot Hlen).
    unfold upload. fold s. destruct (Z.eqb_spec s 0); [lia|].
    destruct (upload_loop s transport sched fuel 0 (initial_state N s))
      as [b st|e st|st|st]; simpl in Hsafe.
    + destruct Hsafe as (st1 & E1 & Hsub & Herr). inversion E1; subst.
      exists st1. auto.
    + destruct Hsafe as (st1 & E1 & _). discriminate.
    + destruct Hsafe as [(Hin0 & _) Hnil]. rewrite Hnil in Hin0. destruct Hin0.
    + exfalso. now apply (Htot st).
  - intros tr st f (c & j & E & Hc & H1). unfold Legacy.process_future.
    rewrite E. cbn [status_code resp_body].
    destruct (Z.eqb_spec c 200); [contradiction|]. cbn [negb].
    now rewrite H1.
Qed.

Lemma organization_limit_returns_false_witness :
  exists st,
    upload AddEmbeddings 5 5 true limit_reached wait_all 1 = Returned false st
    /\ submitted st = length (Shard.shard_starts 5 (Shard.effective_shard_size 5))
    /\ errors_504 st = 0.
Proof.
  refine (proj1 (proj2
    (organization_limit_returns_false AddEmbeddings 5 5 true limit_reached
       wait_all 1 ltac:(lia) ltac:(lia) wait_all_valid)) _ _ _).
  - intros id p. left. eexists _, _.
    split; [reflexivity|split; [discriminate|reflexivity]].
  - exists (mkFuture 0 0). split; [now left|]. eexists _, _.
    split; [reflexivity|split; [discriminate|reflexivity]].
  - vm_compute. lia.
Defined.

(** A non-200 response whose body contains the phrase but is not JSON is
    counted as a failed shard; [add_embeddings] then returns [True]. *)
Lemma organization_limit_text_not_recognised :
  str_contains "Adding 5 more datums exceeds your organization limit" ORG_LIMIT
  = true
  /\ upload AddEmbeddings 5 5 true limit_plain_text wait_all 2
     = Returned true (mkState [] 5 0 0 [0] 1).
Proof. split; vm_compute; reflexivity. Qed.

(** The membership test on a JSON object looks at its keys. *)
Example membership_test_on_object :
  py_in ORG_LIMIT
    (JDict [("detail", JStr "Adding 5 more datums exceeds your organization limit")])
  = Some false
  /\ py_in ORG_LIMIT (JDict [(ORG_LIMIT, JNull)]) = Some true
  /\ py_in ORG_LIMIT (JList [JStr ORG_LIMIT]) = Some true
  /\ py_in ORG_LIMIT (JStr "5 more datums exceeds your organization limit.")
     = Some true.
Proof. repeat split; vm_compute; reflexivity. Qed.

(** *** The return value *)

(** [C5] (what the code does) In a call in which every response ends its
    shard with a tally and at least one planned shard ends in a permanent
    failure (413 or another status, body not JSON), the loop runs to its
    end with [failed > 0]; [add_embeddings] then returns [True], but
    [add_text] raises [TypeError] while formatting its warning
    ([len(failed)] on an [int]) and returns nothing. *)
Theorem partial_failure_breaks_add_text (N S : Z) (own_pbar : bool)
    (transport : nat -> Z -> future_result) (sched : scheduler) (fuel : nat) :
  0 <= N -> 1 <= S -> valid_scheduler sched ->
  let s := Shard.effective_shard_size S in
  (forall id p, settles (transport id p)) ->
  (exists f0, In f0 (futures (initial_state N s))
              /\ permanent_failure (result_of transport f0)) ->
  (Z.to_nat (Shard.shard_count N s) <= fuel)%nat ->
  exists st,
    0 < failed st
    /\ upload AddEmbeddings N S own_pbar transport sched fuel = Returned true st
    /\ upload AddText N S own_pbar transport sched fuel
       = Raised (TypeError MSG_LEN_OF_INT) st.
Proof.
  intros HN HS Hsched s Hall (f0 & Hf0 & Hfail) Hfuel.
  pose proof (effective_shard_size_pos S HS) as Hs. fold s in Hs.
  set (Inv := fun st : state =>
         0 <= failed st /\ (0 < failed st \/ In f0 (futures st))).
  assert (Hstep : forall st f, wf st -> Inv st -> In f (futures st) ->
            match process_future s transport st f with
            | Next st' => Inv st'
            | _ => False
            end).
  { intros st f Hwf (Hnn & Hor) Hin. unfold process_future.
    destruct (Hall (fut_id f) (start_point f))
      as [(b & E)|(c & t & E & Hc & Hc')]; unfold result_of; rewrite E;
      cbn [status_code resp_body].
    - cbn. split; [assumption|]. destruct Hor as [|Hin0]; [now left|].
      right. apply in_del_future. split; [assumption|]. intros Eid.
      assert (f0 = f)
        by (apply (same_id_same_future (futures st)); auto; apply Hwf).
      subst f0. destruct Hfail as (c & t & E' & Hc & _).
      unfold result_of in E'. rewrite E in E'. inversion E'; subst.
      contradiction.
    - destruct (Z.eqb_spec c 200); [contradiction|]. cbn [negb].
      unfold inspect_status.
      destruct (Z.eqb_spec c 504); [contradiction|].
      destruct (c =? 413); unfold Inv; cbn; (split; [lia|left; lia]). }
  assert (Hsettle : forall st st' f, wf st -> Inv st -> In f (futures st) ->
            process_future s transport st f = Next st' ->
            futures st' = del_future f (futures st)).
  { intros st st' f _ _ _ Hp.
    destruct (settles_step s transport st f (Hall _ _)) as (st1 & Hp1 & Ef & _).
    congruence. }
  assert (HI0 : Inv (initial_state N s)) by (split; [simpl; lia|now right]).
  pose proof (upload_loop_safe s transport sched Hsched Inv (fun _ => False)
                Hstep fuel 0%nat (initial_state N s)
                (initial_state_wf N s) HI0) as Hsafe.
  pose proof (upload_loop_total s transport sched Hsched Inv (fun _ => False)
                Hstep Hsettle fuel 0%nat (initial_state N s)
                (initial_state_wf N s) HI0) as Htot.
  assert (Hlen : (length (futures (initial_state N s)) <= fuel)%nat).
  { pose proof (initial_state_length N s HN ltac:(lia)). lia. }
  specialize (Htot Hlen).
  unfold upload. fold s. destruct (Z.eqb_spec s 0); [lia|].
  destruct (upload_loop s transport sched fuel 0 (initial_state N s))
    as [b st|e st|st|st]; simpl in Hsafe; try contradiction.
  - destruct Hsafe as [(Hnn & Hor) Hnil]. rewrite Hnil in Hor.
    destruct Hor as [Hpos|[]]. exists st. split; [assumption|].
    unfold finish. destruct (Z.eqb_spec (failed st) 0); [lia|].
    split; reflexivity.
  - exfalso. now apply (Htot st).
Qed.

Lemma partial_failure_breaks_add_text_witness :
  exists st,
    0 < failed st
    /\ upload AddEmbeddings 1 1 true payload_too_large wait_all 1
       = Returned true st
    /\ upload AddText 1 1 true payload_too_large wait_all 1
       = Raised (TypeError MSG_LEN_OF_INT) st.
Proof.
  refine (partial_failure_breaks_add_text 1 1 true payload_too_large wait_all 1
            ltac:(lia) ltac:(lia) wait_all_valid _ _ _).
  - intros id p. right. eexists _, _.
    split; [reflexivity|split; discriminate].
  - exists (mkFuture 0 0). split; [now left|]. eexists _, _.
    split; [reflexivity|split; discriminate].
  - vm_compute. lia.
Defined.

(** The failing call, evaluated: one record, one shard, answered 413. *)
Example add_text_one_failed_shard :
  upload AddText 1 1 true payload_too_large wait_all 1
  = Raised (TypeError MSG_LEN_OF_INT) (mkState [] 1 0 0 [0] 1)
  /\ upload AddEmbeddings 1 1 true payload_too_large wait_all 1
     = Returned true (mkState [] 1 0 0 [0] 1).
Proof. split; vm_compute; reflexivity. Qed.

(* ================================================================= *)
(** ** Facts about the validator                                      *)
(* ================================================================= *)

Import Validator.

Lemma dict_get_set_same (k : string) (v : value) (d : datum) :
  dict_get k (dict_set k v d) = Some v.
Proof.
  induction d as [|[k' v'] d IH]; simpl.
  - now rewrite String.eqb_refl.
  - destruct (String.eqb_spec k k') as [->|Hne]; simpl.
    + now rewrite String.eqb_refl.
    + destruct (String.eqb_spec k k'); [contradiction|exact IH].
Qed.

Lemma dict_get_set_other (k k' : string) (v : value) (d : datum) :
  k' <> k -> dict_get k' (dict_set k v d) = dict_get k' d.
Proof.
  intros Hne. induction d as [|[k0 v0] d IH]; simpl.
  - destruct (String.eqb_spec k' k); [contradiction|reflexivity].
  - destruct (String.eqb_spec k k0) as [->|Hk]; simpl.
    + destruct (String.eqb_spec k' k0); [contradiction|reflexivity].
    + destruct (String.eqb_spec k' k0); [reflexivity|exact IH].
Qed.

Lemma dict_mem_get (k : string) (d : datum) :
  dict_mem k d = true <-> exists v, dict_get k d = Some v.
Proof.
  unfold dict_mem, keys. induction d as [|[k' v'] d IH]; simpl.
  - split; [discriminate|intros [v Hv]; discriminate].
  - destruct (String.eqb_spec k k') as [->|Hne]; simpl.
    + split; [intros _; now exists v'|reflexivity].
    + exact IH.
Qed.

Lemma dict_mem_false_get (k : string) (d : datum) :
  dict_mem k d = false <-> dict_get k d = None.
Proof.
  pose proof (dict_mem_get k d) as H.
  destruct (dict_mem k d), (dict_get k d) as [v|]; split; intros E;
    try reflexivity; try discriminate.
  - destruct (proj1 H eq_refl) as [v Hv]. discriminate.
  - assert (false = true) by (apply H; now exists v). discriminate.
Qed.

Lemma dict_get_in_keys (k : string) (d : datum) (v : value) :
  dict_get k d = Some v -> In k (keys d).
Proof.
  unfold keys. induction d as [|[k' v'] d IH]; simpl; [discriminate|].
  destruct (String.eqb_spec k k') as [->|Hne]; [now left|].
  intros H. right. now apply IH.
Qed.

Lemma keys_dict_set (k : string) (v v0 : value) (d : datum) :
  dict_get k d = Some v0 -> keys (dict_set k v d) = keys d.
Proof.
  unfold keys. induction d as [|[k' v'] d IH]; simpl; [discriminate|].
  destruct (String.eqb_spec k k') as [->|Hne]; simpl; [reflexivity|].
  intros H. f_equal. now apply IH.
Qed.

(** *** The generated identifiers *)

Lemma uuid_str_length (i : Z) : String.length (uuid_str i) = 36%nat.
Proof.
  cbv [uuid_str hex substring append String.length]. reflexivity.
Qed.

Lemma uuid4_length (random : Z) : String.length (uuid4 random) = 36%nat.
Proof. apply uuid_str_length. Qed.

Lemma uuid4_not_empty (random : Z) : is_empty_str (VStr (uuid4 random)) = false.
Proof. unfold is_empty_str. now rewrite uuid4_length. Qed.

(** The version nibble of the generated integer is 4. *)
Lemma uuid4_version_bits (random : Z) :
  (uuid4_int random / 16 ^ 19) mod 16 = 4.
Proof.
  change (16 ^ 19) with (2 ^ 76). change 16 with (2 ^ 4).
  rewrite <- Z.shiftr_div_pow2, <- Z.land_ones by lia.
  apply Z.bits_inj'. intros n Hn.
  rewrite Z.land_spec, Z.shiftr_spec by lia.
  destruct (Z_lt_le_dec n 4) as [Hlt|Hge].
  - unfold uuid4_int.
    rewrite Z.lor_spec, Z.land_spec, Z.lnot_spec, !Z.shiftl_spec by lia.
    replace (n + 76 - 64) with (n + 12) by lia.
    replace (n + 76 - 76) with n by lia.
    assert (Hcases : n = 0 \/ n = 1 \/ n = 2 \/ n = 3) by lia.
    destruct Hcases as [-> | [-> | [-> | ->]]]; cbn [Z.testbit Z.add Z.ones];
      rewrite ?andb_false_r; reflexivity.
  - rewrite (Z.bits_above_log2 (Z.ones 4) n) by (cbn; lia).
    rewrite (Z.bits_above_log2 4 n) by (cbn; lia).
    apply andb_false_r.
Qed.

Lemma uuid4_version_char (random : Z) :
  String.get 14 (uuid4 random) = Some "4"%char
  /\ String.get 8 (uuid4 random) = Some "-"%char
  /\ String.get 13 (uuid4 random) = Some "-"%char
  /\ String.get 18 (uuid4 random) = Some "-"%char
  /\ String.get 23 (uuid4 random) = Some "-"%char.
Proof.
  unfold uuid4.
  cbv [uuid_str hex substring append String.get].
  repeat split.
  change (Z.of_nat 19) with 19. now rewrite uuid4_version_bits.
Qed.

(** The identifier shows the draw: [str(uuid.uuid4())] prints every bit
    of the 16 random bytes but the six it overwrites. *)

Lemma hex_digit_inj (a b : Z) :
  0 <= a < 16 -> 0 <= b < 16 -> hex_digit a = hex_digit b -> a = b.
Proof.
  intros Ha Hb H. apply (f_equal nat_of_ascii) in H. unfold hex_digit in H.
  destruct (Z.ltb_spec a 10), (Z.ltb_spec b 10);
    rewrite !nat_ascii_embedding in H by lia; lia.
Qed.

Lemma hex_digits (n : nat) (i j : Z) :
  hex n i = hex n j ->
  forall k, (k < n)%nat ->
    (i / 16 ^ Z.of_nat k) mod 16 = (j / 16 ^ Z.of_nat k) mod 16.
Proof.
  induction n as [|n IH]; intros H k Hk; [lia|].
  cbn [hex] in H. injection H as Hd Ht.
  destruct (Nat.eq_dec k n) as [->|Hne].
  - apply hex_digit_inj; [apply Z.mod_pos_bound; lia..|exact Hd].
  - apply IH; [exact Ht|lia].
Qed.

Lemma uuid_str_hex (i j : Z) : uuid_str i = uuid_str j -> hex 32 i = hex 32 j.
Proof.
  intros H. cbv [uuid_str hex substring append] in H.
  injection H. intros. cbv [hex]. congruence.
Qed.

Lemma hex_bits (i j : Z) :
  hex 32 i = hex 32 j ->
  forall n, 0 <= n < 128 -> Z.testbit i n = Z.testbit j n.
Proof.
  intros H n Hn.
  pose proof (hex_digits 32 i j H (Z.to_nat (n / 4))) as Hd.
  assert (Hk : 0 <= n / 4 < 32) by (split; [apply Z.div_pos; lia|apply Z.div_lt_upper_bound; lia]).
  specialize (Hd ltac:(lia)). rewrite Z2Nat.id in Hd by lia.
  replace (16 ^ (n / 4)) with (2 ^ (4 * (n / 4))) in Hd
    by (rewrite Z.pow_mul_r by lia; reflexivity).
  change 16 with (2 ^ 4) in Hd.
  rewrite <- !Z.shiftr_div_pow2 in Hd by lia.
  apply (f_equal (fun z => Z.testbit z (n mod 4))) in Hd.
  pose proof (Z.mod_pos_bound n 4 ltac:(lia)) as Hr.
  rewrite !Z.mod_pow2_bits_low, !Z.shiftr_spec in Hd by lia.
  pose proof (Z.div_mod n 4 ltac:(lia)) as E.
  replace (n mod 4 + 4 * (n / 4)) with n in Hd by lia. exact Hd.
Qed.

Ltac small_testbit m :=
  destruct (Z_lt_le_dec m 0) as [?|?];
    [rewrite Z.testbit_neg_r by lia
    |destruct (Z_lt_le_dec m 16) as [?|?];
       [let H := fresh in
        assert (H : m = 0 \/ m = 1 \/ m = 2 \/ m = 3 \/ m = 4 \/ m = 5
                    \/ m = 6 \/ m = 7 \/ m = 8 \/ m = 9 \/ m = 10 \/ m = 11
                    \/ m = 12 \/ m = 13 \/ m = 14 \/ m = 15) by lia;
        repeat (destruct H as [H|H]); subst m; reflexivity
       |rewrite Z.bits_above_log2 by (cbn; lia)]];
  symmetry; apply Bool.andb_false_iff;
  rewrite ?Z.leb_gt; lia.

Lemma testbit_49152 (m : Z) : Z.testbit 49152 m = (14 <=? m) && (m <=? 15).
Proof. small_testbit m. Qed.
Lemma testbit_32768 (m : Z) : Z.testbit 32768 m = (15 <=? m) && (m <=? 15).
Proof. small_testbit m. Qed.
Lemma testbit_61440 (m : Z) : Z.testbit 61440 m = (12 <=? m) && (m <=? 15).
Proof. small_testbit m. Qed.
Lemma testbit_4 (m : Z) : Z.testbit 4 m = (2 <=? m) && (m <=? 2).
Proof. small_testbit m. Qed.

Lemma uuid4_int_random_bits (r n : Z) :
  random_bit n = true -> Z.testbit (uuid4_int r) n = Z.testbit r n.
Proof.
  unfold random_bit. rewrite !andb_true_iff, !negb_true_iff, !andb_false_iff.
  rewrite Z.leb_le, Z.ltb_lt, !Z.leb_gt.
  intros [[[H0 H1] H2] H3].
  unfold uuid4_int.
  rewrite Z.lor_spec, Z.land_spec, Z.lor_spec, Z.land_spec, !Z.lnot_spec,
    !Z.shiftl_spec by lia.
  rewrite testbit_49152, testbit_32768, testbit_61440, testbit_4.
  rewrite Z.mod_pow2_bits_low by lia.
  repeat match goal with
         | |- context [?a <=? ?b] => destruct (Z.leb_spec a b); try lia
         end;
    cbn [andb orb negb]; rewrite ?andb_true_r, ?orb_false_r; reflexivity.
Qed.

Lemma uuid4_keeps_the_draw (r1 r2 : Z) :
  uuid4 r1 = uuid4 r2 ->
  forall n, random_bit n = true -> Z.testbit r1 n = Z.testbit r2 n.
Proof.
  intros H n Hn. unfold uuid4 in H. apply uuid_str_hex in H.
  rewrite <- (uuid4_int_random_bits r1 n Hn), <- (uuid4_int_random_bits r2 n Hn).
  apply hex_bits; [exact H|].
  unfold random_bit in Hn. rewrite !andb_true_iff in Hn.
  destruct Hn as [[[H0 H1] _] _]. apply Z.leb_le in H0. apply Z.ltb_lt in H1. lia.
Qed.

Lemma draws_differ_uuid4 (r1 r2 : Z) :
  draws_differ r1 r2 -> uuid4 r1 <> uuid4 r2.
Proof.
  intros (n & Hn & Hne) H. apply Hne. now apply uuid4_keeps_the_draw.
Qed.

Lemma evolves_same (DEFAULT_ID : string) (urandom : nat -> Z)
    (proj : project) (replace : bool) (d : datum) :
  Validator.evolves DEFAULT_ID urandom proj replace d d.
Proof. intros key. now left. Qed.

Section ValidatorFacts.

Variable DEFAULT_ID : string.
Variable fromisoformat : string -> bool.
Variable urandom : nat -> Z.
Variable proj : project.
Variable replace : bool.

Local Abbreviation check_id := (Validator.check_id DEFAULT_ID urandom proj).
Local Abbreviation check_key := (Validator.check_key fromisoformat proj replace).
Local Abbreviation check_keys := (Validator.check_keys fromisoformat proj replace).
Local Abbreviation validate_datum :=
  (Validator.validate_datum DEFAULT_ID fromisoformat urandom proj replace).
Local Abbreviation validate_from :=
  (Validator.validate_from DEFAULT_ID fromisoformat urandom proj replace).
Local Abbreviation validate_and_correct :=
  (Validator.validate_and_correct DEFAULT_ID fromisoformat urandom proj replace).
Local Abbreviation changed_to :=
  (Validator.changed_to DEFAULT_ID urandom proj replace).
Local Abbreviation evolves := (Validator.evolves DEFAULT_ID urandom proj replace).
Local Abbreviation heap_evolves :=
  (Validator.heap_evolves DEFAULT_ID urandom proj replace).
Local Abbreviation settled := (Validator.settled proj).

Lemma evolves_refl (d : datum) : evolves d d.
Proof. apply evolves_same. Qed.

Lemma evolves_trans (d1 d2 d3 : datum) :
  evolves d1 d2 -> evolves d2 d3 -> evolves d1 d3.
Proof.
  intros H12 H23 key. specialize (H12 key). specialize (H23 key).
  unfold changed_to in *.
  destruct H23 as [->|[(E2 & E3 & Ht & Hr)|(E2 & Hk & Hd & i & E3)]];
    [exact H12| |].
  - destruct H12 as [E|[(E1 & E2' & _)|(E1 & _ & _ & i & E2')]].
    + right; left. rewrite <- E, E2. auto.
    + rewrite E2 in E2'. discriminate.
    + rewrite E2 in E2'. injection E2' as E2'.
      pose proof (uuid4_length (urandom i)) as L. rewrite <- E2' in L.
      discriminate.
  - destruct H12 as [E|[(E1 & E2' & _)|(E1 & _ & _ & i' & E2')]].
    + right; right. rewrite <- E, E2. repeat split; auto. now exists i.
    + rewrite E2 in E2'. discriminate.
    + rewrite E2 in E2'. discriminate.
Qed.

Lemma heap_evolves_refl (h : store) : heap_evolves h h.
Proof. intros b. apply evolves_refl. Qed.

Lemma heap_evolves_trans (h1 h2 h3 : store) :
  heap_evolves h1 h2 -> heap_evolves h2 h3 -> heap_evolves h1 h3.
Proof. intros H12 H23 b. eapply evolves_trans; [apply H12|apply H23]. Qed.

Lemma heap_evolves_set (h : store) (a : nat) (d : datum) :
  evolves (h a) d -> heap_evolves h (store_set h a d).
Proof.
  intros H b. unfold store_set.
  destruct (Nat.eqb_spec b a) as [->|_]; [exact H|apply evolves_refl].
Qed.

Lemma settled_evolves (d d' : datum) :
  settled d -> evolves d d' -> settled d'.
Proof.
  intros [Hmem Hne] Hev. split.
  - apply dict_mem_get in Hmem. destruct Hmem as [v Hv].
    apply dict_mem_get.
    destruct (Hev (id_field proj)) as [E|[(_ & E & _)|(E & _)]].
    + exists v. congruence.
    + eauto.
    + congruence.
  - intros Ht key v Hv.
    destruct (Hev key) as [E|[(_ & E & _)|(_ & _ & _ & i & E)]].
    + apply (Hne Ht key). congruence.
    + rewrite Hv in E. now injection E as ->.
    + rewrite Hv in E. injection E as ->. apply uuid4_not_empty.
Qed.

(** The id check. *)
Lemma check_id_spec (d : datum) (n : nat) :
  match check_id d n with
  | (d', n', None) =>
      evolves d d' /\ dict_mem (id_field proj) d' = true
      /\ (dict_mem (id_field proj) d = true -> d' = d /\ n' = n)
      /\ (dict_mem (id_field proj) d = false ->
          id_field proj = DEFAULT_ID
          /\ d' = dict_set (id_field proj) (VStr (uuid4 (urandom n))) d
          /\ n' = S n)
  | (d', n', Some e) =>
      d' = d /\ n' = n
      /\ (dict_mem (id_field proj) d = false ->
          id_field proj <> DEFAULT_ID /\ e = KeyError (id_field proj))
  end.
Proof.
  unfold Validator.check_id.
  destruct (dict_mem (id_field proj) d) eqn:Hmem.
  - destruct (dict_get (id_field proj) d) as [v|] eqn:Hget.
    + destruct (36 <? String.length (py_str v))%nat.
      * repeat split; discriminate.
      * repeat split; auto using evolves_refl; discriminate.
    + repeat split; discriminate.
  - destruct (String.eqb_spec (id_field proj) DEFAULT_ID) as [E|E].
    + split; [|split; [|split; [discriminate|auto]]].
      * intros key. destruct (String.eqb_spec key (id_field proj)) as [->|Hne].
        -- right; right. rewrite dict_get_set_same.
           apply dict_mem_false_get in Hmem. repeat split; eauto.
        -- left. now apply dict_get_set_other.
      * apply dict_mem_get. rewrite dict_get_set_same. eauto.
    + rewrite (proj1 (dict_mem_false_get _ _) Hmem). repeat split; auto.
Qed.

Lemma nonempty_at_evolves (d d' : datum) (key : string) :
  nonempty_at d key -> evolves d d' -> nonempty_at d' key.
Proof.
  intros Hne Hev v Hv.
  destruct (Hev key) as [E|[(_ & E & _)|(_ & _ & _ & i & E)]].
  - apply Hne. congruence.
  - rewrite Hv in E. now injection E as ->.
  - rewrite Hv in E. injection E as ->. apply uuid4_not_empty.
Qed.

Lemma is_empty_str_spec (v : value) :
  is_empty_str v = true -> v = VStr "".
Proof.
  destruct v as [s| | | |]; try discriminate.
  destruct s; [reflexivity|discriminate].
Qed.

(** The checks on one key. *)
Lemma check_key_spec (dk : list string) (key : string) (d : datum) :
  match check_key dk key d with
  | (d', r) =>
      evolves d d' /\ keys d' = keys d
      /\ (r = None -> modality proj = "text" -> nonempty_at d' key)
  end.
Proof.
  unfold Validator.check_key.
  destruct (startswith key "_");
    [repeat split; auto using evolves_refl; discriminate|].
  destruct (dict_get key d) as [v|] eqn:Hget;
    [|repeat split; auto using evolves_refl; discriminate].
  destruct (existsb (String.eqb key) dk && negb (fromisoformat (py_str v)));
    [repeat split; auto using evolves_refl; discriminate|].
  destruct (String.eqb_spec (modality proj) "text") as [Ht|Ht]; cbn [andb].
  - destruct (is_empty_str v) eqn:Hemp.
    + destruct replace eqn:Hr.
      * rewrite dict_get_set_same. cbn [is_scalar negb].
        split; [|split].
        -- intros k. destruct (String.eqb_spec k key) as [->|Hne].
           ++ right; left. rewrite dict_get_set_same, Hget.
              apply is_empty_str_spec in Hemp. subst v. auto.
           ++ left. now apply dict_get_set_other.
        -- now apply keys_dict_set with (v0 := v).
        -- intros _ _ v' Hv'. rewrite dict_get_set_same in Hv'.
           now injection Hv' as <-.
      * repeat split; auto using evolves_same; discriminate.
    + rewrite Hget. destruct (negb (is_scalar v));
        [repeat split; auto using evolves_refl; discriminate|].
      repeat split; auto using evolves_refl.
      intros _ _ v' Hv'. congruence.
  - rewrite Hget. destruct (negb (is_scalar v));
      repeat split; auto using evolves_refl; try discriminate.
    intros _ Ht'. contradiction.
Qed.

Lemma check_keys_spec (dk ks : list string) (d : datum) :
  match check_keys dk ks d with
  | (d', r) =>
      evolves d d' /\ keys d' = keys d
      /\ (r = None -> modality proj = "text" ->
          forall key, In key ks -> nonempty_at d' key)
  end.
Proof.
  revert d; induction ks as [|k rest IH]; intros d; cbn [Validator.check_keys].
  - repeat split; auto using evolves_refl. intros _ _ key [].
  - pose proof (check_key_spec dk k d) as Hk.
    destruct (check_key dk k d) as [d1 [e|]].
    + destruct Hk as (Hev & Hkeys & _). repeat split; auto. discriminate.
    + destruct Hk as (Hev & Hkeys & Hne).
      specialize (IH d1). destruct (check_keys dk rest d1) as [d2 r].
      destruct IH as (Hev2 & Hkeys2 & Hne2).
      split; [eapply evolves_trans; eassumption|].
      split; [congruence|].
      intros Hr Ht key [<-|Hin].
      * eapply nonempty_at_evolves; [apply Hne; auto|exact Hev2].
      * now apply Hne2.
Qed.

(** One pass of the loop over [data]. *)
Lemma validate_datum_spec (a : nat) (vs : vstate) :
  match validate_datum a vs with
  | (vs', r) =>
      heap_evolves (heap vs) (heap vs')
      /\ (r = None -> settled (heap vs' a))
  end.
Proof.
  unfold Validator.validate_datum.
  pose proof (check_id_spec (heap vs a) (drawn vs)) as Hid.
  destruct (check_id (heap vs a) (drawn vs)) as [[d1 n1] [e|]].
  - destruct Hid as (-> & _). cbn [heap]. split; [|discriminate].
    apply heap_evolves_set, evolves_refl.
  - destruct Hid as (Hev1 & Hmem1 & _).
    destruct (negb (list_string_eqb (Validator.sorted (keys d1)) _)).
    + cbn [heap]. split; [|discriminate]. now apply heap_evolves_set.
    + match goal with
      | |- context [check_keys ?dk (keys d1) d1] =>
          pose proof (check_keys_spec dk (keys d1) d1) as Hks;
          destruct (check_keys dk (keys d1) d1) as [d2 r]
      end.
      destruct Hks as (Hev2 & Hkeys2 & Hne2). cbn [heap].
      split.
      * apply heap_evolves_set. eapply evolves_trans; eassumption.
      * intros ->. unfold store_set. rewrite Nat.eqb_refl.
        assert (Hs1 : dict_mem (id_field proj) d2 = true).
        { unfold dict_mem. rewrite Hkeys2. exact Hmem1. }
        split; [exact Hs1|].
        intros Ht key v Hv.
        apply (Hne2 eq_refl Ht key); [|exact Hv].
        rewrite <- Hkeys2. eapply dict_get_in_keys; exact Hv.
Qed.

(** The loop over [data]: the store only evolves, an exception is raised
    at a position of [data], and every datum before that position (every
    datum, when there is no exception) has passed validation. *)
Lemma validate_from_spec (data : list nat) (pos : nat) (vs : vstate) :
  match validate_from pos data vs with
  | (vs', r) =>
      heap_evolves (heap vs) (heap vs')
      /\ (forall k e, r = Some (k, e) -> (pos <= k < pos + length data)%nat)
      /\ (forall j a, nth_error data j = Some a ->
            match r with
            | None => True
            | Some (k, _) => (pos + j < k)%nat
            end ->
            settled (heap vs' a))
  end.
Proof.
  revert pos vs; induction data as [|b rest IH]; intros pos vs;
    cbn [Validator.validate_from].
  - split; [apply heap_evolves_refl|]. split; [discriminate|].
    intros [|j] a; discriminate.
  - pose proof (validate_datum_spec b vs) as Hd.
    destruct (validate_datum b vs) as [vs1 [e|]].
    + destruct Hd as (Hev & _). split; [exact Hev|]. split.
      * intros k e' [= <- <-]. simpl. lia.
      * intros j a _ Hlt. lia.
    + destruct Hd as (Hev & Hset). specialize (Hset eq_refl).
      specialize (IH (S pos) vs1).
      destruct (validate_from (S pos) rest vs1) as [vs2 r].
      destruct IH as (Hev2 & Hpos & Hsettled).
      split; [eapply heap_evolves_trans; eassumption|]. split.
      * intros k e Hr. specialize (Hpos k e Hr). simpl. lia.
      * intros [|j] a Hnth Hr.
        -- injection Hnth as <-. eapply settled_evolves; [exact Hset|apply Hev2].
        -- apply (Hsettled j a Hnth).
           destruct r as [[k e]|]; [lia|exact I].
Qed.

Lemma absent_id_stays_absent (d d' : datum) :
  id_field proj <> DEFAULT_ID -> evolves d d' ->
  dict_mem (id_field proj) d = false -> dict_mem (id_field proj) d' = false.
Proof.
  intros Hne Hev Hmem. apply dict_mem_false_get in Hmem.
  apply dict_mem_false_get.
  destruct (Hev (id_field proj)) as [E|[(E & _)|(_ & _ & E & _)]];
    congruence.
Qed.

Lemma missing_id_rejected (data : list nat) :
  id_field proj <> DEFAULT_ID ->
  forall pos vs j a,
    nth_error data j = Some a ->
    dict_mem (id_field proj) (heap vs a) = false ->
    exists vs' k e,
      validate_from pos data vs = (vs', Some (k, e)) /\ (k <= pos + j)%nat.
Proof.
  intros Hne. induction data as [|b rest IH]; intros pos vs j a Hnth Hmem.
  - destruct j; discriminate.
  - cbn [Validator.validate_from].
    pose proof (validate_datum_spec b vs) as Hd.
    destruct (validate_datum b vs) as [vs1 [e|]].
    + exists vs1, pos, e. split; [reflexivity|lia].
    + destruct Hd as (Hev & Hset). specialize (Hset eq_refl).
      assert (Hmem1 : dict_mem (id_field proj) (heap vs1 a) = false)
        by (eapply absent_id_stays_absent; [exact Hne|apply Hev|exact Hmem]).
      destruct j as [|j].
      * injection Hnth as ->. destruct Hset as [Hs _]. congruence.
      * destruct (IH (S pos) vs1 j a Hnth Hmem1) as (vs' & k & e & E & Hk).
        exists vs', k, e. split; [exact E|lia].
Qed.

(** The message that l.199 builds for its [ValueError] is never the
    message of an exception of the validator. *)
Ltac not_missing :=
  cbn [fst snd];
  unfold MSG_MISSING_ID, MSG_ID_TOO_LONG, MSG_KEY_SETS, MSG_UNDERSCORE,
    MSG_TIMESTAMP, MSG_EMPTY, MSG_FLAT;
  discriminate.

Lemma check_id_never_missing (d : datum) (n : nat) :
  snd (check_id d n) <> Some (ValueError MSG_MISSING_ID).
Proof.
  unfold Validator.check_id.
  destruct (dict_mem (id_field proj) d) eqn:Hmem.
  - destruct (dict_get (id_field proj) d) as [v|]; [|not_missing].
    destruct (36 <? String.length (py_str v))%nat; not_missing.
  - destruct (String.eqb (id_field proj) DEFAULT_ID); [not_missing|].
    rewrite (proj1 (dict_mem_false_get _ _) Hmem). not_missing.
Qed.

Lemma check_key_never_missing (dk : list string) (key : string) (d : datum) :
  snd (check_key dk key d) <> Some (ValueError MSG_MISSING_ID).
Proof.
  unfold Validator.check_key.
  destruct (startswith key "_"); [not_missing|].
  destruct (dict_get key d) as [v|]; [|not_missing].
  destruct (existsb (String.eqb key) dk && negb (fromisoformat (py_str v)));
    [not_missing|].
  destruct (String.eqb (modality proj) "text" && is_empty_str v).
  - destruct replace; [|not_missing].
    destruct (dict_get key _) as [v'|]; [|not_missing].
    destruct (negb (is_scalar v')); not_missing.
  - destruct (dict_get key d) as [v'|]; [|not_missing].
    destruct (negb (is_scalar v')); not_missing.
Qed.

Lemma check_keys_never_missing (dk ks : list string) (d : datum) :
  snd (check_keys dk ks d) <> Some (ValueError MSG_MISSING_ID).
Proof.
  revert d; induction ks as [|k rest IH]; intros d; cbn [Validator.check_keys].
  - discriminate.
  - pose proof (check_key_never_missing dk k d) as Hk.
    destruct (check_key dk k d) as [d1 [e|]]; [exact Hk|apply IH].
Qed.

Lemma validate_datum_never_missing (a : nat) (vs : vstate) :
  snd (validate_datum a vs) <> Some (ValueError MSG_MISSING_ID).
Proof.
  unfold Validator.validate_datum.
  pose proof (check_id_never_missing (heap vs a) (drawn vs)) as Hid.
  destruct (check_id (heap vs a) (drawn vs)) as [[d1 n1] [e|]];
    [exact Hid|].
  destruct (negb (list_string_eqb _ _)); [not_missing|].
  match goal with
  | |- context [check_keys ?dk ?ks ?d] =>
      pose proof (check_keys_never_missing dk ks d) as Hks;
      destruct (check_keys dk ks d) as [d2 r]
  end. exact Hks.
Qed.

Lemma validate_from_never_missing (data : list nat) (pos : nat)
    (vs vs' : vstate) (k : nat) :
  validate_from pos data vs <> (vs', Some (k, ValueError MSG_MISSING_ID)).
Proof.
  revert pos vs; induction data as [|b rest IH]; intros pos vs;
    cbn [Validator.validate_from]; [discriminate|].
  pose proof (validate_datum_never_missing b vs) as Hd.
  destruct (validate_datum b vs) as [vs1 [e|]]; [|apply IH].
  intros [= _ _ ->]. now apply Hd.
Qed.

(** What one pass does to the id of its record and to the draws. *)
Lemma validate_datum_elsewhere (a b : nat) (vs : vstate) :
  b <> a -> heap (fst (validate_datum a vs)) b = heap vs b.
Proof.
  intros Hne. apply Nat.eqb_neq in Hne. unfold Validator.validate_datum.
  destruct (check_id (heap vs a) (drawn vs)) as [[d1 n1] [e|]].
  - cbn. unfold store_set. now rewrite Hne.
  - destruct (negb (list_string_eqb _ _)).
    + cbn. unfold store_set. now rewrite Hne.
    + match goal with
      | |- context [check_keys ?dk ?ks ?d] =>
          destruct (check_keys dk ks d) as [d2 r]
      end. cbn. unfold store_set. now rewrite Hne.
Qed.

Lemma validate_datum_drawn (a : nat) (vs : vstate) :
  drawn (fst (validate_datum a vs)) = snd (fst (check_id (heap vs a) (drawn vs))).
Proof.
  unfold Validator.validate_datum.
  destruct (check_id (heap vs a) (drawn vs)) as [[d1 n1] [e|]];
    [reflexivity|].
  destruct (negb (list_string_eqb _ _)); [reflexivity|].
  match goal with
  | |- context [check_keys ?dk ?ks ?d] =>
      destruct (check_keys dk ks d) as [d2 r]
  end. reflexivity.
Qed.

Lemma validate_datum_injects (a : nat) (vs : vstate) :
  dict_mem (id_field proj) (heap vs a) = false ->
  id_field proj = DEFAULT_ID ->
  dict_get (id_field proj) (heap (fst (validate_datum a vs)) a)
  = Some (VStr (uuid4 (urandom (drawn vs))))
  /\ drawn (fst (validate_datum a vs)) = S (drawn vs).
Proof.
  intros Hmem Hdef.
  pose proof (check_id_spec (heap vs a) (drawn vs)) as Hid.
  rewrite validate_datum_drawn. unfold Validator.validate_datum.
  destruct (check_id (heap vs a) (drawn vs)) as [[d1 n1] [e|]].
  - destruct Hid as (_ & _ & Hbad). destruct (Hbad Hmem). contradiction.
  - destruct Hid as (_ & _ & _ & Hinj).
    destruct (Hinj Hmem) as (_ & -> & ->).
    pose proof (dict_get_set_same (id_field proj)
                  (VStr (uuid4 (urandom (drawn vs)))) (heap vs a)) as Hu.
    split; [|reflexivity].
    destruct (negb (list_string_eqb _ _)).
    + cbn [fst heap]. unfold store_set. now rewrite Nat.eqb_refl.
    + match goal with
      | |- context [check_keys ?dk ?ks ?d] =>
          pose proof (check_keys_spec dk ks d) as Hks;
          destruct (check_keys dk ks d) as [d2 r]
      end.
      destruct Hks as (Hev & _). cbn [fst heap]. unfold store_set.
      rewrite Nat.eqb_refl.
      destruct (Hev (id_field proj)) as [E|[(E & _)|(E & _)]].
      * congruence.
      * rewrite Hu in E. injection E as E.
        pose proof (uuid4_length (urandom (drawn vs))) as L.
        rewrite E in L. discriminate.
      * congruence.
Qed.

Lemma validate_datum_rejects (a : nat) (vs : vstate) :
  dict_mem (id_field proj) (heap vs a) = false ->
  id_field proj <> DEFAULT_ID ->
  snd (validate_datum a vs) = Some (KeyError (id_field proj))
  /\ (forall b, heap (fst (validate_datum a vs)) b = heap vs b)
  /\ drawn (fst (validate_datum a vs)) = drawn vs.
Proof.
  intros Hmem Hne.
  pose proof (check_id_spec (heap vs a) (drawn vs)) as Hid.
  unfold Validator.validate_datum.
  destruct (check_id (heap vs a) (drawn vs)) as [[d1 n1] [e|]].
  - destruct Hid as (-> & -> & Hbad). destruct (Hbad Hmem) as (_ & ->).
    cbn [fst snd heap drawn]. repeat split.
    intros b. unfold store_set.
    destruct (Nat.eqb_spec b a) as [->|]; reflexivity.
  - destruct Hid as (_ & _ & _ & Hinj). destruct (Hinj Hmem). contradiction.
Qed.

Lemma validate_datum_keeps_id (a : nat) (vs : vstate) (i : nat) :
  dict_get (id_field proj) (heap vs a) = Some (VStr (uuid4 (urandom i))) ->
  dict_get (id_field proj) (heap (fst (validate_datum a vs)) a)
  = Some (VStr (uuid4 (urandom i)))
  /\ drawn (fst (validate_datum a vs)) = drawn vs.
Proof.
  intros Hget. split.
  - pose proof (validate_datum_spec a vs) as Hd.
    destruct (validate_datum a vs) as [vs1 r]. destruct Hd as (Hev & _).
    cbn [fst].
    destruct (Hev a (id_field proj)) as [E|[(E & _)|(E & _)]].
    + congruence.
    + rewrite Hget in E. injection E as E.
      pose proof (uuid4_length (urandom i)) as L. rewrite E in L.
      discriminate.
    + congruence.
  - rewrite validate_datum_drawn.
    pose proof (check_id_spec (heap vs a) (drawn vs)) as Hid.
    assert (Hmem : dict_mem (id_field proj) (heap vs a) = true)
      by (apply dict_mem_get; eauto).
    destruct (check_id (heap vs a) (drawn vs)) as [[d1 n1] [e|]]; cbn [fst snd].
    + now destruct Hid as (_ & -> & _).
    + destruct Hid as (_ & _ & Hsame & _). now destruct (Hsame Hmem).
Qed.

(** Each injection takes a draw of its own. *)
Lemma validate_datum_fresh (h : store) (a : nat) (vs : vstate)
    (who : nat -> nat) :
  drawn_for urandom proj h vs who ->
  exists who', drawn_for urandom proj h (fst (validate_datum a vs)) who'.
Proof.
  intros Hinv.
  destruct (dict_mem (id_field proj) (heap vs a)) eqn:Hmem.
  - (* the record has the field: no draw *)
    exists who. intros b Hlack Hhas.
    destruct (Nat.eq_dec b a) as [->|Hne].
    + destruct (Hinv a Hlack Hmem) as (i & Hi & Hw & Hget).
      destruct (validate_datum_keeps_id a vs i Hget) as (Hk & Hdr).
      exists i. rewrite Hdr. auto.
    + rewrite (validate_datum_elsewhere a b vs Hne) in Hhas |- *.
      destruct (Hinv b Hlack Hhas) as (i & Hi & Hw & Hget).
      exists i. split; [|auto].
      assert (Hle : (drawn vs <= drawn (fst (validate_datum a vs)))%nat).
      { rewrite validate_datum_drawn.
        pose proof (check_id_spec (heap vs a) (drawn vs)) as Hid.
        destruct (check_id (heap vs a) (drawn vs)) as [[d1 n1] [e|]];
          cbn [fst snd].
        - destruct Hid as (_ & -> & _). lia.
        - destruct Hid as (_ & _ & Hsame & _). destruct (Hsame Hmem). lia. }
      lia.
  - destruct (String.eqb_spec (id_field proj) DEFAULT_ID) as [Hdef|Hndef].
    + (* the record receives the next draw *)
      destruct (validate_datum_injects a vs Hmem Hdef) as (Hget & Hdr).
      exists (fun i => if Nat.eqb i (drawn vs) then a else who i).
      intros b Hlack Hhas.
      destruct (Nat.eq_dec b a) as [->|Hne].
      * exists (drawn vs). rewrite Hdr, Nat.eqb_refl. auto.
      * rewrite (validate_datum_elsewhere a b vs Hne) in Hhas |- *.
        destruct (Hinv b Hlack Hhas) as (i & Hi & Hw & Hgetb).
        exists i. rewrite Hdr.
        destruct (Nat.eqb_spec i (drawn vs)); [lia|]. auto.
    + (* the pass raises with the store untouched *)
      destruct (validate_datum_rejects a vs Hmem Hndef) as (_ & Hheap & Hdr).
      exists who. intros b Hlack Hhas. rewrite Hheap in Hhas |- *.
      rewrite Hdr. now apply Hinv.
Qed.

Lemma validate_from_fresh (h : store) (data : list nat) (pos : nat)
    (vs : vstate) (who : nat -> nat) :
  drawn_for urandom proj h vs who ->
  exists who', drawn_for urandom proj h (fst (validate_from pos data vs)) who'.
Proof.
  revert pos vs who; induction data as [|b rest IH]; intros pos vs who Hinv;
    cbn [Validator.validate_from].
  - now exists who.
  - destruct (validate_datum_fresh h b vs who Hinv) as (who1 & H1).
    destruct (validate_datum b vs) as [vs1 [e|]]; cbn [fst] in H1 |- *.
    + now exists who1.
    + now apply (IH (S pos) vs1 who1).
Qed.

(** [C7] (what the code does) When the loop of the validator reaches a
    record that lacks the id field of the project.  If that field is the
    default id field, the record leaves the pass with the field set to a
    freshly generated [str(uuid.uuid4())]: a 36-character string with
    version digit 4, made of the next draw of the random source, which
    the pass consumes, so that it differs from the identifier of any draw
    that differs from this one in a bit that [uuid4] keeps.  In a batch
    that passes, every record that lacked the field holds the identifier
    of a draw of its own: two such records never share a draw, and their
    identifiers differ when their draws do.  If the id field is not the
    default one, the pass raises with the record untouched, and so
    validation raises at that record or earlier; but the exception is not
    the [ValueError] that l.199 means to raise: its message evaluates
    [datum[project.id_field]] on the record that lacks the field, so a
    [KeyError] leaves instead, and that [ValueError] is never raised by
    the validator on any input. *)
Theorem id_injected_or_missing (a : nat) (vs : vstate) :
  dict_mem (id_field proj) (heap vs a) = false ->
  (id_field proj = DEFAULT_ID ->
     let u := uuid4 (urandom (drawn vs)) in
     dict_get (id_field proj) (heap (fst (validate_datum a vs)) a)
     = Some (VStr u)
     /\ String.length u = 36%nat
     /\ String.get 14 u = Some "4"%char
     /\ drawn (fst (validate_datum a vs)) = S (drawn vs)
     /\ (forall r, draws_differ (urandom (drawn vs)) r -> u <> uuid4 r))
  /\ (id_field proj = DEFAULT_ID ->
      forall h data vs',
        validate_and_correct h data = (vs', None) ->
        In a data ->
        dict_mem (id_field proj) (h a) = false ->
        exists i,
          dict_get (id_field proj) (heap vs' a)
          = Some (VStr (uuid4 (urandom i)))
          /\ forall b, In b data -> b <> a ->
               dict_mem (id_field proj) (h b) = false ->
               exists j,
                 j <> i
                 /\ dict_get (id_field proj) (heap vs' b)
                    = Some (VStr (uuid4 (urandom j)))
                 /\ (draws_differ (urandom i) (urandom j) ->
                     dict_get (id_field proj) (heap vs' b)
                     <> dict_get (id_field proj) (heap vs' a)))
  /\ (id_field proj <> DEFAULT_ID ->
     snd (validate_datum a vs) = Some (KeyError (id_field proj))
     /\ (forall b, heap (fst (validate_datum a vs)) b = heap vs b)
     /\ drawn (fst (validate_datum a vs)) = drawn vs)
  /\ (id_field proj <> DEFAULT_ID ->
      forall h data j,
        nth_error data j = Some a ->
        dict_mem (id_field proj) (h a) = false ->
        exists vs' k e,
          validate_and_correct h data = (vs', Some (k, e)) /\ (k <= j)%nat)
  /\ (forall b ws,
        snd (validate_datum b ws) <> Some (ValueError MSG_MISSING_ID))
  /\ (forall h data vs' k,
        validate_and_correct h data
        <> (vs', Some (k, ValueError MSG_MISSING_ID))).
Proof.
  intros Hmem.
  split; [|split; [|split; [|split; [|split]]]].
  - intros Hdef u. subst u.
    destruct (validate_datum_injects a vs Hmem Hdef) as (Hget & Hdr).
    split; [exact Hget|].
    split; [apply uuid4_length|]. split; [apply uuid4_version_char|].
    split; [exact Hdr|].
    intros r Hdiff. now apply draws_differ_uuid4.
  - intros Hdef h data vs' Hok Hin Hmem'.
    pose proof (validate_from_spec data 0%nat (mkVState h None [] 0)) as Hv.
    destruct (validate_from_fresh h data 0%nat (mkVState h None [] 0)
                (fun i => i)) as (who & Hwho).
    { intros b Hlack Hhas. cbn [heap] in Hhas. congruence. }
    unfold Validator.validate_and_correct in Hok. rewrite Hok in Hv, Hwho.
    cbn [fst] in Hwho. destruct Hv as (_ & _ & Hset).
    assert (Hhas : forall b, In b data ->
                     dict_mem (id_field proj) (heap vs' b) = true).
    { intros b Hb. apply In_nth_error in Hb. destruct Hb as [j Hj].
      now destruct (Hset j b Hj I). }
    destruct (Hwho a Hmem' (Hhas a Hin)) as (i & _ & Hwa & Hga).
    exists i. split; [exact Hga|].
    intros b Hb Hne Hmemb.
    destruct (Hwho b Hmemb (Hhas b Hb)) as (j & _ & Hwb & Hgb).
    exists j. split; [congruence|]. split; [exact Hgb|].
    intros Hdiff. rewrite Hga, Hgb. intros E.
    apply (draws_differ_uuid4 _ _ Hdiff). congruence.
  - intros Hne. now apply validate_datum_rejects.
  - intros Hne h data j Hnth Hmem'.
    destruct (missing_id_rejected data Hne 0%nat (mkVState h None [] 0) j a
                Hnth Hmem') as (vs' & k & e & E & Hk).
    exists vs', k, e. split; [exact E|lia].
  - intros b ws. apply validate_datum_never_missing.
  - intros h data vs' k. apply validate_from_never_missing.
Qed.

(** [C10] Validation writes into the caller's records as it goes and
    does not undo anything when it raises: if it raises at position [k]
    of [data], the exception leaves a store in which every record at an
    earlier position that lacked the id field (necessarily the default
    one) holds the generated 36-character identifier, and, in a text
    project, every key of such a record that held the empty string holds
    ["null"] (the flag being set).  Records are only ever changed in
    these two ways. *)
Theorem validation_not_atomic (h : store) (data : list nat)
    (vs : vstate) (k : nat) (e : exn) :
  validate_and_correct h data = (vs, Some (k, e)) ->
  (k < length data)%nat
  /\ heap_evolves h (heap vs)
  /\ forall j a, (j < k)%nat -> nth_error data j = Some a ->
       (dict_mem (id_field proj) (h a) = false ->
          id_field proj = DEFAULT_ID
          /\ exists i,
               dict_get (id_field proj) (heap vs a)
               = Some (VStr (uuid4 (urandom i)))
               /\ String.length (uuid4 (urandom i)) = 36%nat)
       /\ (modality proj = "text" ->
           forall key, dict_get key (h a) = Some (VStr "") ->
                       replace = true
                       /\ dict_get key (heap vs a) = Some (VStr "null")).
Proof.
  intros Hres.
  pose proof (validate_from_spec data 0%nat (mkVState h None [] 0)) as Hv.
  unfold Validator.validate_and_correct in Hres. rewrite Hres in Hv.
  destruct Hv as (Hev & Hpos & Hset). cbn [heap] in Hev.
  split; [specialize (Hpos k e eq_refl); lia|].
  split; [exact Hev|].
  intros j a Hj Hnth.
  destruct (Hset j a Hnth ltac:(simpl; lia)) as [Hs Hne].
  split.
  - intros Hmem. apply dict_mem_false_get in Hmem.
    apply dict_mem_get in Hs. destruct Hs as [v Hv].
    destruct (Hev a (id_field proj)) as [E|[(E & _)|(_ & _ & Hd & i & E)]].
    + congruence.
    + congruence.
    + split; [exact Hd|]. exists i. split; [exact E|apply uuid4_length].
  - intros Ht key Hget.
    destruct (Hev a key) as [E|[(_ & E & _ & Hr)|(E & _)]].
    + rewrite Hget in E. specialize (Hne Ht key _ E). discriminate.
    + auto.
    + congruence.
Qed.

End ValidatorFacts.

(** *** A worked batch *)

Lemma id_injected_or_missing_witness :
  dict_get "id_"
    (heap (fst (validate_datum "id_" example_fromisoformat example_urandom
                  example_project true 0%nat
                  (mkVState example_store None [] 0))) 0%nat)
  = Some (VStr "01234567-89ab-4def-8123-456789abcdef")
  /\ snd (validate_datum "id_" example_fromisoformat example_urandom
            (mkProject "doc_id" "text") true 0%nat
            (mkVState example_store None [] 0))
     = Some (KeyError "doc_id").
Proof.
  split.
  - exact (proj1 (proj1
      (id_injected_or_missing "id_" example_fromisoformat example_urandom
         example_project true 0%nat (mkVState example_store None [] 0)
         eq_refl)
      eq_refl)).
  - refine (proj1 (proj1 (proj2 (proj2
      (id_injected_or_missing "id_" example_fromisoformat example_urandom
         (mkProject "doc_id" "text") true 0%nat
         (mkVState example_store None [] 0) eq_refl))) _)).
    discriminate.
Defined.

(** Two records of a batch receive the identifiers of the first two
    draws. *)
Example two_records_two_identifiers :
  let vs := fst (validate_and_correct "id_" example_fromisoformat
                   example_urandom example_project true example_store
                   [0%nat; 1%nat]) in
  dict_get "id_" (heap vs 0%nat)
  = Some (VStr "01234567-89ab-4def-8123-456789abcdef")
  /\ dict_get "id_" (heap vs 1%nat)
     = Some (VStr "01234567-89ab-4def-8123-456889abcdef")
  /\ drawn vs = 2%nat.
Proof. repeat split; vm_compute; reflexivity. Qed.

Lemma validation_not_atomic_witness :
  snd example_validation = Some (2%nat, ValueError MSG_KEY_SETS)
  /\ dict_get "text" (heap (fst example_validation) 1%nat)
     = Some (VStr "null")
  /\ exists i,
       dict_get "id_" (heap (fst example_validation) 0%nat)
       = Some (VStr (uuid4 (Z.of_nat i))).
Proof.
  pose proof (validation_not_atomic "id_" example_fromisoformat Z.of_nat
                example_project true example_store [0%nat; 1%nat; 2%nat]
                (fst example_validation) 2%nat (ValueError MSG_KEY_SETS)
                eq_refl) as (_ & _ & H).
  split; [reflexivity|]. split.
  - exact (proj2 (proj2 (H 1%nat 1%nat ltac:(lia) eq_refl) eq_refl
                    "text" eq_refl)).
  - destruct (proj1 (H 0%nat 0%nat ltac:(lia) eq_refl) eq_refl)
      as (_ & i & Hi & _).
    exists i. exact Hi.
Defined.

(** The same batch, evaluated: the store after the exception. *)
Example example_validation_result :
  snd example_validation = Some (2%nat, ValueError MSG_KEY_SETS)
  /\ map (heap (fst example_validation)) [0%nat; 1%nat; 2%nat]
     = [ [("text", VStr "hello"); ("date", VStr "2020-01-01");
          ("id_", VStr "00000000-0000-4000-8000-000000000000")];
         [("text", VStr "null"); ("date", VStr "2020-01-02");
          ("id_", VStr "00000000-0000-4000-8000-000000000001")];
         [("text", VStr "x");
          ("id_", VStr "00000000-0000-4000-8000-000000000002")] ].
Proof. split; vm_compute; reflexivity. Qed.

(** With an id field of the user's own, the first record that lacks it
    stops validation. *)
Example missing_custom_id_field :
  snd (validate_and_correct "id_" example_fromisoformat Z.of_nat
         (mkProject "doc_id" "text") true example_store [0%nat; 1%nat])
  = Some (0%nat, KeyError "doc_id").
Proof. vm_compute. reflexivity. Qed.

(* ================================================================= *)
(** ** Facts about the facade                                         *)
(* ================================================================= *)

(** Once the modality and lock checks and the validation have passed, a
    call is its upload part on [len(data)] records. *)
Lemma add_is_upload (m : method) (DEFAULT_ID : string)
    (fromisoformat : string -> bool) (urandom : nat -> Z) (proj : project)
    (h : store) (data : list nat) (S : Z) (replace own_pbar : bool)
    (transport : nat -> Z -> future_result) (sched : scheduler) (fuel : nat)
    (vs : vstate) :
  modality proj = Facade.modality_of m ->
  validate_and_correct DEFAULT_ID fromisoformat urandom proj replace h data
  = (vs, None) ->
  Facade.add m DEFAULT_ID fromisoformat urandom proj false h data S replace
             own_pbar transport sched fuel
  = (heap vs,
     upload m (Z.of_nat (length data)) S own_pbar transport sched fuel).
Proof.
  intros Hm Hv. unfold Facade.add. rewrite Hm, String.eqb_refl, Hv.
  reflexivity.
Qed.

(** A whole call of [add_text]: twelve valid records in shards of five,
    every shard answered 200. *)
Example add_text_twelve_records :
  let h : store := fun a => [("text", VStr "doc"); ("id_", VInt (Z.of_nat a))] in
  snd (Facade.add AddText "id_" example_fromisoformat Z.of_nat
         example_project false h (seq 0 12) 5 true true
         (fun _ _ => Responded (mkResponse 200 (Json JNull))) wait_all 3)
  = Returned true (mkState [] 0 15 0 [10; 5; 0] 3).
Proof. vm_compute. reflexivity. Qed.

(** A call whose validation fails raises before anything is sent, and the
    caller's records keep what validation wrote into them. *)
Example add_text_invalid_batch :
  let r := Facade.add AddText "id_" example_fromisoformat Z.of_nat
             example_project false example_store [0%nat; 1%nat; 2%nat] 5
             true true
             (fun _ _ => Responded (mkResponse 200 (Json JNull))) wait_all 3 in
  snd r = Raised (ValueError MSG_KEY_SETS) Facade.nothing_sent
  /\ dict_get "text" (fst r 1%nat) = Some (VStr "null").
Proof. split; vm_compute; reflexivity. Qed.

(* ================================================================= *)
(** ** Further facts about the coordinator                            *)
(* ================================================================= *)

Import Outcome.

(** Splits a pass of the [for] loop into the branches of the source. *)
Ltac branches_of_pass :=
  unfold process_future, inspect_json, inspect_status;
  match goal with
  | |- context [result_of ?tr ?f] =>
      let E := fresh "E" in
      destruct (result_of tr f) as [[? [?|?]]|?] eqn:E
  end;
  cbn [status_code resp_body];
  repeat match goal with
  | |- context [negb (?c =? 200)] => destruct (Z.eqb_spec c 200); cbn [negb]
  | |- context [py_in ?x ?j] =>
      let H := fresh "Hin" in destruct (py_in x j) as [[|]|] eqn:H
  | |- context [?c =? 413] => destruct (Z.eqb_spec c 413)
  | |- context [?c =? 504] => destruct (Z.eqb_spec c 504)
  | |- context [if ?a + ?b + ?c =? 0 then _ else _] =>
      destruct (Z.eqb_spec (a + b + c) 0)
  | |- context [overloaded ?a ?b ?c ?d] => destruct (overloaded a b c d)
  end.

Lemma final_state_upload (m : method) (N S : Z) (own_pbar : bool)
    (tr : nat -> Z -> future_result) (sched : scheduler) (fuel : nat) :
  Shard.effective_shard_size S <> 0 ->
  final_state (upload m N S own_pbar tr sched fuel)
  = final_state (upload_loop (Shard.effective_shard_size S) tr sched fuel 0
                   (initial_state N (Shard.effective_shard_size S))).
Proof.
  intros Hs. unfold upload.
  destruct (Z.eqb_spec (Shard.effective_shard_size S) 0); [contradiction|].
  destruct (upload_loop _ _ _ _ _ _); try reflexivity.
  unfold finish. destruct (negb (failed st =? 0)), m; reflexivity.
Qed.

(** [X1] Whatever the service answers and in whatever order the futures
    complete, when the call ends (or while it is still running) the
    tallies agree with the progress bar and with the submissions:
    [succeeded + failed] is the shard size times the number of advances of
    the bar, and the 504 count is the shard size times the number of
    resubmissions, plus one shard size when the call ended on a 504 that
    it counted and did not resubmit. *)
Theorem tallies_agree_with_progress (m : method) (N S : Z) (own_pbar : bool)
    (transport : nat -> Z -> future_result) (sched : scheduler) (fuel : nat) :
  1 <= S -> valid_scheduler sched ->
  let s := Shard.effective_shard_size S in
  let st := final_state (upload m N S own_pbar transport sched fuel) in
  let resubmitted :=
    Z.of_nat (submitted st) - Z.of_nat (length (Shard.shard_starts N s)) in
  0 <= succeeded st /\ 0 <= failed st
  /\ succeeded st + failed st = s * Z.of_nat (pbar_n st)
  /\ (errors_504 st = s * resubmitted \/ errors_504 st = s * resubmitted + s).
Proof.
  intros HS Hsched s.
  pose proof (effective_shard_size_pos S HS) as Hs. fold s in Hs.
  rewrite final_state_upload by (fold s; lia). fold s.
  set (n0 := Z.of_nat (length (Shard.shard_starts N s))).
  set (Good := fun (extra : Z) (st : state) =>
         0 <= succeeded st /\ 0 <= failed st
         /\ succeeded st + failed st = s * Z.of_nat (pbar_n st)
         /\ errors_504 st = s * (Z.of_nat (submitted st) - n0) + extra).
  assert (Hstep : forall st f, wf st -> Good 0 st -> In f (futures st) ->
            match process_future s transport st f with
            | Next st' => Good 0 st'
            | c => Good 0 (state_of c) \/ Good s (state_of c)
            end).
  { intros st f _ (H1 & H2 & H3 & H4) _. unfold Good, pbar_n in *.
    branches_of_pass;
      cbn [state_of futures failed succeeded errors_504 pbar submitted
           remove_completed count_failed count_succeeded count_504 resubmit
           length];
      rewrite ?Nat2Z.inj_succ;
      try (left; repeat split; nia); try (right; repeat split; nia);
      repeat split; nia. }
  pose proof (upload_loop_safe s transport sched Hsched (Good 0)
                (fun c => Good 0 (state_of c) \/ Good s (state_of c))
                Hstep fuel 0%nat (initial_state N s) (initial_state_wf N s))
    as Hsafe.
  assert (H0 : Good 0 (initial_state N s)).
  { unfold Good, pbar_n, initial_state. cbn. fold n0. repeat split; lia. }
  specialize (Hsafe H0). intros st resubmitted.
  assert (Hfin : Good 0 st \/ Good s st).
  { subst st. destruct (upload_loop s transport sched fuel 0 (initial_state N s));
      cbn in *; tauto. }
  unfold Good in Hfin. fold n0 in resubmitted. fold resubmitted in Hfin.
  destruct Hfin as [(H1 & H2 & H3 & H4)|(H1 & H2 & H3 & H4)];
    repeat split; auto; lia.
Qed.

Lemma tallies_agree_with_progress_witness :
  let st := final_state (upload AddEmbeddings 2500 1000 true fails_from_2000
                           wait_all 3) in
  succeeded st + failed st = 1000 * Z.of_nat (pbar_n st).
Proof.
  exact (proj1 (proj2 (proj2
    (tallies_agree_with_progress AddEmbeddings 2500 1000 true fails_from_2000
       wait_all 3 ltac:(lia) wait_all_valid)))).
Defined.

(** [X2] Whatever the service answers, the coordinator only ever holds futures
    for planned start points, and only ever advances the progress bar for
    planned start points: a retry resubmits a start point of the plan, and
    nothing outside [range(0, len(data), shard_size)] is ever sent. *)
Theorem only_planned_shards (m : method) (N S : Z) (own_pbar : bool)
    (transport : nat -> Z -> future_result) (sched : scheduler) (fuel : nat) :
  1 <= S -> valid_scheduler sched ->
  let s := Shard.effective_shard_size S in
  let st := final_state (upload m N S own_pbar transport sched fuel) in
  (forall f, In f (futures st) -> In (start_point f) (Shard.shard_starts N s))
  /\ (forall p, In p (pbar st) -> In p (Shard.shard_starts N s)).
Proof.
  intros HS Hsched s.
  pose proof (effective_shard_size_pos S HS) as Hs. fold s in Hs.
  rewrite final_state_upload by (fold s; lia). fold s.
  set (Good := fun st : state =>
         (forall f, In f (futures st) ->
                    In (start_point f) (Shard.shard_starts N s))
         /\ (forall p, In p (pbar st) -> In p (Shard.shard_starts N s))).
  assert (Hstep : forall st f, wf st -> Good st -> In f (futures st) ->
            match process_future s transport st f with
            | Next st' => Good st'
            | c => Good (state_of c)
            end).
  { intros st f _ HG Hin.
    assert (Hshape : forall st',
              incl (futures st')
                   (futures st ++ [mkFuture (submitted st) (start_point f)]) ->
              incl (pbar st') (start_point f :: pbar st) -> Good st').
    { intros st' Hfs Hpb. destruct HG as [Hf Hp]. split.
      - intros f' Hf'. apply Hfs, in_app_iff in Hf'.
        destruct Hf' as [Hf'|[<-|[]]]; [now apply Hf|].
        cbn [start_point]. now apply Hf.
      - intros p Hp'. apply Hpb in Hp'.
        destruct Hp' as [<-|Hp']; [now apply Hf|now apply Hp]. }
    assert (Hd : forall l, incl (del_future f l) l)
      by (intros l g Hg; apply in_del_future in Hg; tauto).
    branches_of_pass; apply Hshape;
      cbn [state_of futures pbar remove_completed count_failed
           count_succeeded count_504 resubmit];
      try (apply incl_appl, incl_refl);
      try (apply incl_tl, incl_refl);
      try apply incl_refl;
      try (eapply incl_tran; [apply Hd|apply incl_appl, incl_refl]);
      try apply Hd. }
  assert (H0 : Good (initial_state N s)).
  { split; [|intros p []]. intros f Hf. unfold initial_state in Hf.
    cbn [futures] in Hf. apply (in_map start_point) in Hf.
    now rewrite submit_all_starts in Hf. }
  pose proof (upload_loop_safe s transport sched Hsched Good
                (fun c => Good (state_of c)) Hstep fuel 0%nat
                (initial_state N s) (initial_state_wf N s) H0) as Hsafe.
  intros st. change (Good st). subst st.
  destruct (upload_loop s transport sched fuel 0 (initial_state N s));
    cbn [final_state state_of] in *; tauto.
Qed.

Lemma only_planned_shards_witness :
  let st := final_state (upload AddEmbeddings 2500 1000 true
                           fails_from_2000 wait_first 3) in
  let starts := Shard.shard_starts 2500 (Shard.effective_shard_size 1000) in
  (forall f, In f (futures st) -> In (start_point f) starts)
  /\ (forall p, In p (pbar st) -> In p starts).
Proof.
  exact (only_planned_shards AddEmbeddings 2500 1000 true
           fails_from_2000 wait_first 3 ltac:(lia) wait_first_valid).
Defined.

(** [X3] What the return value tells the caller, whatever the service answers:
    [True] is returned only once every future has left the dict (and, from
    [add_text], only with [failed = 0]); [False] is returned only when a
    future still in the dict got a non-200 response whose JSON body passes
    the organization-limit test. *)
Theorem return_value_sound (m : method) (N S : Z) (own_pbar : bool)
    (transport : nat -> Z -> future_result) (sched : scheduler) (fuel : nat)
    (b : bool) (st : state) :
  valid_scheduler sched ->
  upload m N S own_pbar transport sched fuel = Returned b st ->
  (b = true /\ futures st = [] /\ (m = AddText -> failed st = 0))
  \/ (b = false
      /\ exists f, In f (futures st) /\ reports_limit (result_of transport f)).
Proof.
  intros Hsched Hres. unfold upload in Hres.
  set (s := Shard.effective_shard_size S) in *.
  destruct (s =? 0); [destruct own_pbar; discriminate|].
  set (Stop := fun c : control =>
         match c with
         | Return b' st' =>
             b' = false
             /\ exists f, In f (futures st')
                          /\ reports_limit (result_of transport f)
         | _ => True
         end).
  assert (Hstep : forall st f, wf st -> True -> In f (futures st) ->
            match process_future s transport st f with
            | Next st' => True
            | c => Stop c
            end).
  { intros st0 f _ _ Hin. branches_of_pass; cbn; auto.
    split; [reflexivity|]. exists f. split; [assumption|].
    rewrite E. eexists _, _. split; [reflexivity|]. split; assumption. }
  pose proof (upload_loop_safe s transport sched Hsched (fun _ => True) Stop
                Hstep fuel 0%nat (initial_state N s) (initial_state_wf N s) I)
    as Hsafe.
  destruct (upload_loop s transport sched fuel 0 (initial_state N s))
    as [b' st'|e st'|st'|st']; try discriminate.
  - injection Hres as -> ->. right. exact Hsafe.
  - destruct Hsafe as [_ Hnil]. unfold finish in Hres.
    destruct (Z.eqb_spec (failed st') 0) as [Hz|Hz]; cbn [negb] in Hres.
    + injection Hres as <- <-. left. auto.
    + destruct m; [discriminate|]. injection Hres as <- <-. left.
      repeat split; auto. discriminate.
Qed.

Lemma return_value_sound_witness :
  (true = true /\ futures (mkState [] 1000 2000 0 [2000; 1000; 0] 3) = []
   /\ (AddEmbeddings = AddText ->
       failed (mkState [] 1000 2000 0 [2000; 1000; 0] 3) = 0))
  \/ (true = false
      /\ exists f, In f (futures (mkState [] 1000 2000 0 [2000; 1000; 0] 3))
                   /\ reports_limit (result_of fails_from_2000 f)).
Proof.
  exact (return_value_sound AddEmbeddings 2500 1000 true fails_from_2000
           wait_all 3 true (mkState [] 1000 2000 0 [2000; 1000; 0] 3)
           wait_all_valid eq_refl).
Defined.

(** [X4] Degenerate inputs.  A shard size of zero makes the call raise before
    anything is sent ([ZeroDivisionError] from the total of its own
    progress bar, else the [ValueError] of [range]).  A negative shard size
    plans no shard at all: nothing is sent and the call returns [True],
    however many records there are.  An empty dataset likewise returns
    [True] with nothing sent. *)
Theorem degenerate_shard_sizes (m : method) (N S : Z)
    (transport : nat -> Z -> future_result) (sched : scheduler) (fuel : nat) :
  0 <= N ->
  (S = 0 ->
     upload m N S true transport sched fuel
     = Raised ZeroDivisionError (mkState [] 0 0 0 [] 0)
     /\ upload m N S false transport sched fuel
        = Raised (ValueError MSG_RANGE_STEP) (mkState [] 0 0 0 [] 0))
  /\ (S < 0 \/ (N = 0 /\ S <> 0) ->
      forall own_pbar,
        upload m N S own_pbar transport sched fuel
        = Returned true (mkState [] 0 0 0 [] 0)).
Proof.
  intros HN. split.
  - intros ->. split; reflexivity.
  - intros Hcase own_pbar. unfold upload.
    set (s := Shard.effective_shard_size S).
    assert (Hs : s <> 0 /\ (s < 0 \/ N = 0))
      by (subst s; unfold Shard.effective_shard_size; lia).
    destruct (Z.eqb_spec s 0); [lia|].
    assert (Hplan : Shard.shard_starts N s = []).
    { unfold Shard.shard_starts, Py.range, Py.range_len.
      destruct (Z.ltb_spec 0 s), (Z.ltb_spec s 0); try lia; try reflexivity.
      - assert (N = 0) by lia. subst N.
        replace (Z.max 0 ((0 - 0 + s - 1) / s)) with 0; [reflexivity|].
        rewrite Z.div_small by lia. reflexivity.
      - replace (Z.max 0 ((0 - N - s - 1) / - s)) with 0; [reflexivity|].
        symmetry. apply Z.max_l.
        assert ((0 - N - s - 1) / - s < 1); [|lia].
        apply Z.div_lt_upper_bound; lia. }
    unfold initial_state. rewrite Hplan. cbn [submit_all length].
    destruct fuel; reflexivity.
Qed.

Lemma degenerate_shard_sizes_witness :
  upload AddText 7 (-3) true always_conflict wait_all 0
  = Returned true (mkState [] 0 0 0 [] 0).
Proof.
  refine (proj2 (degenerate_shard_sizes AddText 7 (-3) always_conflict
                   wait_all 0 _) _ true); lia.
Defined.

Lemma lock_step (s : Z) (tr : nat -> Z -> future_result)
    (st : state) (f : future) :
  reports_lock (result_of tr f) ->
  process_future s tr st f = Raise (PyException MSG_INDEXING) st.
Proof.
  intros (c & j & E & Hc & H1 & H2). unfold process_future. rewrite E.
  cbn [status_code resp_body].
  destruct (Z.eqb_spec c 200); [contradiction|]. cbn [negb].
  unfold inspect_json. now rewrite H1, H2.
Qed.

Lemma lock_not_settles (r : future_result) :
  reports_lock r -> settles r -> False.
Proof.
  intros (c & j & E & Hc & _) [(b & E')|(c' & t & E' & _)];
    rewrite E in E'; inversion E'; subst; contradiction.
Qed.

(** [X5] A held transaction lock stops the call with an exception: if at least
    one planned shard gets a non-200 response whose JSON body passes the
    lock test (and not the organization-limit test), and every other
    response ends its shard with a tally, then for every order of
    completion the call raises the "currently indexing" exception, with no
    submission beyond the initial ones. *)
Theorem transaction_lock_raises (m : method) (N S : Z) (own_pbar : bool)
    (transport : nat -> Z -> future_result) (sched : scheduler) (fuel : nat) :
  0 <= N -> 1 <= S -> valid_scheduler sched ->
  let s := Shard.effective_shard_size S in
  (forall id p, reports_lock (transport id p) \/ settles (transport id p)) ->
  (exists f0, In f0 (futures (initial_state N s))
              /\ reports_lock (result_of transport f0)) ->
  (Z.to_nat (Shard.shard_count N s) <= fuel)%nat ->
  exists st,
    upload m N S own_pbar transport sched fuel
    = Raised (PyException MSG_INDEXING) st
    /\ submitted st = length (Shard.shard_starts N s).
Proof.
  intros HN HS Hsched s Hall (f0 & Hf0 & Hlock) Hfuel.
  pose proof (effective_shard_size_pos S HS) as Hs. fold s in Hs.
  set (n0 := length (Shard.shard_starts N s)).
  set (Inv := fun st : state => In f0 (futures st) /\ submitted st = n0).
  set (Stop := fun c : control =>
         exists st, c = Raise (PyException MSG_INDEXING) st
                    /\ submitted st = n0).
  assert (Hstep : forall st f, wf st -> Inv st -> In f (futures st) ->
            match process_future s transport st f with
            | Next st' => Inv st'
            | c => Stop c
            end).
  { intros st f Hwf (Hin0 & Hsub) Hin.
    destruct (Hall (fut_id f) (start_point f)) as [Hl|Hse].
    - rewrite lock_step by exact Hl. exists st. auto.
    - destruct (settles_step s transport st f Hse)
        as (st' & -> & Ef & Es & _).
      unfold Inv. rewrite Ef, Es. split; [|assumption].
      apply in_del_future. split; [assumption|]. intros Eid.
      assert (f0 = f)
        by (apply (same_id_same_future (futures st)); auto; apply Hwf).
      subst f0. exact (lock_not_settles _ Hlock Hse). }
  assert (Hsettle : forall st st' f, wf st -> Inv st -> In f (futures st) ->
            process_future s transport st f = Next st' ->
            futures st' = del_future f (futures st)).
  { intros st st' f _ _ _ Hp.
    destruct (Hall (fut_id f) (start_point f)) as [Hl|Hse].
    - rewrite lock_step in Hp by exact Hl. discriminate.
    - destruct (settles_step s transport st f Hse) as (st1 & Hp1 & Ef & _).
      congruence. }
  assert (HI0 : Inv (initial_state N s)) by (split; auto).
  pose proof (upload_loop_safe s transport sched Hsched Inv Stop Hstep
                fuel 0%nat (initial_state N s)
                (initial_state_wf N s) HI0) as Hsafe.
  pose proof (upload_loop_total s transport sched Hsched Inv Stop Hstep
                Hsettle fuel 0%nat (initial_state N s)
                (initial_state_wf N s) HI0) as Htot.
  assert (Hlen : (length (futures (initial_state N s)) <= fuel)%nat).
  { pose proof (initial_state_length N s HN ltac:(lia)). lia. }
  specialize (Htot Hlen).
  unfold upload. fold s. destruct (Z.eqb_spec s 0); [lia|].
  destruct (upload_loop s transport sched fuel 0 (initial_state N s))
    as [b st|e st|st|st]; cbn beta iota in Hsafe.
  - destruct Hsafe as (st1 & E1 & _). discriminate.
  - destruct Hsafe as (st1 & E1 & Hsub). inversion E1; subst.
    exists st1. auto.
  - destruct Hsafe as [(Hin0 & _) Hnil]. rewrite Hnil in Hin0. destruct Hin0.
  - exfalso. now apply (Htot st).
Qed.

Lemma transaction_lock_raises_witness :
  exists st,
    upload AddText 5 5 true lock_held wait_all 1
    = Raised (PyException MSG_INDEXING) st
    /\ submitted st = length (Shard.shard_starts 5 (Shard.effective_shard_size 5)).
Proof.
  refine (transaction_lock_raises AddText 5 5 true lock_held wait_all 1
            ltac:(lia) ltac:(lia) wait_all_valid _ _ _).
  - intros id p. left. eexists _, _.
    split; [reflexivity|split; [discriminate|split; reflexivity]].
  - exists (mkFuture 0 0). split; [now left|]. eexists _, _.
    split; [reflexivity|split; [discriminate|split; reflexivity]].
  - vm_compute. lia.
Defined.

Lemma shard_count_floor (N s : Z) :
  0 <= N -> 1 <= s ->
  Shard.shard_count N s = N / s + (if N mod s =? 0 then 0 else 1).
Proof.
  intros HN Hs. unfold Shard.shard_count.
  pose proof (Z.div_mod N s ltac:(lia)) as E.
  pose proof (Z.mod_pos_bound N s ltac:(lia)) as B.
  destruct (Z.eqb_spec (N mod s) 0) as [Hz|Hz].
  - symmetry. apply Z.div_unique with (r := s - 1); lia.
  - symmetry. apply Z.div_unique with (r := N mod s - 1); lia.
Qed.

(** [X6] The progress bar against its total.  The bar a call creates for itself
    has total [len(data) // shard_size]; when every shard ends with a
    tally, [add_embeddings] returns [True] after one advance per shard,
    that is after [total] advances when the shard size divides the number
    of records and after [total + 1] advances otherwise. *)
Theorem progress_bar_overshoots (N S : Z) (own_pbar : bool)
    (transport : nat -> Z -> future_result) (sched : scheduler) (fuel : nat) :
  0 <= N -> 1 <= S -> valid_scheduler sched ->
  let s := Shard.effective_shard_size S in
  (forall id p, settles (transport id p)) ->
  (Z.to_nat (Shard.shard_count N s) <= fuel)%nat ->
  exists st,
    upload AddEmbeddings N S own_pbar transport sched fuel = Returned true st
    /\ Z.of_nat (pbar_n st)
       = pbar_total N S + (if N mod s =? 0 then 0 else 1).
Proof.
  intros HN HS Hsched s Hall Hfuel.
  pose proof (effective_shard_size_pos S HS) as Hs. fold s in Hs.
  assert (Hnj : no_json_failures transport).
  { intros id p c j E.
    destruct (Hall id p) as [(b & E')|(c' & t & E' & _)];
      rewrite E in E'; inversion E'; subst; reflexivity. }
  set (Inv := progress_inv (Shard.shard_starts N s)).
  assert (Hstep : forall st f, wf st -> Inv st -> In f (futures st) ->
            match process_future s transport st f with
            | Next st' => Inv st'
            | _ => False
            end).
  { intros st f Hwf HI Hin.
    pose proof (progress_step s transport _ st f Hnj Hwf HI Hin) as Hp.
    destruct (settles_step s transport st f (Hall _ _)) as (st1 & E1 & _).
    rewrite E1 in *. exact Hp. }
  assert (Hsettle : forall st st' f, wf st -> Inv st -> In f (futures st) ->
            process_future s transport st f = Next st' ->
            futures st' = del_future f (futures st)).
  { intros st st' f _ _ _ Hp.
    destruct (settles_step s transport st f (Hall _ _)) as (st1 & Hp1 & Ef & _).
    congruence. }
  pose proof (upload_loop_safe s transport sched Hsched Inv (fun _ => False)
                Hstep fuel 0%nat (initial_state N s)
                (initial_state_wf N s) (initial_progress_inv N s)) as Hsafe.
  pose proof (upload_loop_total s transport sched Hsched Inv (fun _ => False)
                Hstep Hsettle fuel 0%nat (initial_state N s)
                (initial_state_wf N s) (initial_progress_inv N s)) as Htot.
  assert (Hlen : (length (futures (initial_state N s)) <= fuel)%nat).
  { pose proof (initial_state_length N s HN ltac:(lia)). lia. }
  specialize (Htot Hlen).
  unfold upload. fold s. destruct (Z.eqb_spec s 0); [lia|].
  destruct (upload_loop s transport sched fuel 0 (initial_state N s))
    as [b st|e st|st|st]; cbn beta iota in Hsafe; try contradiction.
  - destruct Hsafe as [HI Hnil]. exists st. split.
    + unfold finish. destruct (negb (failed st =? 0)); reflexivity.
    + assert (HP : Permutation (pbar st) (Shard.shard_starts N s)).
      { apply (Permutation_count_occ Z.eq_dec). intros p.
        specialize (HI p). rewrite Hnil in HI. simpl in HI. lia. }
      unfold pbar_n. rewrite (Permutation_length HP).
      rewrite shard_starts_eq, length_map, length_seq by lia.
      unfold pbar_total. fold s.
      rewrite <- shard_count_floor by lia.
      pose proof (shard_count_bounds N s HN ltac:(lia)). nia.
  - exfalso. now apply (Htot st).
Qed.

Lemma progress_bar_overshoots_witness :
  exists st,
    upload AddEmbeddings 2500 1000 true fails_from_2000 wait_all 3
    = Returned true st
    /\ Z.of_nat (pbar_n st)
       = pbar_total 2500 1000
         + (if 2500 mod Shard.effective_shard_size 1000 =? 0 then 0 else 1).
Proof.
  refine (progress_bar_overshoots 2500 1000 true fails_from_2000 wait_all 3
            ltac:(lia) ltac:(lia) wait_all_valid _ _).
  - intros id p. unfold settles, fails_from_2000.
    destruct (p <? 2000).
    + left. eexists. reflexivity.
    + right. eexists _, _. split; [reflexivity|split; discriminate].
  - vm_compute. lia.
Defined.

(* ================================================================= *)
(** ** Facts about the older client                                   *)
(* ================================================================= *)

Import LegacyTerms.

Lemma legacy_process_all_past (tr : nat -> Z -> future_result)
    (l : list future) (st : Legacy.state) :
  (forall f, In f l -> gets_past (result_of tr f)) ->
  Legacy.process_all tr l st
  = Legacy.Next
      (Legacy.mkState
         (rev (map start_point (filter (fun f => negb (answered_ok tr f)) l))
          ++ Legacy.failed st)
         (rev (map start_point l) ++ Legacy.pbar st)).
Proof.
  revert st; induction l as [|f l IH]; intros st Hall.
  - destruct st; reflexivity.
  - cbn [Legacy.process_all].
    destruct (Hall f (or_introl eq_refl)) as (c & b & E & Hcb).
    unfold Legacy.process_future, answered_ok. cbn [filter]. rewrite E.
    cbn [status_code resp_body].
    destruct (Z.eqb_spec c 200) as [->|Hc]; cbn [negb].
    + rewrite IH by (intros g Hg; apply Hall; now right).
      cbn [Legacy.failed Legacy.pbar map rev].
      now rewrite <- !app_assoc.
    + destruct Hcb as [->|(j & -> & Hj)]; [contradiction|]. rewrite Hj.
      rewrite IH by (intros g Hg; apply Hall; now right).
      cbn [Legacy.failed Legacy.pbar map rev].
      now rewrite <- !app_assoc.
Qed.

(** [X7] [AtlasClient.add_embeddings] reports success whatever fails: when
    every response is a 200 or a non-200 whose JSON body does not pass the
    organization-limit test, the call returns [True]; its progress bar has
    advanced once for every shard, failed or not, in the order of
    completion, and [failed] lists the start points of the shards that
    were not answered 200.  When [as_completed] yields every submitted
    future once, the bar has advanced exactly once per planned shard. *)
Theorem legacy_returns_true_with_failures (N S : Z) (own_pbar : bool)
    (transport : nat -> Z -> future_result)
    (completion : list future -> list future) :
  0 <= N -> 1 <= S ->
  (forall id p, gets_past (transport id p)) ->
  let s := Shard.effective_shard_size S in
  let futures := submit_all 0 (Shard.shard_starts N s) in
  let st :=
    Legacy.mkState
      (rev (map start_point
              (filter (fun f => negb (answered_ok transport f))
                      (completion futures))))
      (rev (map start_point (completion futures))) in
  Legacy.add_embeddings N S own_pbar transport completion
  = Legacy.Return true st
  /\ (Permutation (completion futures) futures ->
      Permutation (Legacy.pbar st) (Shard.shard_starts N s)).
Proof.
  intros HN HS Hall s futures st.
  pose proof (effective_shard_size_pos S HS) as Hs. fold s in Hs.
  split.
  - unfold Legacy.add_embeddings. fold s.
    destruct (Z.eqb_spec s 0); [lia|]. fold futures.
    rewrite legacy_process_all_past by (intros f _; apply Hall).
    cbn [Legacy.failed Legacy.pbar]. now rewrite !app_nil_r.
  - intros HP. subst st. cbn [Legacy.pbar].
    rewrite <- Permutation_rev.
    rewrite (Permutation_map start_point HP). subst futures.
    now rewrite submit_all_starts.
Qed.

Lemma legacy_returns_true_with_failures_witness :
  Legacy.add_embeddings 2500 1000 true errors_from_2000 (fun fs => rev fs)
  = Legacy.Return true (Legacy.mkState [2000] [0; 1000; 2000]).
Proof.
  refine (proj1 (legacy_returns_true_with_failures 2500 1000 true
                   errors_from_2000 (fun fs => rev fs)
                   ltac:(lia) ltac:(lia) _)).
  intros id p. unfold gets_past, errors_from_2000.
  destruct (p <? 2000); eexists _, _; (split; [reflexivity|]).
  - now left.
  - right. eexists. split; reflexivity.
Defined.

(** [X8] The older client does not guard [response.json()]: the first future,
    in completion order, that is not answered 200 and whose body is not
    JSON makes the call raise [JSONDecodeError], after the progress bar
    has advanced for it; the futures that complete later are never
    looked at. *)
Theorem legacy_unguarded_json (N S : Z) (own_pbar : bool)
    (transport : nat -> Z -> future_result)
    (completion : list future -> list future)
    (before after : list future) (f : future) (c : Z) (t : string) :
  1 <= S ->
  let s := Shard.effective_shard_size S in
  completion (submit_all 0 (Shard.shard_starts N s)) = before ++ f :: after ->
  (forall g, In g before -> gets_past (result_of transport g)) ->
  result_of transport f = Responded (mkResponse c (NotJson t)) ->
  c <> 200 ->
  Legacy.add_embeddings N S own_pbar transport completion
  = Legacy.Raise JSONDecodeError
      (Legacy.mkState
         (rev (map start_point
                 (filter (fun g => negb (answered_ok transport g)) before)))
         (start_point f :: rev (map start_point before))).
Proof.
  intros HS s Hsplit Hbefore E Hc.
  pose proof (effective_shard_size_pos S HS) as Hs. fold s in Hs.
  unfold Legacy.add_embeddings. fold s.
  destruct (Z.eqb_spec s 0); [lia|]. rewrite Hsplit.
  assert (Happ : forall l1 l2 st st1,
            Legacy.process_all transport l1 st = Legacy.Next st1 ->
            Legacy.process_all transport (l1 ++ l2) st
            = Legacy.process_all transport l2 st1).
  { induction l1 as [|g l1 IH]; intros l2 st st1; cbn [Legacy.process_all app].
    - now intros [= ->].
    - destruct (Legacy.process_future transport st g); try discriminate.
      apply IH. }
  rewrite (Happ _ _ _ _ (legacy_process_all_past transport before _ Hbefore)).
  cbn [Legacy.process_all Legacy.failed Legacy.pbar].
  unfold Legacy.process_future. rewrite E. cbn [status_code resp_body].
  destruct (Z.eqb_spec c 200); [contradiction|]. cbn [negb].
  now rewrite !app_nil_r.
Qed.

Lemma legacy_unguarded_json_witness :
  Legacy.add_embeddings 2500 1000 true fails_from_2000 (fun fs => fs)
  = Legacy.Raise JSONDecodeError (Legacy.mkState [] [2000; 1000; 0]).
Proof.
  refine (legacy_unguarded_json 2500 1000 true fails_from_2000 (fun fs => fs)
            [mkFuture 0 0; mkFuture 1 1000] [] (mkFuture 2 2000) 413
            "Request Entity Too Large" ltac:(lia) eq_refl _ eq_refl _);
    [|lia].
  intros g [<-|[<-|[]]]; exists 200, (Json JNull);
    (split; [reflexivity|now left]).
Defined.

(* ================================================================= *)
(** ** Further facts about the validator                              *)
(* ================================================================= *)

Import ValidatorTerms.

Lemma keys_dict_set_new (k : string) (v : value) (d : datum) :
  dict_get k d = None -> keys (dict_set k v d) = keys d ++ [k].
Proof.
  unfold keys. induction d as [|[k' v'] d IH]; simpl; [reflexivity|].
  destruct (String.eqb_spec k k') as [->|Hne]; [discriminate|].
  intros H. simpl. f_equal. now apply IH.
Qed.

Lemma dict_mem_keys (k : string) (d d' : datum) :
  keys d' = keys d -> dict_mem k d' = dict_mem k d.
Proof. unfold dict_mem. now intros ->. Qed.

Lemma dict_mem_appended (k : string) (d d' : datum) :
  keys d' = keys d ++ [k] -> dict_mem k d' = true.
Proof.
  unfold dict_mem. intros ->. rewrite existsb_app. simpl.
  rewrite String.eqb_refl. now rewrite orb_true_r.
Qed.

Section ValidatorGuarantees.

Variable DEFAULT_ID : string.
Variable fromisoformat : string -> bool.
Variable urandom : nat -> Z.
Variable proj : project.
Variable replace : bool.

Local Abbreviation check_id := (Validator.check_id DEFAULT_ID urandom proj).
Local Abbreviation check_key := (Validator.check_key fromisoformat proj replace).
Local Abbreviation check_keys := (Validator.check_keys fromisoformat proj replace).
Local Abbreviation validate_datum :=
  (Validator.validate_datum DEFAULT_ID fromisoformat urandom proj replace).
Local Abbreviation validate_from :=
  (Validator.validate_from DEFAULT_ID fromisoformat urandom proj replace).
Local Abbreviation validate_and_correct :=
  (Validator.validate_and_correct DEFAULT_ID fromisoformat urandom proj replace).
Local Abbreviation evolves := (Validator.evolves DEFAULT_ID urandom proj replace).
Local Abbreviation keys_kept := (ValidatorTerms.keys_kept DEFAULT_ID proj).
Local Abbreviation accepted := (ValidatorTerms.accepted proj).

Lemma keys_kept_refl (d : datum) : keys_kept d d.
Proof. now left. Qed.

Lemma keys_kept_trans (d1 d2 d3 : datum) :
  keys_kept d1 d2 -> keys_kept d2 d3 -> keys_kept d1 d3.
Proof.
  intros [E12|(M1 & D1 & E12)] [E23|(M2 & D2 & E23)].
  - left. congruence.
  - right. rewrite (dict_mem_keys _ _ _ E12) in M2.
    repeat split; auto. congruence.
  - right. repeat split; auto. congruence.
  - rewrite (dict_mem_appended _ _ _ E12) in M2. discriminate.
Qed.

Lemma check_id_keys (d : datum) (n : nat) :
  keys_kept d (fst (fst (check_id d n))).
Proof.
  pose proof (check_id_spec DEFAULT_ID urandom proj replace d n) as H.
  destruct (check_id d n) as [[d' n'] [e|]]; cbn [fst].
  - destruct H as (-> & _). apply keys_kept_refl.
  - destruct H as (_ & _ & Hsame & Hnew).
    destruct (dict_mem (id_field proj) d) eqn:Hmem.
    + destruct (Hsame eq_refl) as [-> _]. apply keys_kept_refl.
    + destruct (Hnew eq_refl) as (Hd & -> & _). right.
      repeat split; auto. apply keys_dict_set_new.
      now apply dict_mem_false_get.
Qed.

(** One pass changes the record it looks at by the two admitted changes
    and keeps its keys; every other record is left alone. *)
Lemma validate_datum_changes (a : nat) (vs : vstate) :
  forall b, evolves (heap vs b) (heap (fst (validate_datum a vs)) b)
            /\ keys_kept (heap vs b) (heap (fst (validate_datum a vs)) b).
Proof.
  intros b.
  pose proof (validate_datum_spec DEFAULT_ID fromisoformat urandom proj
                replace a vs) as Hspec.
  split.
  - destruct (validate_datum a vs) as [vs' r]. apply Hspec.
  - clear Hspec. unfold Validator.validate_datum.
    pose proof (check_id_keys (heap vs a) (drawn vs)) as Hid.
    destruct (check_id (heap vs a) (drawn vs)) as [[d1 n1] [e|]];
      cbn [fst] in Hid.
    + cbn [fst heap]. unfold store_set.
      destruct (Nat.eqb_spec b a) as [->|]; [exact Hid|apply keys_kept_refl].
    + destruct (negb (list_string_eqb _ _)).
      * cbn [fst heap]. unfold store_set.
        destruct (Nat.eqb_spec b a) as [->|]; [exact Hid|apply keys_kept_refl].
      * match goal with
        | |- context [check_keys ?dk ?ks ?d] =>
            pose proof (check_keys_spec DEFAULT_ID fromisoformat urandom proj
                          replace dk ks d) as Hks;
            destruct (check_keys dk ks d) as [d2 r]
        end.
        destruct Hks as (_ & Hkeys & _). cbn [fst heap]. unfold store_set.
        destruct (Nat.eqb_spec b a) as [->|]; [|apply keys_kept_refl].
        eapply keys_kept_trans; [exact Hid|now left].
Qed.

Lemma validate_from_changes (data : list nat) (pos : nat) (vs : vstate) :
  forall b, evolves (heap vs b) (heap (fst (validate_from pos data vs)) b)
            /\ keys_kept (heap vs b) (heap (fst (validate_from pos data vs)) b).
Proof.
  revert pos vs; induction data as [|a rest IH]; intros pos vs b;
    cbn [Validator.validate_from].
  - split; [apply evolves_same|apply keys_kept_refl].
  - pose proof (validate_datum_changes a vs b) as [He Hk].
    destruct (validate_datum a vs) as [vs1 [e|]]; cbn [fst] in *.
    + split; assumption.
    + destruct (IH (S pos) vs1 b) as [He2 Hk2].
      destruct (validate_from (S pos) rest vs1) as [vs2 r]; cbn [fst] in *.
      split.
      * eapply (evolves_trans DEFAULT_ID urandom proj replace); eassumption.
      * eapply keys_kept_trans; eassumption.
Qed.

(** [X9] Validation never removes, renames or reorders a key of any record,
    whether it passes or raises: afterwards the key list of a record is
    what it was, or what it was followed by the default id field when the
    record lacked it. *)
Theorem validation_keeps_keys (h : store) (data : list nat) (b : nat) :
  let h' := heap (fst (validate_and_correct h data)) in
  keys (h' b) = keys (h b)
  \/ (dict_mem (id_field proj) (h b) = false
      /\ id_field proj = DEFAULT_ID
      /\ keys (h' b) = keys (h b) ++ [id_field proj]).
Proof.
  exact (proj2 (validate_from_changes data 0%nat (mkVState h None [] 0) b)).
Qed.

(** [X10] Outside the two corrections nothing is rewritten.  Unless the project
    is a text project validated with the flag set, every value a record
    had is still there afterwards; and if moreover the id field is not
    the default one, validation is a pure check: every key of every
    record maps to what it mapped to before, whether validation passes or
    raises. *)
Theorem validation_rewrites_nothing_else (h : store) (data : list nat) :
  modality proj <> "text" \/ replace = false ->
  let h' := heap (fst (validate_and_correct h data)) in
  (forall b key v, dict_get key (h b) = Some v -> dict_get key (h' b) = Some v)
  /\ (id_field proj <> DEFAULT_ID ->
      forall b key, dict_get key (h' b) = dict_get key (h b)).
Proof.
  intros Hno h'.
  assert (Hev : forall b, evolves (h b) (h' b))
    by (intros b; apply (validate_from_changes data 0%nat
                           (mkVState h None [] 0) b)).
  split.
  - intros b key v Hv.
    destruct (Hev b key) as [E|[(_ & _ & Ht & Hr)|(E & _)]].
    + congruence.
    + destruct Hno; [contradiction|congruence].
    + congruence.
  - intros Hid b key.
    destruct (Hev b key) as [E|[(_ & _ & Ht & Hr)|(_ & _ & Hd & _)]].
    + exact E.
    + destruct Hno; [contradiction|congruence].
    + contradiction.
Qed.

End ValidatorGuarantees.

Lemma validation_rewrites_nothing_else_witness :
  dict_get "title"
    (heap (fst (Validator.validate_and_correct "id_" example_fromisoformat
                  Z.of_nat (mkProject "doc_id" "embedding") true
                  embedding_store [0%nat; 1%nat])) 0%nat)
  = Some (VStr "").
Proof.
  refine (proj1 (validation_rewrites_nothing_else "id_" example_fromisoformat
                   Z.of_nat (mkProject "doc_id" "embedding") true
                   embedding_store [0%nat; 1%nat] _)
                0%nat "title" (VStr "") _).
  - left. discriminate.
  - reflexivity.
Defined.

Section ValidatorAcceptance.

Variable DEFAULT_ID : string.
Variable fromisoformat : string -> bool.
Variable urandom : nat -> Z.
Variable proj : project.
Variable replace : bool.

Local Abbreviation check_id := (Validator.check_id DEFAULT_ID urandom proj).
Local Abbreviation check_key := (Validator.check_key fromisoformat proj replace).
Local Abbreviation check_keys := (Validator.check_keys fromisoformat proj replace).
Local Abbreviation validate_datum :=
  (Validator.validate_datum DEFAULT_ID fromisoformat urandom proj replace).
Local Abbreviation validate_from :=
  (Validator.validate_from DEFAULT_ID fromisoformat urandom proj replace).
Local Abbreviation validate_and_correct :=
  (Validator.validate_and_correct DEFAULT_ID fromisoformat urandom proj replace).
Local Abbreviation evolves := (Validator.evolves DEFAULT_ID urandom proj replace).
Local Abbreviation keys_kept := (ValidatorTerms.keys_kept DEFAULT_ID proj).
Local Abbreviation accepted := (ValidatorTerms.accepted proj).

Lemma scalar_evolves (d d' : datum) (key : string) :
  (forall v, dict_get key d = Some v -> is_scalar v = true) ->
  evolves d d' ->
  forall v, dict_get key d' = Some v -> is_scalar v = true.
Proof.
  intros Hs Hev v Hv.
  destruct (Hev key) as [E|[(_ & E & _)|(_ & _ & _ & i & E)]].
  - apply Hs. congruence.
  - rewrite Hv in E. now injection E as ->.
  - rewrite Hv in E. now injection E as ->.
Qed.

Lemma short_id_evolves (d d' : datum) :
  (exists v, dict_get (id_field proj) d = Some v
             /\ (String.length (py_str v) <= 36)%nat) ->
  evolves d d' ->
  exists v, dict_get (id_field proj) d' = Some v
            /\ (String.length (py_str v) <= 36)%nat.
Proof.
  intros (v & Hv & Hlen) Hev.
  destruct (Hev (id_field proj)) as [E|[(_ & E & _)|(E & _)]].
  - exists v. split; [congruence|assumption].
  - exists (VStr "null"). split; [assumption|simpl; lia].
  - congruence.
Qed.

Lemma check_id_short (d : datum) (n : nat) :
  snd (check_id d n) = None ->
  exists v, dict_get (id_field proj) (fst (fst (check_id d n))) = Some v
            /\ (String.length (py_str v) <= 36)%nat.
Proof.
  unfold Validator.check_id.
  destruct (dict_mem (id_field proj) d).
  - destruct (dict_get (id_field proj) d) as [v|] eqn:Hget; [|discriminate].
    destruct (Nat.ltb_spec 36 (String.length (py_str v))); [discriminate|].
    intros _. exists v. cbn [fst]. auto.
  - destruct (String.eqb (id_field proj) DEFAULT_ID);
      [|destruct (dict_get (id_field proj) d); discriminate].
    intros _. cbn [fst]. eexists. rewrite dict_get_set_same.
    split; [reflexivity|]. cbn [py_str]. rewrite uuid4_length. lia.
Qed.

Lemma check_key_accepts (dk : list string) (key : string) (d : datum) :
  snd (check_key dk key d) = None ->
  startswith key "_" = false
  /\ forall v, dict_get key (fst (check_key dk key d)) = Some v ->
               is_scalar v = true.
Proof.
  unfold Validator.check_key.
  destruct (startswith key "_"); [discriminate|].
  destruct (dict_get key d) as [v|] eqn:Hget; [|discriminate].
  destruct (existsb (String.eqb key) dk && negb (fromisoformat (py_str v)));
    [discriminate|].
  destruct (String.eqb (modality proj) "text" && is_empty_str v).
  - destruct replace; [|discriminate].
    rewrite dict_get_set_same. cbn [is_scalar negb fst snd].
    intros _. split; [reflexivity|]. intros v'.
    rewrite dict_get_set_same. now intros [= <-].
  - rewrite Hget. destruct (is_scalar v) eqn:Hsc; cbn [negb fst snd];
      [|discriminate].
    intros _. split; [reflexivity|]. intros v' Hv'. congruence.
Qed.

Lemma check_keys_accepts (dk ks : list string) (d : datum) :
  snd (check_keys dk ks d) = None ->
  forall key, In key ks ->
    startswith key "_" = false
    /\ forall v, dict_get key (fst (check_keys dk ks d)) = Some v ->
                 is_scalar v = true.
Proof.
  revert d; induction ks as [|k rest IH]; intros d Hnone key Hin;
    [destruct Hin|].
  cbn [Validator.check_keys] in *.
  pose proof (check_key_accepts dk k d) as Hk.
  destruct (check_key dk k d) as [d1 [e|]]; [discriminate|].
  cbn [fst snd] in Hk. destruct (Hk eq_refl) as [Hu Hs].
  pose proof (check_keys_spec DEFAULT_ID fromisoformat urandom proj replace
                dk rest d1) as Hrest.
  specialize (IH d1).
  destruct (check_keys dk rest d1) as [d2 r]. cbn [fst snd] in *.
  destruct Hrest as (Hev & _).
  destruct Hin as [<-|Hin].
  - split; [exact Hu|]. eapply scalar_evolves; eassumption.
  - now apply IH.
Qed.

Lemma list_string_eqb_true (a b : list string) :
  list_string_eqb a b = true -> a = b.
Proof.
  unfold list_string_eqb.
  destruct (list_eq_dec String.string_dec a b); [auto|discriminate].
Qed.

(** One successful pass: the batch key list is fixed (it is the one
    already recorded, if any) and the record is accepted. *)
Lemma validate_datum_accepts (a : nat) (vs : vstate) :
  snd (validate_datum a vs) = None ->
  exists mk,
    metadata_keys (fst (validate_datum a vs)) = Some mk
    /\ (forall mk0, metadata_keys vs = Some mk0 -> mk = mk0)
    /\ accepted mk (heap (fst (validate_datum a vs)) a).
Proof.
  pose proof (validate_datum_spec DEFAULT_ID fromisoformat urandom proj
                replace a vs) as Hspec.
  unfold Validator.validate_datum in *.
  pose proof (check_id_short (heap vs a) (drawn vs)) as Hshort.
  destruct (check_id (heap vs a) (drawn vs)) as [[d1 n1] [e|]];
    [discriminate|].
  cbn [fst snd] in Hshort. specialize (Hshort eq_refl).
  set (mk := match metadata_keys vs with
             | Some ks => ks
             | None => Validator.sorted (keys d1)
             end) in *.
  destruct (list_string_eqb (Validator.sorted (keys d1)) mk) eqn:Heq;
    cbn [negb] in *; [|discriminate].
  apply list_string_eqb_true in Heq.
  match goal with
  | |- context [check_keys ?dk (keys d1) d1] =>
      pose proof (check_keys_spec DEFAULT_ID fromisoformat urandom proj
                    replace dk (keys d1) d1) as Hks;
      pose proof (check_keys_accepts dk (keys d1) d1) as Hacc;
      destruct (check_keys dk (keys d1) d1) as [d2 r]
  end.
  cbn [fst snd] in *. intros ->. specialize (Hacc eq_refl).
  destruct Hks as (Hev & Hkeys & _).
  destruct Hspec as (_ & Hset). specialize (Hset eq_refl).
  cbn [heap] in Hset. unfold store_set in *. rewrite Nat.eqb_refl in Hset.
  exists mk. cbn [heap metadata_keys]. rewrite Nat.eqb_refl.
  split; [reflexivity|]. split.
  - intros mk0 E. subst mk. now rewrite E.
  - split; [congruence|]. split; [eapply short_id_evolves; eassumption|].
    split; [|split].
    + intros key Hin. rewrite Hkeys in Hin. now apply Hacc.
    + intros key v Hv. apply (proj2 (Hacc key ltac:(
        rewrite <- Hkeys; eapply dict_get_in_keys; exact Hv)) v Hv).
    + apply Hset.
Qed.

Lemma validate_datum_keeps_batch_keys (a : nat) (vs : vstate) (mk : list string) :
  metadata_keys vs = Some mk ->
  metadata_keys (fst (validate_datum a vs)) = Some mk.
Proof.
  intros E. unfold Validator.validate_datum.
  destruct (check_id (heap vs a) (drawn vs)) as [[d1 n1] [e|]];
    [exact E|].
  rewrite E. destruct (negb (list_string_eqb _ _)); [reflexivity|].
  destruct (check_keys _ _ _); reflexivity.
Qed.

Lemma accepted_kept (mk : list string) (d d' : datum) :
  accepted mk d -> evolves d d' -> keys_kept d d' -> accepted mk d'.
Proof.
  intros (Hk & Hid & Hu & Hs & Hne) Hev Hkept.
  assert (Hkeys : keys d' = keys d).
  { destruct Hkept as [E|(Hmem & _)]; [exact E|].
    destruct Hid as (v & Hv & _). apply dict_mem_false_get in Hmem.
    congruence. }
  split; [congruence|]. split; [eapply short_id_evolves; eassumption|].
  split; [|split].
  - intros key Hin. rewrite Hkeys in Hin. now apply Hu.
  - intros key v. eapply scalar_evolves; [apply Hs|exact Hev].
  - intros Ht key.
    eapply (nonempty_at_evolves DEFAULT_ID urandom proj replace);
      [intros v; apply (Hne Ht)|exact Hev].
Qed.

Lemma validate_from_keeps_batch_keys (data : list nat) (pos : nat)
    (vs : vstate) (mk : list string) :
  metadata_keys vs = Some mk ->
  metadata_keys (fst (validate_from pos data vs)) = Some mk.
Proof.
  revert pos vs; induction data as [|a rest IH]; intros pos vs E;
    cbn [Validator.validate_from]; [exact E|].
  pose proof (validate_datum_keeps_batch_keys a vs mk E) as E1.
  destruct (validate_datum a vs) as [vs1 [e|]]; cbn [fst] in *; [exact E1|].
  specialize (IH (S pos) vs1 E1).
  destruct (validate_from (S pos) rest vs1); exact IH.
Qed.

Lemma validate_from_accepts (data : list nat) (pos : nat) (vs : vstate) :
  snd (validate_from pos data vs) = None ->
  data <> [] ->
  exists mk,
    metadata_keys (fst (validate_from pos data vs)) = Some mk
    /\ (forall mk0, metadata_keys vs = Some mk0 -> mk = mk0)
    /\ forall a, In a data ->
         accepted mk (heap (fst (validate_from pos data vs)) a).
Proof.
  revert pos vs; induction data as [|b rest IH]; intros pos vs Hnone Hne;
    [congruence|].
  cbn [Validator.validate_from] in *.
  pose proof (validate_datum_accepts b vs) as Hb.
  destruct (validate_datum b vs) as [vs1 [e|]]; [discriminate|].
  cbn [fst snd] in Hb. destruct (Hb eq_refl) as (mk & Hmk & Hold & Hacc).
  pose proof (validate_from_changes DEFAULT_ID fromisoformat urandom proj
                replace rest (S pos) vs1) as Hch.
  pose proof (validate_from_keeps_batch_keys rest (S pos) vs1 mk Hmk) as Hkeep.
  specialize (IH (S pos) vs1).
  destruct (validate_from (S pos) rest vs1) as [vs2 r]. cbn [fst snd] in *.
  exists mk. split; [exact Hkeep|]. split; [exact Hold|].
  intros a [<-|Hin].
  - destruct (Hch b) as [He Hk]. eapply accepted_kept; eassumption.
  - destruct rest as [|c rest']; [destruct Hin|].
    destruct (IH Hnone ltac:(discriminate)) as (mk' & Hmk' & Hold' & Hall).
    rewrite <- (Hold' mk Hmk). now apply Hall.
Qed.

(** [X11] What a batch that passes validation is guaranteed to look like
    afterwards: there is one sorted key list shared by all its records;
    every record has the id field, printed in at most 36 characters; no
    key starts with an underscore; every value is a [str], [int] or
    [float]; and in a text project no value is the empty string. *)
Theorem validated_batch_is_uniform (h : store) (data : list nat) (vs : vstate) :
  validate_and_correct h data = (vs, None) ->
  data <> [] ->
  exists batch_keys,
    metadata_keys vs = Some batch_keys
    /\ forall a, In a data -> accepted batch_keys (heap vs a).
Proof.
  intros Hres Hne.
  pose proof (validate_from_accepts data 0%nat (mkVState h None [] 0)) as H.
  unfold Validator.validate_and_correct in Hres. rewrite Hres in H.
  destruct (H eq_refl Hne) as (mk & Hmk & _ & Hall).
  exists mk. split; assumption.
Qed.

End ValidatorAcceptance.

Lemma validated_batch_is_uniform_witness :
  exists batch_keys,
    forall a, In a [0%nat; 1%nat] ->
      ValidatorTerms.accepted example_project batch_keys
        (heap (fst (Validator.validate_and_correct "id_" example_fromisoformat
                      Z.of_nat example_project true example_store
                      [0%nat; 1%nat])) a).
Proof.
  destruct (validated_batch_is_uniform "id_" example_fromisoformat Z.of_nat
              example_project true example_store [0%nat; 1%nat]
              (fst (Validator.validate_and_correct "id_" example_fromisoformat
                      Z.of_nat example_project true example_store
                      [0%nat; 1%nat]))
              eq_refl ltac:(discriminate)) as (mk & _ & H).
  exists mk. exact H.
Defined.

(* ================================================================= *)
(** ** Facts about the retry loop of the nearest-neighbour query      *)
(* ================================================================= *)

Lemma retry_loop_failures (respond : nat -> Z) (n : nat) :
  forall fuel r status,
    status <> 200 ->
    (forall i, (r <= i < r + n)%nat -> respond i <> 200) ->
    (r + n < 10)%nat -> (n < fuel)%nat ->
    Neighbors.retry_loop fuel respond status r
    = Neighbors.retry_loop (fuel - n - 1) respond (respond (r + n)%nat)
                           (S (r + n)).
Proof.
  induction n as [|n IH]; intros fuel r status Hst Hfail Hr Hfuel.
  - destruct fuel as [|fuel]; [lia|]. cbn [Neighbors.retry_loop].
    destruct (Z.eqb_spec status 200); [contradiction|].
    destruct (Nat.ltb_spec r 10); [|lia]. cbn [negb andb].
    replace (S fuel - 0 - 1)%nat with fuel by lia.
    now rewrite Nat.add_0_r.
  - destruct fuel as [|fuel]; [lia|]. cbn [Neighbors.retry_loop].
    destruct (Z.eqb_spec status 200); [contradiction|].
    destruct (Nat.ltb_spec r 10); [|lia]. cbn [negb andb].
    rewrite (IH fuel (S r) (respond r)); try lia.
    + replace (S r + n)%nat with (r + S n)%nat by lia.
      replace (fuel - n - 1)%nat with (S fuel - S n - 1)%nat by lia.
      reflexivity.
    + apply Hfail. lia.
    + intros i Hi. apply Hfail. lia.
Qed.

(** [X12] [get_nearest_neighbors] on an unlocked project and a 2-dimensional
    query array: it returns the answer of the first request that gets a
    200 if that is one of the first nine requests, having sent nothing
    after it; if none of the first nine requests gets a 200 it sends a
    tenth and raises [AssertionError] whatever the tenth is answered,
    a 200 included. *)
Theorem neighbors_retry_limit (ndim : Z) (respond : nat -> Z) :
  ndim = 2 ->
  (forall k, (k < 9)%nat -> respond k = 200 ->
     (forall i, (i < k)%nat -> respond i <> 200) ->
     Neighbors.get_nearest_neighbors false ndim respond
     = (Neighbors.Answer k, S k))
  /\ ((forall i, (i < 9)%nat -> respond i <> 200) ->
      Neighbors.get_nearest_neighbors false ndim respond
      = (Neighbors.NoResponse, 10%nat)).
Proof.
  intros ->. unfold Neighbors.get_nearest_neighbors. cbn [negb Z.eqb].
  change (negb (2 =? 2)) with false. cbv iota.
  split.
  - intros k Hk H200 Hfail.
    rewrite (retry_loop_failures respond k 10 0 0); try lia.
    + cbn [Nat.add]. rewrite H200.
      destruct (10 - k - 1)%nat; cbn [Neighbors.retry_loop];
        change (negb (200 =? 200)) with false; cbn [andb];
        (destruct (Nat.eqb_spec (S k) 10); [lia|]);
        now rewrite Nat.sub_succ, Nat.sub_0_r.
    + intros i Hi. apply Hfail. lia.
  - intros Hfail.
    rewrite (retry_loop_failures respond 9 10 0 0); try lia.
    + reflexivity.
    + intros i Hi. apply Hfail. lia.
Qed.

Lemma neighbors_retry_limit_witness :
  Neighbors.get_nearest_neighbors false 2 (Neighbors.ready_after 9)
  = (Neighbors.NoResponse, 10%nat).
Proof.
  refine (proj2 (neighbors_retry_limit 2 (Neighbors.ready_after 9) eq_refl) _).
  intros i Hi. unfold Neighbors.ready_after.
  destruct (Nat.ltb_spec i 9); [discriminate|lia].
Defined.

(** The tenth answer is the one that is thrown away. *)
Example neighbors_tenth_answer_is_lost :
  Neighbors.ready_after 9 9%nat = 200
  /\ Neighbors.get_nearest_neighbors false 2 (Neighbors.ready_after 8)
     = (Neighbors.Answer 8, 9%nat).
Proof. split; reflexivity. Qed.

(* ================================================================= *)
(** ** Facts about the grouping of tags                               *)
(* ================================================================= *)

Import Tags.

Lemma lookup_append_to (label l id : string) (t : Tags.table) :
  Tags.lookup label (Tags.append_to l id t)
  = if String.eqb label l then extend (Tags.lookup label t) [id]
    else Tags.lookup label t.
Proof.
  induction t as [|[l' ids] t IH]; cbn [Tags.append_to Tags.lookup].
  - destruct (String.eqb_spec label l); reflexivity.
  - destruct (String.eqb_spec l l') as [->|Hne]; cbn [Tags.lookup].
    + destruct (String.eqb_spec label l'); reflexivity.
    + destruct (String.eqb_spec label l') as [->|Hne'].
      * destruct (String.eqb_spec l' l); [congruence|reflexivity].
      * exact IH.
Qed.

Lemma extend_extend (o : option (list string)) (l1 l2 : list string) :
  extend (extend o l1) l2 = extend o (l1 ++ l2).
Proof.
  destruct o as [ids|], l1 as [|a l1], l2 as [|b l2]; cbn;
    rewrite ?app_nil_r, <- ?app_assoc; reflexivity.
Qed.

Lemma extend_nil (o : option (list string)) : extend o [] = o.
Proof. destruct o; cbn; now rewrite ?app_nil_r. Qed.

Lemma lookup_add_labels (label id : string) (ls : list string) (t : Tags.table) :
  Tags.lookup label
    (fold_left (fun acc l => Tags.append_to l id acc) ls t)
  = extend (Tags.lookup label t)
           (map (fun _ => id) (filter (String.eqb label) ls)).
Proof.
  revert t; induction ls as [|l ls IH]; intros t; cbn [fold_left filter map].
  - now rewrite extend_nil.
  - rewrite IH, lookup_append_to.
    destruct (String.eqb label l); cbn [map].
    + now rewrite extend_extend.
    + reflexivity.
Qed.

Lemma lookup_fold_items (label : string) (results : list Tags.item)
    (t : Tags.table) :
  Tags.lookup label (fold_left Tags.add_item results t)
  = extend (Tags.lookup label t) (Tags.tagged_with label results).
Proof.
  revert t; induction results as [|it results IH]; intros t;
    cbn [fold_left Tags.tagged_with flat_map].
  - now rewrite extend_nil.
  - rewrite IH. unfold Tags.add_item. rewrite lookup_add_labels.
    now rewrite extend_extend.
Qed.

Lemma append_to_keys (l id : string) (t : Tags.table) :
  map fst (Tags.append_to l id t)
  = if existsb (String.eqb l) (map fst t) then map fst t
    else map fst t ++ [l].
Proof.
  induction t as [|[l' ids] t IH]; cbn [Tags.append_to map fst existsb];
    [reflexivity|].
  destruct (String.eqb_spec l l') as [->|Hne]; cbn [map fst orb];
    [reflexivity|].
  rewrite IH. destruct (existsb (String.eqb l) (map fst t)); reflexivity.
Qed.

Lemma append_to_nodup (l id : string) (t : Tags.table) :
  NoDup (map fst t) -> NoDup (map fst (Tags.append_to l id t)).
Proof.
  intros Hnd. rewrite append_to_keys.
  destruct (existsb (String.eqb l) (map fst t)) eqn:E; [exact Hnd|].
  apply NoDup_app; [exact Hnd|repeat constructor; simpl; tauto|].
  intros x Hx [<-|[]].
  assert (existsb (String.eqb l) (map fst t) = true); [|congruence].
  apply existsb_exists. exists l. split; [exact Hx|apply String.eqb_refl].
Qed.

(** [X13] [get_tags] inverts the tagging: for every label, the table maps it to
    exactly the datum ids of the items that carry it, in the order of the
    response and once per listing, and has no entry for a label that no
    item carries; no label is entered twice. *)
Theorem get_tags_inverts (results : list Tags.item) (label : string) :
  Tags.lookup label (Tags.get_tags results)
  = match Tags.tagged_with label results with
    | [] => None
    | ids => Some ids
    end
  /\ NoDup (map fst (Tags.get_tags results)).
Proof.
  split.
  - unfold Tags.get_tags. rewrite lookup_fold_items. cbn [Tags.lookup extend].
    destruct (Tags.tagged_with label results); reflexivity.
  - unfold Tags.get_tags.
    assert (H : forall rs t, NoDup (map fst t) ->
                NoDup (map fst (fold_left Tags.add_item rs t))).
    { induction rs as [|it rs IH]; intros t Hnd; cbn [fold_left];
        [exact Hnd|].
      apply IH. unfold Tags.add_item.
      generalize (Tags.labels it). intros ls. revert t Hnd.
      induction ls as [|l ls IHl]; intros t Hnd; cbn [fold_left];
        [exact Hnd|].
      apply IHl. now apply append_to_nodup. }
    apply H. constructor.
Qed.

(* ================================================================= *)
(** ** Facts about [get_map]                                          *)
(* ================================================================= *)

Lemma in_indices (meta : list Maps.raw_index) (i : Maps.index) :
  In i (Maps.indices meta) ->
  exists r, In r meta
            /\ Maps.index_id i = Maps.raw_id r
            /\ Maps.index_name i = Maps.raw_name r
            /\ Maps.projections i
               = map (fun p => Maps.mkProjection p (Maps.raw_id r) (Maps.raw_name r))
                     (Maps.raw_projections r).
Proof.
  unfold Maps.indices. rewrite in_map_iff.
  intros (r & <- & Hr). exists r. repeat split; auto.
Qed.

Lemma by_index_id_sound (id : string) (l : list Maps.index) (p : Maps.projection) :
  Maps.by_index_id id l = inl p ->
  exists i, In i l /\ Maps.index_id i = id
            /\ hd_error (Maps.projections i) = Some p.
Proof.
  induction l as [|i l IH]; cbn [Maps.by_index_id]; [discriminate|].
  destruct (String.eqb_spec (Maps.index_id i) id) as [E|E].
  - destruct (Maps.projections i) as [|q qs] eqn:Hp; [discriminate|].
    intros [= ->]. exists i. rewrite Hp. repeat split; auto. now left.
  - intros H. destruct (IH H) as (j & Hj & Hrest). exists j.
    split; [now right|exact Hrest].
Qed.

Lemma by_name_sound (name : option string) (l : list Maps.index)
    (p : Maps.projection) :
  Maps.by_name name l = inl p ->
  exists i, In i l /\ name = Some (Maps.index_name i)
            /\ hd_error (Maps.projections i) = Some p.
Proof.
  induction l as [|i l IH]; cbn [Maps.by_name]; [discriminate|].
  destruct name as [n|].
  - destruct (String.eqb_spec (Maps.index_name i) n) as [E|E].
    + destruct (Maps.projections i) as [|q qs] eqn:Hp; [discriminate|].
      intros [= ->]. exists i. rewrite Hp, E. repeat split; auto. now left.
    + intros H. destruct (IH H) as (j & Hj & Hrest). exists j.
      split; [now right|exact Hrest].
  - intros H. destruct (IH H) as (j & Hj & Hrest). exists j.
    split; [now right|exact Hrest].
Qed.

(** [X14] What [get_map] returns is a map of the project, and the one asked
    for: the projection returned belongs to one of the project's indices
    and carries the id and name of that index; with [atlas_index_id]
    given it is the first projection of an index with that id; with only
    [projection_id] given it has that id.  With neither, a project with a
    single index that has a single projection yields that projection
    whatever [name] says; several indices and no [name] are refused; and
    a project without indices yields an error in every case. *)
Theorem get_map_selects (meta : list Maps.raw_index)
    (name aid pid : option string) :
  (forall p, Maps.get_map (Maps.indices meta) name aid pid = inl p ->
     (exists r, In r meta
                /\ Maps.atlas_index_id p = Maps.raw_id r
                /\ Maps.projection_name p = Maps.raw_name r
                /\ In (Maps.projection_id p) (Maps.raw_projections r))
     /\ (forall i, aid = Some i ->
           Maps.atlas_index_id p = i
           /\ exists r, In r meta /\ Maps.raw_id r = i
                        /\ hd_error (Maps.raw_projections r)
                           = Some (Maps.projection_id p))
     /\ (forall q, aid = None -> pid = Some q -> Maps.projection_id p = q))
  /\ (forall r q, meta = [r] -> Maps.raw_projections r = [q] ->
        aid = None -> pid = None ->
        Maps.get_map (Maps.indices meta) name aid pid
        = inl (Maps.mkProjection q (Maps.raw_id r) (Maps.raw_name r)))
  /\ ((1 < length meta)%nat -> name = None -> aid = None -> pid = None ->
      Maps.get_map (Maps.indices meta) name aid pid = inr Maps.NameNeeded)
  /\ (meta = [] ->
      exists e, Maps.get_map (Maps.indices meta) name aid pid = inr e).
Proof.
  assert (Hfirst : forall i p, In i (Maps.indices meta) ->
            hd_error (Maps.projections i) = Some p ->
            exists r, In r meta
                      /\ Maps.index_id i = Maps.raw_id r
                      /\ Maps.atlas_index_id p = Maps.raw_id r
                      /\ Maps.projection_name p = Maps.raw_name r
                      /\ hd_error (Maps.raw_projections r)
                         = Some (Maps.projection_id p)).
  { intros i p Hi Hp. destruct (in_indices meta i Hi) as (r & Hr & E1 & E2 & E3).
    rewrite E3 in Hp. destruct (Maps.raw_projections r) as [|q qs] eqn:Hq;
      [discriminate|].
    injection Hp as <-. exists r. rewrite Hq. repeat split; auto. }
  assert (Hhd : forall (l : list string) x, hd_error l = Some x -> In x l)
    by (intros [|y l] x; [discriminate|intros [= ->]; now left]).
  split; [|split; [|split]].
  - intros p Hget. unfold Maps.get_map in Hget.
    destruct aid as [i|].
    + apply by_index_id_sound in Hget. destruct Hget as (ix & Hix & Eid & Hp).
      destruct (Hfirst ix p Hix Hp) as (r & Hr & E0 & E1 & E2 & E3).
      split; [exists r; repeat split; auto|].
      split; [|discriminate].
      intros i' [= <-]. split; [congruence|].
      exists r. repeat split; auto. congruence.
    + destruct pid as [q|].
      * unfold Maps.by_projection_id in Hget.
        destruct (find _ _) as [p'|] eqn:Hf; [|discriminate].
        injection Hget as ->. apply find_some in Hf. destruct Hf as [Hin Hq].
        apply String.eqb_eq in Hq.
        apply in_flat_map in Hin. destruct Hin as (ix & Hix & Hp).
        destruct (in_indices meta ix Hix) as (r & Hr & E1 & E2 & E3).
        rewrite E3 in Hp. apply in_map_iff in Hp.
        destruct Hp as (q' & <- & Hq').
        split; [exists r; repeat split; auto|].
        split; [discriminate|]. intros q0 _ [= <-]. exact Hq.
      * assert (Hname : forall l, (forall i, In i l -> In i (Maps.indices meta)) ->
                  Maps.by_name name l = inl p ->
                  exists r, In r meta
                            /\ Maps.atlas_index_id p = Maps.raw_id r
                            /\ Maps.projection_name p = Maps.raw_name r
                            /\ In (Maps.projection_id p) (Maps.raw_projections r)).
        { intros l Hl Hb. apply by_name_sound in Hb.
          destruct Hb as (ix & Hix & _ & Hp).
          destruct (Hfirst ix p (Hl ix Hix) Hp) as (r & Hr & E0 & E1 & E2 & E3).
          exists r. repeat split; auto. }
        split; [|split; discriminate].
        destruct (Maps.indices meta) as [|i0 l0] eqn:Hidx; [discriminate|].
        destruct ((1 <? length (i0 :: l0))%nat && _); [discriminate|].
        destruct l0 as [|i1 l1].
        -- destruct (Maps.projections i0) as [|p0 [|p1 ps]] eqn:Hp0;
             try (apply (Hname [i0]); [intros i Hi; exact Hi|exact Hget]).
           injection Hget as ->.
           destruct (Hfirst i0 p (or_introl eq_refl)) as (r & Hr & E0 & E1 & E2 & E3);
             [now rewrite Hp0|].
           exists r. repeat split; auto.
        -- apply (Hname (i0 :: i1 :: l1)); [intros i Hi; exact Hi|exact Hget].
  - intros r q -> Hq -> ->. cbn. rewrite Hq. reflexivity.
  - intros Hlen -> -> ->. unfold Maps.get_map.
    assert (Hl : length (Maps.indices meta) = length meta)
      by (unfold Maps.indices; apply length_map).
    destruct (Maps.indices meta) as [|i0 l0]; [simpl in Hl; lia|].
    destruct (Nat.ltb_spec 1 (length (i0 :: l0))); [reflexivity|lia].
  - intros ->. cbn. destruct aid; [eexists; reflexivity|].
    destruct pid; eexists; reflexivity.
Qed.

Lemma get_map_selects_witness :
  Maps.get_map (Maps.indices Maps.example_meta) None None None
  = inr Maps.NameNeeded.
Proof.
  refine (proj1 (proj2 (proj2
    (get_map_selects Maps.example_meta None None None))) _ eq_refl eq_refl eq_refl).
  simpl. lia.
Defined.

(* ================================================================= *)
(** ** Facts about the upload in memory chunks                        *)
(* ================================================================= *)

Import MapEmbeddings.

Lemma pieces_nil {A : Type} (w : nat) : (0 < w)%nat -> pieces w (@nil A) = [].
Proof.
  intros Hw. unfold pieces. cbn [length].
  rewrite Nat.div_small by lia. reflexivity.
Qed.

Lemma pieces_count_succ (n w : nat) :
  (0 < w)%nat -> (0 < n)%nat ->
  ((n + w - 1) / w = S ((n - w + w - 1) / w))%nat.
Proof.
  intros Hw Hn. destruct (Nat.le_gt_cases w n) as [Hle|Hlt].
  - replace (n + w - 1)%nat with ((n - w + w - 1) + 1 * w)%nat by lia.
    rewrite Nat.div_add by lia. lia.
  - replace (n - w)%nat with 0%nat by lia.
    rewrite (Nat.div_small (0 + w - 1)) by lia.
    symmetry. apply (Nat.div_unique _ _ 1%nat (n - 1)%nat); lia.
Qed.

Lemma pieces_cons {A : Type} (w : nat) (l : list A) :
  (0 < w)%nat -> l <> [] ->
  pieces w l = firstn w l :: pieces w (skipn w l).
Proof.
  intros Hw Hl. unfold pieces.
  rewrite (pieces_count_succ (length l) w) by (destruct l; [congruence|simpl; lia]).
  rewrite length_skipn. cbn [seq map]. f_equal.
  rewrite <- seq_shift, map_map. apply map_ext. intros k.
  rewrite skipn_skipn_add. reflexivity.
Qed.

(** Cutting a list at a multiple of the width does not change its pieces. *)
Lemma pieces_app {A : Type} (w q : nat) (l1 l2 : list A) :
  (0 < w)%nat -> length l1 = (q * w)%nat ->
  pieces w (l1 ++ l2) = pieces w l1 ++ pieces w l2.
Proof.
  intros Hw. revert l1. induction q as [|q IH]; intros l1 Hlen.
  - destruct l1; [|discriminate]. now rewrite pieces_nil.
  - assert (Hne : l1 <> []) by (destruct l1; [simpl in Hlen; lia|discriminate]).
    rewrite (pieces_cons w (l1 ++ l2)), (pieces_cons w l1); auto.
    2:{ destruct l1; [congruence|discriminate]. }
    rewrite firstn_app, skipn_app.
    replace (w - length l1)%nat with 0%nat by lia.
    cbn [firstn skipn]. rewrite app_nil_r.
    rewrite IH by (rewrite length_skipn; lia). reflexivity.
Qed.

(** The pieces of consecutive chunks are the pieces of the whole, when the
    width divides the chunk size. *)
Lemma chunks_glue {A : Type} (w q : nat) (l : list A) (m a : nat) :
  (0 < w)%nat ->
  flat_map (fun j => pieces w (firstn (q * w) (skipn (j * (q * w)) l))) (seq a m)
  = pieces w (firstn (m * (q * w)) (skipn (a * (q * w)) l)).
Proof.
  intros Hw. set (M := (q * w)%nat).
  revert a; induction m as [|m IH]; intros a.
  - cbn. now rewrite pieces_nil.
  - cbn [seq flat_map]. rewrite IH.
    replace (S m * M)%nat with (M + m * M)%nat by lia.
    rewrite firstn_add_skipn, skipn_skipn_add.
    replace (a * M + M)%nat with (S a * M)%nat by lia.
    set (X := skipn (a * M) l).
    destruct (Nat.le_gt_cases M (length X)) as [Hle|Hlt].
    + symmetry. apply (pieces_app w q); [assumption|].
      rewrite length_firstn. subst M. lia.
    + replace (skipn (S a * M) l) with (@nil A).
      2:{ symmetry. apply skipn_all2. subst X.
          rewrite length_skipn in Hlt. lia. }
      rewrite firstn_nil, pieces_nil, !app_nil_r by assumption. reflexivity.
Qed.

(** The shards of one call are the pieces of its list. *)
Lemma data_shards_pieces {A : Type} (l : list A) (s : Z) :
  1 <= s ->
  map (Shard.data_shard l s) (Shard.shard_starts (Z.of_nat (length l)) s)
  = pieces (Z.to_nat s) l.
Proof.
  intros Hs. rewrite shard_starts_eq, map_map by lia. unfold pieces.
  replace (Z.to_nat (Shard.shard_count (Z.of_nat (length l)) s))
    with ((length l + Z.to_nat s - 1) / Z.to_nat s)%nat.
  2:{ unfold Shard.shard_count. apply Nat2Z.inj.
      rewrite Nat2Z.inj_div, !Z2Nat.id by (try apply Z.div_pos; lia).
      replace (Z.of_nat (length l + Z.to_nat s - 1))
        with (Z.of_nat (length l) + s - 1) by lia.
      reflexivity. }
  apply map_ext. intros k. unfold Shard.data_shard.
  rewrite slice_nat by lia. do 2 f_equal. nia.
Qed.

Lemma pieces_concat {A : Type} (w : nat) (l : list A) :
  (0 < w)%nat -> concat (pieces w l) = l.
Proof.
  intros Hw. unfold pieces. rewrite concat_chunks. cbn [Nat.mul skipn].
  apply firstn_all2.
  pose proof (Nat.div_mod_eq (length l + w - 1) w).
  pose proof (Nat.mod_upper_bound (length l + w - 1) w ltac:(lia)). nia.
Qed.

Lemma shard_size_for_cases (rows : Z) :
  shard_size_for rows = 1000 \/ shard_size_for rows = 2500.
Proof. unfold shard_size_for. destruct (10000 <? rows); auto. Qed.

(** What the loop over the chunks has submitted: the shards of a prefix
    of the chunks, all of them if no call raised. *)
Lemma upload_chunks_sent {A : Type}
    (transport : Z -> nat -> Z -> Upload.future_result)
    (completion : Z -> list Upload.future -> list Upload.future)
    (data : list A) (s : Z) (cs : list Z) (sent : list (list A)) :
  let r := upload_chunks A transport completion data s cs sent in
  let shards := fun i => payloads_of (Py.slice data i (i + MAX_MEMORY_CHUNK)) s in
  exists rest,
    fst r ++ rest = sent ++ flat_map shards cs
    /\ (snd r = None -> rest = []).
Proof.
  cbv zeta. revert sent. induction cs as [|i cs IH]; intros sent.
  - cbn. exists []. split; [reflexivity|reflexivity].
  - cbn [upload_chunks flat_map].
    set (sent' := sent ++ payloads_of _ s).
    destruct (Legacy.add_embeddings _ _ _ _ _) as [st|b st|e st].
    + destruct (IH sent') as (rest & E & Hn). exists rest.
      split; [|exact Hn]. rewrite E. subst sent'. now rewrite <- app_assoc.
    + destruct (IH sent') as (rest & E & Hn). exists rest.
      split; [|exact Hn]. rewrite E. subst sent'. now rewrite <- app_assoc.
    + cbn [fst snd]. exists (flat_map
        (fun i0 => payloads_of (Py.slice data i0 (i0 + MAX_MEMORY_CHUNK)) s) cs).
      split; [|discriminate]. subst sent'. now rewrite <- app_assoc.
Qed.

(** The shards of all the chunks of [map_embeddings] are the shards of
    the whole dataset. *)
Lemma chunk_shards_global {A : Type} (data : list A) (s : Z) (q : Z) :
  1 <= s -> s <= 5000 -> 1 <= q -> MAX_MEMORY_CHUNK = q * s ->
  flat_map (fun i => payloads_of (Py.slice data i (i + MAX_MEMORY_CHUNK)) s)
           (Py.range 0 (Z.of_nat (length data)) MAX_MEMORY_CHUNK)
  = map (Shard.data_shard data s)
        (Shard.shard_starts (Z.of_nat (length data)) s).
Proof.
  intros Hs Hs5 Hq HM.
  rewrite data_shards_pieces by lia.
  set (N := Z.of_nat (length data)).
  assert (HN : 0 <= N) by (subst N; lia).
  assert (HMpos : 1 <= MAX_MEMORY_CHUNK) by nia.
  change (Py.range 0 N MAX_MEMORY_CHUNK) with (Shard.shard_starts N MAX_MEMORY_CHUNK).
  rewrite shard_starts_eq by lia.
  rewrite flat_map_concat_map, map_map, <- flat_map_concat_map.
  set (w := Z.to_nat s). set (qn := Z.to_nat q).
  assert (HMn : Z.to_nat MAX_MEMORY_CHUNK = (qn * w)%nat) by (subst qn w; nia).
  erewrite flat_map_ext.
  2:{ intros k. unfold payloads_of.
      replace (Shard.effective_shard_size s) with s
        by (unfold Shard.effective_shard_size; lia).
      rewrite data_shards_pieces by lia.
      rewrite slice_nat by lia.
      replace (Z.to_nat (Z.of_nat k * MAX_MEMORY_CHUNK))
        with (k * (qn * w))%nat by nia.
      rewrite HMn. reflexivity. }
  fold w. rewrite (chunks_glue w qn data) by (subst w; lia).
  cbn [Nat.mul skipn]. f_equal. apply firstn_all2.
  pose proof (shard_count_bounds N MAX_MEMORY_CHUNK HN HMpos).
  subst N. nia.
Qed.

(** [X15] [AtlasClient.map_embeddings] uploads the data in memory chunks
    of 150000 records, each by a call of [add_embeddings] that cuts its
    own chunk into shards.  Whatever the server answers, the requests
    submitted carry a prefix of the shards [data[0:s], data[s:2s], ...]
    of the whole dataset for the shard size [s] that the method chose
    (1000, or 2500 above 10000 rows): no chunk boundary splits a shard
    and no record is sent twice.  If no call raised, all the shards have
    been submitted and together they are exactly [data]. *)
Theorem map_embeddings_sends_global_shards {A : Type}
    (transport : Z -> nat -> Z -> Upload.future_result)
    (completion : Z -> list Upload.future -> list Upload.future)
    (data : list A) :
  let N := Z.of_nat (length data) in
  let s := shard_size_for N in
  let r := upload_all A transport completion data in
  exists rest,
    fst r ++ rest = map (Shard.data_shard data s) (Shard.shard_starts N s)
    /\ (snd r = None -> rest = [] /\ concat (fst r) = data).
Proof.
  cbv zeta. unfold upload_all.
  destruct (upload_chunks_sent transport completion data
              (shard_size_for (Z.of_nat (length data)))
              (Py.range 0 (Z.of_nat (length data)) MAX_MEMORY_CHUNK) [])
    as (rest & E & Hn).
  cbv zeta in E, Hn. cbn [app] in E.
  exists rest. split.
  - rewrite E.
    destruct (shard_size_for_cases (Z.of_nat (length data))) as [-> | ->].
    + apply (chunk_shards_global data 1000 150); try lia. reflexivity.
    + apply (chunk_shards_global data 2500 60); try lia. reflexivity.
  - intros Hnone. specialize (Hn Hnone). split; [exact Hn|].
    subst rest. rewrite app_nil_r in E. rewrite E.
    rewrite flat_map_concat_map.
    destruct (shard_size_for_cases (Z.of_nat (length data))) as [Es | Es];
      rewrite Es.
    + rewrite <- flat_map_concat_map,
        (chunk_shards_global data 1000 150) by (try lia; reflexivity).
      apply concat_data_shards. lia.
    + rewrite <- flat_map_concat_map,
        (chunk_shards_global data 2500 60) by (try lia; reflexivity).
      apply concat_data_shards. lia.
Qed.

(* ================================================================= *)
(** ** Facts about the constructor of a project                       *)
(* ================================================================= *)

Section ConstructorFacts.

Import ProjectInit.

Variable meta : Type.
Variable get_organization : option string -> Py.exn + (string * string).
Variable search : string -> string -> search_response.
Variable create : string -> string -> create_response.
Variable get_project_by_id : string -> Py.exn + meta.

Local Abbreviation init :=
  (ProjectInit.init meta get_organization search create get_project_by_id).
Local Abbreviation create_project :=
  (ProjectInit.create_project get_organization create).

(** [_create_project] deletes nothing, and posts a project only with an id
    field and a supported modality. *)
Lemma create_project_calls (n : string) (description unique_id_field : option string)
    (m : string) (organization_name : option string) (is_public : bool) (c : call) :
  In c (fst (create_project n description unique_id_field m organization_name
                            is_public)) ->
  (forall pid, c <> DeleteProject pid)
  /\ (is_create c = true ->
      (exists u, unique_id_field = Some u) /\ In m supported_modalities).
Proof.
  unfold ProjectInit.create_project.
  destruct (get_organization organization_name) as [e|[oname oid]].
  - cbn. intros [<- | []]. split; [discriminate|discriminate].
  - destruct (existsb _ _) eqn:Hm; cbn [negb].
    + assert (Hin : In m supported_modalities).
      { apply existsb_exists in Hm. destruct Hm as (x & Hx & E).
        apply String.eqb_eq in E. now subst x. }
      destruct unique_id_field as [u|].
      * destruct (negb _); cbn; intros [<- | [<- | []]];
          (split; [discriminate|]); try discriminate;
          intros _; split; eauto.
      * cbn. intros [<- | []]. split; [discriminate|discriminate].
    + cbn. intros [<- | []]. split; [discriminate|discriminate].
Qed.

(** [X16] The constructor deletes the project it found before it checks
    the arguments for the new one.  When a project of that name exists
    and [reset_project_if_exists] is set, but [unique_id_field] or
    [modality] is missing, or the modality is not a supported one, the
    call deletes the existing project, raises a [ValueError], and creates
    nothing in its place. *)
Theorem reset_deletes_before_arguments_are_checked
    (n : string) (description unique_id_field modality organization_name : option string)
    (is_public add_datums_if_exists : bool)
    (oname oid pid : string) (rest : list string) :
  get_organization organization_name = inr (oname, oid) ->
  search_status (search oname n) = 200 ->
  search_results (search oname n) = pid :: rest ->
  (unique_id_field = None
   \/ modality = None
   \/ exists m, modality = Some m
        /\ existsb (String.eqb m) supported_modalities = false
        /\ exists o, get_organization (Some oname) = inr o) ->
  let r := init (Some n) description unique_id_field modality organization_name
                is_public None true add_datums_if_exists in
  In (DeleteProject pid) (fst r)
  /\ (exists msg, snd r = inl (Raised (Py.ValueError msg)))
  /\ (forall c, In c (fst r) -> is_create c = false).
Proof.
  intros Horg Hst Hres Hbad. cbv zeta.
  unfold ProjectInit.init, get_existing_project_by_name.
  rewrite Horg, Hst, Hres. cbn [Z.eqb negb Pos.eqb].
  destruct unique_id_field as [u|].
  - destruct modality as [m|].
    + destruct Hbad as [Hbad|[Hbad|(m' & [= <-] & Hm & (o & Ho))]];
        try discriminate.
      unfold ProjectInit.create_project. rewrite Ho, Hm.
      destruct o as [o1 o2]. cbn.
      split; [auto|]. split; [eauto|].
      intros c [<- | [<- | [<- | [<- | []]]]]; reflexivity.
    + cbn. split; [auto|]. split; [eauto|].
      intros c [<- | [<- | [<- | []]]]; reflexivity.
  - cbn. split; [auto|]. split; [eauto|].
    intros c [<- | [<- | [<- | []]]]; reflexivity.
Qed.

(** [X17] What the constructor changes on the server is what was asked
    for.  It deletes a project only if [reset_project_if_exists] was set,
    no [project_id] was given, and the search by name answered 200 with
    that project first.  It posts a new project only if no [project_id]
    was given, [unique_id_field] and a supported [modality] were, and the
    project found, if any, was to be reset. *)
Theorem constructor_changes_only_on_request
    (name description unique_id_field modality organization_name : option string)
    (is_public : bool) (project_id : option string)
    (reset_project_if_exists add_datums_if_exists : bool) :
  let r := init name description unique_id_field modality organization_name
                is_public project_id reset_project_if_exists
                add_datums_if_exists in
  (forall pid, In (DeleteProject pid) (fst r) ->
     reset_project_if_exists = true /\ project_id = None
     /\ exists n oname oid rest,
          name = Some n
          /\ get_organization organization_name = inr (oname, oid)
          /\ search_status (search oname n) = 200
          /\ search_results (search oname n) = pid :: rest)
  /\ (forall c, In c (fst r) -> is_create c = true ->
        project_id = None
        /\ (exists u, unique_id_field = Some u)
        /\ (exists m, modality = Some m /\ In m supported_modalities)
        /\ (reset_project_if_exists = true
            \/ exists n oname oid,
                 name = Some n
                 /\ get_organization organization_name = inr (oname, oid)
                 /\ search_results (search oname n) = [])).
Proof.
  cbv zeta.
  assert (Hload : forall t pid0 c,
             In c (fst (load meta get_project_by_id t pid0)) ->
             In c t \/ c = GetProject pid0).
  { intros t pid0 c. unfold load. cbn [fst]. rewrite in_app_iff.
    intros [H|[<- | []]]; auto. }
  unfold ProjectInit.init.
  destruct project_id as [pid0|].
  { split.
    - intros pid H. destruct name; apply Hload in H;
        destruct H as [[]|H]; discriminate.
    - intros c H Hc. destruct name; apply Hload in H;
        destruct H as [[]| ->]; discriminate. }
  destruct name as [n|]; [|split; [intros pid []|intros c []]].
  unfold get_existing_project_by_name.
  destruct (get_organization organization_name) as [e|[oname oid]] eqn:Horg.
  { cbn. split.
    - intros pid [H|[]]; discriminate.
    - intros c [<- | []]; discriminate. }
  destruct (Z.eqb_spec (search_status (search oname n)) 200) as [Hst|Hst];
    cbn [negb].
  2:{ cbn. split.
      - intros pid [H|[H|[]]]; discriminate.
      - intros c [<- | [<- | []]]; discriminate. }
  set (t := [GetOrganization organization_name; SearchProject oname n]).
  assert (Ht : forall c, In c t ->
                 (forall pid, c <> DeleteProject pid) /\ is_create c = false).
  { intros c [<- | [<- | []]]; split; try discriminate; reflexivity. }
  assert (Hnew : forall t1,
    (forall c, In c t1 -> is_create c = false) ->
    forall c,
    In c (fst (match unique_id_field, modality with
               | None, _ => (t1, inl (Raised (Py.ValueError MSG_UNIQUE)))
               | Some _, None => (t1, inl (Raised (Py.ValueError MSG_MODALITY)))
               | Some _, Some m =>
                 match create_project n description unique_id_field m
                                      (Some oname) is_public with
                 | (t2, inl e) => (t1 ++ t2, inl (Raised e))
                 | (t2, inr pid) => load meta get_project_by_id (t1 ++ t2) pid
                 end
               end)) ->
    (In c t1
     \/ (forall pid, c <> DeleteProject pid)
        /\ (is_create c = true ->
            (exists u, unique_id_field = Some u)
            /\ (exists m, modality = Some m /\ In m supported_modalities)))).
  { intros t1 Ht1 c.
    destruct unique_id_field as [u|]; [|cbn; auto].
    destruct modality as [m|]; [|cbn; auto].
    pose proof (create_project_calls n description (Some u) m (Some oname)
                  is_public c) as Hcp.
    destruct (create_project n description (Some u) m (Some oname) is_public)
      as [t2 [e|pid2]]; cbn [fst] in Hcp |- *.
    - rewrite in_app_iff. intros [H|H]; [auto|].
      right. destruct (Hcp H) as [Hd Hc]. split; [exact Hd|].
      intros Hic. destruct (Hc Hic). split; eauto.
    - intros H. apply Hload in H. rewrite in_app_iff in H.
      destruct H as [[H|H]| ->]; [auto| |right; split; discriminate].
      right. destruct (Hcp H) as [Hd Hc]. split; [exact Hd|].
      intros Hic. destruct (Hc Hic). split; eauto. }
  destruct (search_results (search oname n)) as [|pid1 rest] eqn:Hres.
  - (* no project of that name *)
    assert (Ht' : forall c, In c t -> is_create c = false)
      by (intros c Hc; apply Ht, Hc).
    split.
    + intros pid H. apply (Hnew t Ht') in H.
      destruct H as [H|[H _]]; [apply Ht in H; destruct H as [H _]|];
        exfalso; apply (H pid); reflexivity.
    + intros c H Hc. apply (Hnew t Ht') in H.
      destruct H as [H|[_ H]]; [apply Ht' in H; congruence|].
      destruct (H Hc) as [Hu Hm].
      split; [reflexivity|]. split; [exact Hu|]. split; [exact Hm|].
      right. exists n, oname, oid. auto.
  - destruct reset_project_if_exists.
    + (* the project found is reset *)
      assert (Ht1 : forall c, In c (t ++ [DeleteProject pid1]) ->
                      is_create c = false).
      { intros c Hc. apply in_app_iff in Hc.
        destruct Hc as [Hc|[<- | []]]; [apply Ht, Hc|reflexivity]. }
      split.
      * intros pid H. apply (Hnew _ Ht1) in H.
        split; [reflexivity|]. split; [reflexivity|].
        exists n, oname, oid, rest.
        destruct H as [H|[H _]]; [|exfalso; apply (H pid); reflexivity].
        apply in_app_iff in H. destruct H as [H|[[= ->]|[]]]; [|auto].
        apply Ht in H. destruct H as [H _]. exfalso. apply (H pid). reflexivity.
      * intros c H Hc. apply (Hnew _ Ht1) in H.
        destruct H as [H|[_ H]]; [apply Ht1 in H; congruence|].
        destruct (H Hc) as [Hu Hm].
        split; [reflexivity|]. split; [exact Hu|]. split; [exact Hm|]. now left.
    + destruct add_datums_if_exists; cbn [negb].
      * split.
        -- intros pid H. apply Hload in H.
           destruct H as [H|H]; [|discriminate].
           apply Ht in H. destruct H as [H _]. exfalso. apply (H pid). reflexivity.
        -- intros c H Hc. apply Hload in H.
           destruct H as [H| ->]; [|discriminate].
           apply Ht in H. destruct H as [_ H]. congruence.
      * cbn [fst]. split.
        -- intros pid H.
           apply Ht in H. destruct H as [H _]. exfalso. apply (H pid). reflexivity.
        -- intros c H Hc. apply Ht in H. destruct H as [_ H]. congruence.
Qed.

End ConstructorFacts.

Lemma reset_deletes_before_arguments_are_checked_witness :
  let r := ProjectInit.init string ProjectInit.one_project_org
             ProjectInit.one_project_search ProjectInit.one_project_create
             ProjectInit.one_project_state
             (Some "maps") None None (Some "text") None true None true true in
  In (ProjectInit.DeleteProject "p-1") (fst r)
  /\ (exists msg, snd r = inl (ProjectInit.Raised (Py.ValueError msg)))
  /\ (forall c, In c (fst r) -> ProjectInit.is_create c = false).
Proof.
  refine (reset_deletes_before_arguments_are_checked string
            ProjectInit.one_project_org ProjectInit.one_project_search
            ProjectInit.one_project_create ProjectInit.one_project_state
            "maps" None None (Some "text") None true true
            "org" "o-1" "p-1" [] _ _ _ _).
  - reflexivity.
  - reflexivity.
  - reflexivity.
  - left. reflexivity.
Defined.

(* ================================================================= *)
(** ** Facts about the map that [create_index] returns                *)
(* ================================================================= *)

Lemma by_index_id_error (id : string) (l : list Maps.index) (e : Maps.error) :
  Maps.by_index_id id l = inr e ->
  e = Maps.NoIndexWithId \/ e = Maps.NoMapUnderIndex.
Proof.
  induction l as [|i l IH]; cbn [Maps.by_index_id].
  - intros [= <-]. now left.
  - destruct (String.eqb (Maps.index_id i) id); [|exact IH].
    destruct (Maps.projections i); [|discriminate].
    intros [= <-]. now right.
Qed.

Lemma by_index_id_none (id : string) (meta : list Maps.raw_index) :
  (forall r, In r meta -> Maps.raw_id r = id -> Maps.raw_projections r = []) ->
  exists e, Maps.by_index_id id (Maps.indices meta) = inr e.
Proof.
  induction meta as [|r meta IH]; intros H; cbn.
  - eauto.
  - destruct (String.eqb_spec (Maps.raw_id r) id) as [E|E].
    + rewrite (H r (or_introl eq_refl) E). cbn. eauto.
    + apply IH. intros r' Hr'. apply H. now right.
Qed.

(** A projection that [get_map] returns is a projection of an index of
    the state, and the first one of an index with the id asked for. *)
Lemma get_map_member (l : list Maps.raw_index)
    (name aid pid : option string) (p : Maps.projection) :
  Maps.get_map (Maps.indices l) name aid pid = inl p ->
  exists rw, In rw l
             /\ Maps.atlas_index_id p = Maps.raw_id rw
             /\ Maps.projection_name p = Maps.raw_name rw
             /\ In (Maps.projection_id p) (Maps.raw_projections rw)
             /\ (forall id, aid = Some id ->
                   Maps.raw_id rw = id
                   /\ hd_error (Maps.raw_projections rw)
                      = Some (Maps.projection_id p)).
Proof.
  assert (Hfirst : forall i, In i (Maps.indices l) ->
            hd_error (Maps.projections i) = Some p ->
            exists rw, In rw l
                       /\ Maps.index_id i = Maps.raw_id rw
                       /\ Maps.atlas_index_id p = Maps.raw_id rw
                       /\ Maps.projection_name p = Maps.raw_name rw
                       /\ hd_error (Maps.raw_projections rw)
                          = Some (Maps.projection_id p)).
  { intros i Hi Hp. destruct (in_indices l i Hi) as (rw & Hrw & E1 & E2 & E3).
    rewrite E3 in Hp.
    destruct (Maps.raw_projections rw) as [|q qs] eqn:Hq; [discriminate|].
    injection Hp as <-. exists rw. rewrite Hq. repeat split; auto. }
  assert (Hhd : forall (xs : list string) x, hd_error xs = Some x -> In x xs)
    by (intros [|y xs] x; [discriminate|intros [= ->]; now left]).
  assert (Hname : forall l', (forall i, In i l' -> In i (Maps.indices l)) ->
            Maps.by_name name l' = inl p ->
            exists rw, In rw l
                       /\ Maps.atlas_index_id p = Maps.raw_id rw
                       /\ Maps.projection_name p = Maps.raw_name rw
                       /\ In (Maps.projection_id p) (Maps.raw_projections rw)).
  { intros l' Hl Hb. apply by_name_sound in Hb.
    destruct Hb as (ix & Hix & _ & Hp).
    destruct (Hfirst ix (Hl ix Hix) Hp) as (rw & Hrw & E0 & E1 & E2 & E3).
    exists rw. repeat split; auto. }
  unfold Maps.get_map. destruct aid as [id|].
  - intros Hget. apply by_index_id_sound in Hget.
    destruct Hget as (ix & Hix & Eid & Hp).
    destruct (Hfirst ix Hix Hp) as (rw & Hrw & E0 & E1 & E2 & E3).
    exists rw. split; [exact Hrw|]. split; [exact E1|]. split; [exact E2|].
    split; [now apply Hhd|]. intros id' [= <-]. split; [congruence|exact E3].
  - destruct pid as [q|].
    + unfold Maps.by_projection_id.
      destruct (find _ _) as [p'|] eqn:Hf; [|discriminate].
      intros [= ->]. apply find_some in Hf. destruct Hf as [Hin _].
      apply in_flat_map in Hin. destruct Hin as (ix & Hix & Hp).
      destruct (in_indices l ix Hix) as (rw & Hrw & E1 & E2 & E3).
      rewrite E3 in Hp. apply in_map_iff in Hp.
      destruct Hp as (q' & <- & Hq').
      exists rw. split; [exact Hrw|]. split; [reflexivity|].
      split; [reflexivity|]. split; [exact Hq'|]. discriminate.
    + intros Hget.
      assert (exists rw, In rw l
                /\ Maps.atlas_index_id p = Maps.raw_id rw
                /\ Maps.projection_name p = Maps.raw_name rw
                /\ In (Maps.projection_id p) (Maps.raw_projections rw))
        as (rw & H1 & H2 & H3 & H4).
      { destruct (Maps.indices l) as [|i0 l0] eqn:Hidx; [discriminate|].
        destruct ((1 <? length (i0 :: l0))%nat && _); [discriminate|].
        destruct l0 as [|i1 l1].
        - destruct (Maps.projections i0) as [|p0 [|p1 ps]] eqn:Hp0;
            try (apply (Hname [i0]); [intros i Hi; exact Hi|exact Hget]).
          injection Hget as ->.
          destruct (Hfirst i0 (or_introl eq_refl))
            as (rw & Hrw & E0 & E1 & E2 & E3); [now rewrite Hp0|].
          exists rw. repeat split; auto.
        - apply (Hname (i0 :: i1 :: l1)); [intros i Hi; exact Hi|exact Hget]. }
      exists rw. split; [exact H1|]. split; [exact H2|]. split; [exact H3|].
      split; [exact H4|]. discriminate.
Qed.

(** What one look-up leaves and yields. *)
Lemma get_map_call_spec (m : CreateIndex.meta)
    (answer : string -> CreateIndex.body) (index_id : option string) :
  match CreateIndex.get_map_call m answer index_id with
  | (m', inr p) =>
      exists i l,
        CreateIndex.get_id m = inr i
        /\ answer i = CreateIndex.Json m'
        /\ CreateIndex.get_atlas_indices m' = inr l
        /\ Maps.get_map (Maps.indices l) None index_id None = inl p
  | (m', inl e) =>
      CreateIndex.is_value_error e = true ->
      m' = m \/ exists i, CreateIndex.get_id m = inr i
                          /\ answer i = CreateIndex.Json m'
  end.
Proof.
  unfold CreateIndex.get_map_call.
  destruct (CreateIndex.get_id m) as [e|i] eqn:Hid; [now left|].
  destruct (answer i) as [|m'] eqn:Ha; [now left|].
  destruct (CreateIndex.get_atlas_indices m') as [e|l] eqn:Hl;
    [right; eauto|].
  destruct (Maps.get_map _ _ _ _) as [p|e] eqn:Hg.
  - exists i, l. auto.
  - right. eauto.
Qed.

(** [X18] The end of [create_index], which looks up the map of the index
    that the job built and retries once after a [ValueError].  A
    projection that is returned is a projection of an index of a state
    that the server answered to one of the two look-ups, and, when the
    job names an index, the first projection of an index with that id.
    The call never returns [None]: when both look-ups are refused for
    want of a map under the index (or of a body that is JSON), it raises
    the [AttributeError] of [projection.name] after its warning.  No
    [ValueError] leaves the two look-ups, but other exceptions do: a
    first answer that is an object without [atlas_indices] (an error
    body) raises [KeyError], which [except ValueError] does not catch,
    and there is no retry. *)
Theorem create_index_returns_the_built_map
    (m0 : CreateIndex.meta) (answer1 answer2 : string -> CreateIndex.body)
    (index_id : option string) :
  let r := CreateIndex.fetch_projection m0 answer1 answer2 index_id in
  (forall p, r = CreateIndex.Returned p ->
     exists i m l rw,
       (answer1 i = CreateIndex.Json m \/ answer2 i = CreateIndex.Json m)
       /\ CreateIndex.get_atlas_indices m = inr l
       /\ In rw l
       /\ Maps.atlas_index_id p = Maps.raw_id rw
       /\ Maps.projection_name p = Maps.raw_name rw
       /\ In (Maps.projection_id p) (Maps.raw_projections rw)
       /\ (forall id, index_id = Some id ->
             Maps.raw_id rw = id
             /\ hd_error (Maps.raw_projections rw)
                = Some (Maps.projection_id p)))
  /\ (forall e, r = CreateIndex.Raised e ->
        CreateIndex.is_value_error e = false)
  /\ (forall i i' n,
        CreateIndex.get_id m0 = inr i ->
        answer1 i = CreateIndex.Json (CreateIndex.Object i' n None) ->
        r = CreateIndex.Raised (CreateIndex.KeyError "atlas_indices"))
  /\ (forall i id,
        CreateIndex.get_id m0 = inr i -> index_id = Some id ->
        (forall k, CreateIndex.no_map_under id (answer1 k)
                   /\ CreateIndex.no_map_under id (answer2 k)) ->
        r = CreateIndex.Raised CreateIndex.AttributeError).
Proof.
  cbv zeta. unfold CreateIndex.fetch_projection.
  assert (Hreport : forall m p e,
            CreateIndex.report m p = CreateIndex.Raised e ->
            CreateIndex.is_value_error e = false).
  { intros m p e. unfold CreateIndex.report.
    destruct m as [[i|] [n|] l|]; cbn; intros [= <-]; reflexivity. }
  assert (Hret : forall m p q,
            CreateIndex.report m p = CreateIndex.Returned q -> q = p).
  { intros m p q. unfold CreateIndex.report.
    destruct (CreateIndex.get_project_name m); [discriminate|].
    destruct (CreateIndex.get_id m); [discriminate|]. now intros [= <-]. }
  split; [|split; [|split]].
  - intros p.
    pose proof (get_map_call_spec m0 answer1 index_id) as H1.
    destruct (CreateIndex.get_map_call m0 answer1 index_id) as [m1 [e1|p1]].
    + destruct (CreateIndex.is_value_error e1); [|discriminate].
      pose proof (get_map_call_spec m1 answer2 index_id) as H2.
      destruct (CreateIndex.get_map_call m1 answer2 index_id) as [m2 [e2|p2]].
      * destruct (CreateIndex.is_value_error e2); discriminate.
      * intros Hr. apply Hret in Hr. subst p2.
        destruct H2 as (i & l & _ & Ha & Hl & Hg).
        destruct (get_map_member l None index_id None p Hg)
          as (rw & F1 & F2 & F3 & F4 & F5).
        exists i, m2, l, rw. split; [now right|]. split; [exact Hl|].
        split; [exact F1|]. split; [exact F2|]. split; [exact F3|].
        split; [exact F4|exact F5].
    + intros Hr. apply Hret in Hr. subst p1.
      destruct H1 as (i & l & _ & Ha & Hl & Hg).
      destruct (get_map_member l None index_id None p Hg)
        as (rw & F1 & F2 & F3 & F4 & F5).
      exists i, m1, l, rw. split; [now left|]. split; [exact Hl|].
      split; [exact F1|]. split; [exact F2|]. split; [exact F3|].
      split; [exact F4|exact F5].
  - intros e.
    destruct (CreateIndex.get_map_call m0 answer1 index_id) as [m1 [e1|p1]];
      [|apply Hreport].
    destruct (CreateIndex.is_value_error e1) eqn:He1; [|now intros [= <-]].
    destruct (CreateIndex.get_map_call m1 answer2 index_id) as [m2 [e2|p2]];
      [|apply Hreport].
    destruct (CreateIndex.is_value_error e2) eqn:He2; now intros [= <-].
  - intros i i' n Hid Ha. unfold CreateIndex.get_map_call.
    rewrite Hid, Ha. reflexivity.
  - intros i id Hid -> Hno.
    assert (Hcall : forall m k (answer : string -> CreateIndex.body),
              CreateIndex.get_id m = inr k ->
              CreateIndex.no_map_under id (answer k) ->
              exists m' e k',
                CreateIndex.get_map_call m answer (Some id) = (m', inl e)
                /\ CreateIndex.is_value_error e = true
                /\ CreateIndex.get_id m' = inr k').
    { intros m k answer Hk Hn. unfold CreateIndex.get_map_call. rewrite Hk.
      destruct Hn as [->|(i1 & n1 & l & -> & Hl)].
      - exists m, CreateIndex.JSONDecodeError, k. auto.
      - cbn [CreateIndex.get_atlas_indices Maps.get_map].
        destruct (by_index_id_none id l Hl) as (e & He). rewrite He.
        exists (CreateIndex.Object (Some i1) n1 (Some l)),
          (CreateIndex.GetMapError e), i1.
        split; [reflexivity|]. split; [|reflexivity].
        apply by_index_id_error in He. now destruct He as [-> | ->]. }
    destruct (Hcall m0 i answer1 Hid (proj1 (Hno i)))
      as (m1 & e1 & k1 & -> & -> & Hk1).
    destruct (Hcall m1 k1 answer2 Hk1 (proj2 (Hno k1)))
      as (m2 & e2 & k2 & -> & -> & _).
    reflexivity.
Qed.

(** An error body at the first look-up: the [KeyError] leaves at once. *)
Example create_index_error_body :
  CreateIndex.fetch_projection
    (CreateIndex.Object (Some "p-1") (Some "maps") (Some []))
    (fun _ => CreateIndex.Json (CreateIndex.Object None None None))
    (fun _ => CreateIndex.Json
                (CreateIndex.Object (Some "p-1") (Some "maps")
                   (Some Maps.example_meta)))
    (Some "idx-1")
  = CreateIndex.Raised (CreateIndex.KeyError "atlas_indices").
Proof. reflexivity. Qed.

(** The map appears between the two look-ups: the second one returns
    it. *)
Example create_index_second_look_up :
  CreateIndex.fetch_projection
    (CreateIndex.Object (Some "p-1") (Some "maps") (Some []))
    (fun _ => CreateIndex.Json
                (CreateIndex.Object (Some "p-1") (Some "maps") (Some [])))
    (fun _ => CreateIndex.Json
                (CreateIndex.Object (Some "p-1") (Some "maps")
                   (Some Maps.example_meta)))
    (Some "idx-2")
  = CreateIndex.Returned (Maps.mkProjection "p-2" "idx-2" "second").
Proof. reflexivity. Qed.
